(** * Rooted trees: the Butcher-Connes-Kreimer algebra of [rootedtrees/trees.py]

    A shallow embedding of the classes [Tree], [Forest] and [ForestSum] of
    [src/rootedtrees/trees.py], followed by the properties of the
    specification that are settled against it.

    Conventions of the embedding:
    - a nested tuple [list_repr] is a [rep]; [Tree(None)] has [list_repr = None];
    - scalars are Python [int]s, modelled as [Z] (floats are not modelled);
    - the [lru_cache] decorators are dropped: the decorated methods are pure;
    - a Python exception is a value of the error monad [res]. *)

From Stdlib Require Import ZArith Lia SpecFloat.
From stdpp Require Import base tactics option numbers countable gmultiset sorting list.

Local Open Scope Z_scope.

(** ** Data model *)

(** A nested tuple: the tuple of the representations of the children. *)
#[warnings="-register-all"]
Inductive rep : Type :=
| Node (children : list rep).

Definition children_of (r : rep) : list rep :=
  match r with Node cs => cs end.

(** [class Tree]: the frozen dataclass with the one field [list_repr]. *)
Record Tree : Type := mkTree { list_repr : option rep }.

(** [class Forest]: the frozen dataclass with the one field [tree_list]. *)
Record Forest : Type := mkForest { tree_list : list Tree }.

(** [class ForestSum]: two parallel tuples. [__post_init__] raises unless
    they have the same length; see [ForestSum_init] and [wf_sum]. *)
Record ForestSum : Type := mkForestSum {
  forest_list : list Forest;
  coeff_list : list Z
}.

(** What a tree function or an arithmetic helper may return. *)
Inductive value : Type :=
| VInt (z : Z)
| VTree (t : Tree)
| VForest (f : Forest)
| VSum (s : ForestSum).

(** The exceptions that the module and the arithmetic of its scalars raise. *)
Inductive exn : Type :=
| ValueError
| ZeroDivisionError
| OverflowError.

(** The error monad: a result, an exception, or recursion fuel exhausted
    (the last one never happens with the fuel the entry points pass). *)
Inductive res (A : Type) : Type :=
| Ok (a : A)
| Raise (e : exn)
| NoFuel.
Arguments Ok {A} a.
Arguments Raise {A} e.
Arguments NoFuel {A}.

Definition res_bind {A B} (m : res A) (k : A -> res B) : res B :=
  match m with
  | Ok a => k a
  | Raise e => Raise e
  | NoFuel => NoFuel
  end.

Notation "'do' x <~ m ; k" := (res_bind m (fun x => k))
  (at level 10, x name, m at level 100, k at level 200).

(** The module constants at the end of the file. *)
Definition EMPTY_TREE : Tree := mkTree None.
Definition EMPTY_FOREST : Forest := mkForest [EMPTY_TREE].
Definition EMPTY_FOREST_SUM : ForestSum := mkForestSum [EMPTY_FOREST] [1].
Definition ZERO_FOREST_SUM : ForestSum := mkForestSum [EMPTY_FOREST] [0].
Definition SINGLETON_TREE : Tree := mkTree (Some (Node [])).
Definition SINGLETON_FOREST : Forest := mkForest [SINGLETON_TREE].
Definition SINGLETON_FOREST_SUM : ForestSum := mkForestSum [SINGLETON_FOREST] [1].

(** [ForestSum.__post_init__] on forests: the coefficients default to ones,
    and a length mismatch is a [ValueError]. *)
Definition ForestSum_init (fl : list Forest) (cl : option (list Z)) : res ForestSum :=
  match cl with
  | None => Ok (mkForestSum fl (replicate (length fl) 1))
  | Some c => if decide (length c = length fl) then Ok (mkForestSum fl c) else Raise ValueError
  end.

Definition wf_sum (s : ForestSum) : Prop :=
  length (forest_list s) = length (coeff_list s).

(** [zip(self.forest_list, self.coeff_list)] *)
Definition terms (s : ForestSum) : list (Forest * Z) :=
  zip (forest_list s) (coeff_list s).

(** [ForestSum(forests, coeffs)] after [forests, coeffs = zip( *result )]. *)
Definition of_terms (l : list (Forest * Z)) : ForestSum :=
  mkForestSum (fmap fst l) (fmap snd l).

(** ** The helpers of [rootedtrees/utils.py] *)

(** Modelled from the spec: [utils._nodes] is not among the sources.
    "nodes(t): 0 for the void element; otherwise 1 + the sum of nodes(child)". *)
Fixpoint rep_nodes (r : rep) : nat :=
  match r with
  | Node cs => S (foldr (fun c acc => (rep_nodes c + acc)%nat) 0%nat cs)
  end.

Definition _nodes (lr : option rep) : nat :=
  match lr with
  | None => 0%nat
  | Some r => rep_nodes r
  end.

(** Modelled from the spec: [utils._factorial] is not among the sources.
    "factorial(t): 1 for the unit tree; otherwise nodes(t) times the product
    of factorial(child) over children". *)
Fixpoint rep_factorial (r : rep) : Z :=
  match r with
  | Node cs => Z.of_nat (rep_nodes r) * foldr (fun c acc => rep_factorial c * acc) 1 cs
  end.

Definition _factorial (lr : option rep) : Z :=
  match lr with
  | None => 0
  | Some r => rep_factorial r
  end.

(** Induction over nested tuples, with the hypothesis on every child. *)
Lemma rep_ind' (P : rep -> Prop) :
  (forall cs, Forall P cs -> P (Node cs)) -> forall r, P r.
Proof.
  intros H. fix IH 1. intros [cs]. apply H.
  induction cs as [|c cs IHcs]; constructor; [apply IH | apply IHcs].
Qed.

#[global] Instance rep_eq_dec : EqDecision rep.
Proof.
  refine (fix go (a b : rep) : Decision (a = b) :=
    match a, b with
    | Node xs, Node ys => cast_if (@list_eq_dec _ go xs ys)
    end); abstract (intuition congruence).
Defined.

(** The order of Python tuples on nested tuples: lexicographic, a proper
    prefix before its extensions. *)
Fixpoint rep_compare (a b : rep) : comparison :=
  match a, b with
  | Node xs, Node ys =>
    (fix go (xs ys : list rep) : comparison :=
       match xs, ys with
       | [], [] => Eq
       | [], _ :: _ => Lt
       | _ :: _, [] => Gt
       | x :: xs', y :: ys' =>
           match rep_compare x y with
           | Eq => go xs' ys'
           | c => c
           end
       end) xs ys
  end.

(** [rep_before a b]: [a] may stand to the left of [b] in a sorted tuple:
    the heavier subtree first, ties broken by the tuple order, larger first. *)
Definition rep_before (a b : rep) : bool :=
  (rep_nodes b <? rep_nodes a)%nat
  || ((rep_nodes a =? rep_nodes b)%nat
      && match rep_compare a b with Lt => false | _ => true end).

Definition rep_le (a b : rep) : Prop := rep_before a b = true.

#[global] Instance rep_le_dec : RelDecision rep_le.
Proof. intros a b. unfold rep_le. apply _. Defined.

(** Modelled from the spec: [utils._sorted_list_repr] is not among the
    sources. "canonical_order(t): recursively sorts children by a total order
    that places heavier canonical subtrees first (ties broken by a fixed
    total order on canonical forms)". *)
Fixpoint sorted_rep (r : rep) : rep :=
  match r with
  | Node cs => Node (merge_sort rep_le (fmap sorted_rep cs))
  end.

Definition _sorted_list_repr (lr : option rep) : option rep :=
  match lr with
  | None => None
  | Some r => Some (sorted_rep r)
  end.

(** The isomorphism classes of a tuple of children, each as the pair of the
    symmetry factor of its first member and its multiplicity. The children
    come as pairs (canonical form, symmetry factor). *)
Definition iso_classes (l : list (rep * Z)) : list (Z * nat) :=
  fmap (fun k =>
         let members := filter (fun p => p.1 = k) l in
         (default 1 (head (fmap snd members)), length members))
      (remove_dups (fmap fst l)).

Definition Zprod (l : list Z) : Z := foldr Z.mul 1 l.

(** [math.factorial] *)
Fixpoint Zfact (n : nat) : Z :=
  match n with
  | O => 1
  | S k => Z.of_nat n * Zfact k
  end.

(** Modelled from the spec: [utils._sigma] is not among the sources.
    "symmetry(t): for t with children grouped into isomorphism classes with
    multiplicities m1..mk, sigma(t) = the product of mi! * sigma(child_i)^mi;
    sigma of the unit tree is 1". *)
Fixpoint rep_sigma (r : rep) : Z :=
  match r with
  | Node cs =>
      Zprod (fmap (fun c => Zfact c.2 * c.1 ^ Z.of_nat c.2)
                 (iso_classes (fmap (fun c => (sorted_rep c, rep_sigma c)) cs)))
  end.

Definition _sigma (lr : option rep) : Z :=
  match lr with
  | None => 1
  | Some r => rep_sigma r
  end.

(** ** Trees: the combinatorial methods *)

Definition Tree_nodes (t : Tree) : nat := _nodes (list_repr t).
Definition Tree_factorial (t : Tree) : Z := _factorial (list_repr t).
Definition Tree_sigma (t : Tree) : Z := _sigma (list_repr t).
Definition Tree_sorted_list_repr (t : Tree) : option rep :=
  _sorted_list_repr (list_repr t).

(** Python floats are binary64 numbers. *)
Definition float : Type := spec_float.
Definition float_prec : Z := 53.
Definition float_emax : Z := 1024.

Definition float_of_sign_mantissa (z : Z) : float :=
  match z with
  | Z0 => S754_zero false
  | Zpos m => S754_finite false m 0
  | Zneg m => S754_finite true m 0
  end.

Definition float_result (f : float) : res float :=
  match f with
  | S754_infinity _ | S754_nan => Raise OverflowError
  | _ => Ok f
  end.

(** [a / b] on two [int]s: the float nearest to the quotient, ties to even;
    [ZeroDivisionError] on a zero divisor and [OverflowError] when the
    quotient is out of the range of the floats. *)
Definition int_truediv (a b : Z) : res float :=
  if b =? 0 then Raise ZeroDivisionError
  else float_result (SFdiv float_prec float_emax (float_of_sign_mantissa a)
                           (float_of_sign_mantissa b)).

(** [x / b] on a float and an [int]: [b] is converted to the nearest float,
    which raises [OverflowError] when [b] is out of range, and the two floats
    are divided. *)
Definition float_truediv_int (x : float) (b : Z) : res float :=
  if b =? 0 then Raise ZeroDivisionError
  else
    do y <~ float_result (binary_normalize float_prec float_emax b 0 false);
    Ok (SFdiv float_prec float_emax x y).

(** [Tree.beta] *)
Definition Tree_beta (t : Tree) : res float :=
  int_truediv (Zfact (Tree_nodes t)) (Tree_sigma t).

(** [Tree.alpha] *)
Definition Tree_alpha (t : Tree) : res float :=
  do b <~ Tree_beta t;
  float_truediv_int b (Tree_factorial t).

(** The integer that a finite float is, when it is one. *)
Definition float_to_Z (f : float) : option Z :=
  match f with
  | S754_zero _ => Some 0
  | S754_finite s m e =>
      if 0 <=? e then Some ((if s then -1 else 1) * Zpos m * 2 ^ e) else None
  | _ => None
  end.

(** [Tree._equals] *)
Definition Tree_equals (t other_tree : Tree) : bool :=
  bool_decide (Tree_sorted_list_repr t = Tree_sorted_list_repr other_tree).

Definition Tree_as_forest (t : Tree) : Forest := mkForest [t].
Definition Tree_as_forest_sum (t : Tree) : ForestSum :=
  mkForestSum [mkForest [t]] [1].

(** ** Forests and forest sums: reduction and equality *)

(** [Forest.reduce] *)
Definition Forest_reduce (f : Forest) : Forest :=
  if decide (length (tree_list f) <= 1)%nat then f
  else
    let filtered := filter (fun t => list_repr t <> None) (tree_list f) in
    match filtered with
    | [] => mkForest [mkTree None]
    | _ :: _ =>
        if decide (length filtered = length (tree_list f)) then f
        else mkForest filtered
    end.

(** The number of the elements of [l] that are equal to [x] as dictionary
    keys, which is what a [Counter] holds for the key [x]. *)
Fixpoint count_by {A} (eqb : A -> A -> bool) (x : A) (l : list A) : nat :=
  match l with
  | [] => 0
  | y :: l' => ((if eqb y x then 1 else 0) + count_by eqb x l')%nat
  end.

(** [Counter(l1) == Counter(l2)]: every key has the same count in both. *)
Definition Counter_eqb {A} (eqb : A -> A -> bool) (l1 l2 : list A) : bool :=
  forallb (fun x => (count_by eqb x l1 =? count_by eqb x l2)%nat) (l1 ++ l2).

(** [Forest._equals]; the keys of the counters are trees, compared by
    [Tree.__eq__], which is [Tree._equals] on two trees. *)
Definition Forest_equals (f other_forest : Forest) : bool :=
  Counter_eqb Tree_equals (tree_list (Forest_reduce f))
              (tree_list (Forest_reduce other_forest)).

(** The inner [for ... else] of [ForestSum.reduce]: add [c] to the first
    collected term whose forest equals [f_reduced], or append a new term. The
    two parallel lists of the loop are kept as one list of pairs. *)
Fixpoint collect_term (f_reduced : Forest) (c : Z) (acc : list (Forest * Z))
  : list (Forest * Z) :=
  match acc with
  | [] => [(f_reduced, c)]
  | (f2, c2) :: rest =>
      if Forest_equals f_reduced f2 then (f2, c2 + c) :: rest
      else (f2, c2) :: collect_term f_reduced c rest
  end.

Definition collect_terms (l : list (Forest * Z)) : list (Forest * Z) :=
  fold_left (fun acc fc => collect_term (Forest_reduce fc.1) fc.2 acc) l [].

(** [ForestSum.reduce] *)
Definition ForestSum_reduce (s : ForestSum) : ForestSum :=
  let result := filter (fun fc => fc.2 <> 0) (collect_terms (terms s)) in
  match result with
  | [] => ZERO_FOREST_SUM
  | _ :: _ => of_terms result
  end.

(** [ForestSum._equals]; the keys of the counters are pairs of a forest and
    a coefficient, compared componentwise, forests by [Forest.__eq__]. *)
Definition term_eqb (a b : Forest * Z) : bool :=
  Forest_equals a.1 b.1 && (a.2 =? b.2).

Definition ForestSum_equals (s other : ForestSum) : bool :=
  Counter_eqb term_eqb (terms (ForestSum_reduce s)) (terms (ForestSum_reduce other)).

(** ** Arithmetic *)

(** [out.reduce()] where [out] is a forest or a forest sum. [int] and [Tree]
    have no [reduce] method: the callers test the class of [out] before they
    call it, and the definition is only used under these tests. *)
Definition reduce_value (v : value) : value :=
  match v with
  | VForest f => VForest (Forest_reduce f)
  | VSum s => VSum (ForestSum_reduce s)
  | _ => v
  end.

Definition reduce_if (apply_reduction : bool) (v : value) : value :=
  if apply_reduction then reduce_value v else v.

(** [Forest.__mul__] on a tree and on a forest, which give forests. *)
Definition Forest_mul_Tree (f : Forest) (other : Tree) (apply_reduction : bool) : Forest :=
  let out := mkForest (tree_list f ++ [other]) in
  if apply_reduction then Forest_reduce out else out.

Definition Forest_mul_Forest (f other : Forest) (apply_reduction : bool) : Forest :=
  let out := mkForest (tree_list f ++ tree_list other) in
  if apply_reduction then Forest_reduce out else out.

(** [Tree.__mul__] on a forest, which gives a forest. *)
Definition Tree_mul_Forest (t : Tree) (other : Forest) (apply_reduction : bool) : Forest :=
  let out := mkForest (t :: tree_list other) in
  if apply_reduction then Forest_reduce out else out.

(** [Tree.__mul__] *)
Definition Tree_mul (t : Tree) (other : value) (apply_reduction : bool) : value :=
  match other with
  | VInt z => reduce_if apply_reduction (VSum (mkForestSum [mkForest [t]] [z]))
  | VTree o => reduce_if apply_reduction (VForest (mkForest [t; o]))
  | VForest o => VForest (Tree_mul_Forest t o apply_reduction)
  | VSum o =>
      reduce_if apply_reduction
        (VSum (mkForestSum (fmap (fun x => Tree_mul_Forest t x true) (forest_list o))
                           (coeff_list o)))
  end.

(** [Forest.__mul__] *)
Definition Forest_mul (f : Forest) (other : value) (apply_reduction : bool) : value :=
  match other with
  | VInt z => reduce_if apply_reduction (VSum (mkForestSum [f] [z]))
  | VTree o => VForest (Forest_mul_Tree f o apply_reduction)
  | VForest o => VForest (Forest_mul_Forest f o apply_reduction)
  | VSum o =>
      reduce_if apply_reduction
        (VSum (mkForestSum (fmap (fun x => Forest_mul_Forest f x false) (forest_list o))
                           (coeff_list o)))
  end.

(** [tuple(g(x, y) for x in xs for y in ys)] *)
Definition for_for {A B C} (g : A -> B -> C) (xs : list A) (ys : list B) : list C :=
  mjoin (fmap (fun x => fmap (g x) ys) xs).

(** [ForestSum.__mul__] *)
Definition ForestSum_mul (s : ForestSum) (other : value) (apply_reduction : bool)
  : ForestSum :=
  let out :=
    match other with
    | VInt z => mkForestSum (forest_list s) (fmap (fun x => x * z) (coeff_list s))
    | VTree o =>
        mkForestSum (fmap (fun x => Forest_mul_Tree x o true) (forest_list s)) (coeff_list s)
    | VForest o =>
        mkForestSum (fmap (fun x => Forest_mul_Forest x o true) (forest_list s)) (coeff_list s)
    | VSum o =>
        mkForestSum
          (for_for (fun x y => Forest_mul_Forest x y true) (forest_list s) (forest_list o))
          (for_for Z.mul (coeff_list s) (coeff_list o))
    end in
  if apply_reduction then ForestSum_reduce out else out.

(** [__neg__] of the three classes: [self.__mul__(-1, False)]. *)
Definition Tree_neg (t : Tree) : value := Tree_mul t (VInt (-1)) false.
Definition Forest_neg (f : Forest) : value := Forest_mul f (VInt (-1)) false.
Definition ForestSum_neg (s : ForestSum) : ForestSum := ForestSum_mul s (VInt (-1)) false.

(** [-other] on any operand. *)
Definition neg_value (v : value) : value :=
  match v with
  | VInt z => VInt (- z)
  | VTree t => Tree_neg t
  | VForest f => Forest_neg f
  | VSum s => VSum (ForestSum_neg s)
  end.

(** [Tree.__add__] *)
Definition Tree_add (t : Tree) (other : value) (apply_reduction : bool) : ForestSum :=
  let out :=
    match other with
    | VInt z => mkForestSum [mkForest [t]; EMPTY_FOREST] [1; z]
    | VTree o => mkForestSum [mkForest [t]; mkForest [o]] [1; 1]
    | VForest o => mkForestSum [mkForest [t]; o] [1; 1]
    | VSum o => mkForestSum (mkForest [t] :: forest_list o) (1 :: coeff_list o)
    end in
  if apply_reduction then ForestSum_reduce out else out.

(** [Forest.__add__]: the value of [out.reduce()] is dropped, [out] is
    returned as it was built. *)
Definition Forest_add (f : Forest) (other : value) (apply_reduction : bool) : ForestSum :=
  let out :=
    match other with
    | VInt z => mkForestSum [f; EMPTY_FOREST] [1; z]
    | VTree o => mkForestSum [f; mkForest [o]] [1; 1]
    | VForest o => mkForestSum [f; o] [1; 1]
    | VSum o => mkForestSum (f :: forest_list o) (1 :: coeff_list o)
    end in
  let _ := if apply_reduction then ForestSum_reduce out else out in
  out.

(** [ForestSum.__add__] *)
Definition ForestSum_add (s : ForestSum) (other : value) (applyReduction : bool)
  : ForestSum :=
  let out :=
    match other with
    | VInt z => mkForestSum (forest_list s ++ [EMPTY_FOREST]) (coeff_list s ++ [z])
    | VTree o => mkForestSum (forest_list s ++ [mkForest [o]]) (coeff_list s ++ [1])
    | VForest o => mkForestSum (forest_list s ++ [o]) (coeff_list s ++ [1])
    | VSum o => mkForestSum (forest_list s ++ forest_list o) (coeff_list s ++ coeff_list o)
    end in
  if applyReduction then ForestSum_reduce out else out.

(** [__sub__]: the one of [ForestSum] ignores its [applyReduction]. *)
Definition Tree_sub (t : Tree) (other : value) (apply_reduction : bool) : ForestSum :=
  Tree_add t (neg_value other) apply_reduction.
Definition Forest_sub (f : Forest) (other : value) (apply_reduction : bool) : ForestSum :=
  Forest_add f (neg_value other) apply_reduction.
Definition ForestSum_sub (s : ForestSum) (other : value) (applyReduction : bool)
  : ForestSum :=
  ForestSum_add s (neg_value other) true.

(** [_mul] and [_add]: dispatch on which operand is tree-like. *)
Definition _mul (obj1 obj2 : value) (applyReduction : bool) : value :=
  match obj1, obj2 with
  | VInt a, VInt b => VInt (a * b)
  | VInt _, VTree t => Tree_mul t obj1 applyReduction
  | VInt _, VForest f => Forest_mul f obj1 applyReduction
  | VInt _, VSum s => VSum (ForestSum_mul s obj1 applyReduction)
  | VTree t, _ => Tree_mul t obj2 applyReduction
  | VForest f, _ => Forest_mul f obj2 applyReduction
  | VSum s, _ => VSum (ForestSum_mul s obj2 applyReduction)
  end.

Definition _add (obj1 obj2 : value) (applyReduction : bool) : value :=
  match obj1, obj2 with
  | VInt a, VInt b => VInt (a + b)
  | VInt _, VTree t => VSum (Tree_add t obj1 applyReduction)
  | VInt _, VForest f => VSum (Forest_add f obj1 applyReduction)
  | VInt _, VSum s => VSum (ForestSum_add s obj1 applyReduction)
  | VTree t, _ => VSum (Tree_add t obj2 applyReduction)
  | VForest f, _ => VSum (Forest_add f obj2 applyReduction)
  | VSum s, _ => VSum (ForestSum_add s obj2 applyReduction)
  end.

(** ** The coproduct *)

(** [itertools.product( *ls )]: one choice per list, the last list varying
    fastest. *)
Fixpoint product {A} (ls : list (list A)) : list (list A) :=
  match ls with
  | [] => [[]]
  | l :: ls' => for_for cons l (product ls')
  end.

(** [Tree.split] on a tree that is not void. *)
Fixpoint split_rep (r : rep) : list Tree * list Forest :=
  match r with
  | Node [] => ([SINGLETON_TREE; EMPTY_TREE], [EMPTY_FOREST; SINGLETON_FOREST])
  | Node cs =>
      let sb := fmap split_rep cs in
      let tree_lists := fmap fst sb in
      let forest_lists := fmap snd sb in
      (EMPTY_TREE
         :: fmap (fun p => mkTree (Some (Node (omap list_repr p)))) (product tree_lists),
       mkForest [mkTree (Some r)]
         :: fmap (fun p => mkForest (mjoin (fmap tree_list p))) (product forest_lists))
  end.

(** [Tree.split] *)
Definition Tree_split (t : Tree) : list Tree * list Forest :=
  match list_repr t with
  | None => ([EMPTY_TREE], [EMPTY_FOREST])
  | Some r => split_rep r
  end.

(** ** The antipode *)

Fixpoint res_fold {A B} (step : B -> A -> res B) (l : list A) (acc : B) : res B :=
  match l with
  | [] => Ok acc
  | x :: l' => do acc' <~ step acc x; res_fold step l' acc'
  end.

(** [Forest.antipode], over the antipode of trees. *)
Definition Forest_antipode_with (antipode : Tree -> bool -> res ForestSum)
    (f : Forest) (apply_reduction : bool) : res ForestSum :=
  match tree_list f with
  | [] => Raise ValueError
  | t0 :: rest =>
      if bool_decide (length (tree_list f) = 1%nat) && Tree_equals t0 SINGLETON_TREE
      then Ok (ForestSum_neg SINGLETON_FOREST_SUM)
      else
        do out0 <~ antipode t0 false;
        do out <~ res_fold (fun out t =>
                              do a <~ antipode t false;
                              Ok (ForestSum_mul out (VSum a) false))
                           rest out0;
        Ok (if apply_reduction then ForestSum_reduce out else out)
  end.

(** The body of the loop of [Tree.antipode], over the antipode of trees. *)
Definition antipode_step (antipode : Tree -> bool -> res ForestSum) (t : Tree)
    (out : ForestSum) (sb : Tree * Forest) : res ForestSum :=
  if Tree_equals sb.1 t || Tree_equals sb.1 EMPTY_TREE then Ok out
  else
    do a <~ Forest_antipode_with antipode sb.2 false;
    Ok (ForestSum_sub out (VSum (ForestSum_mul a (VTree sb.1) false)) false).

(** The body of [Tree.antipode], over the antipode of the recursive calls. *)
Definition Tree_antipode_with (antipode : Tree -> bool -> res ForestSum)
    (t : Tree) (apply_reduction : bool) : res ForestSum :=
  match list_repr t with
  | None => Ok EMPTY_FOREST_SUM
  | Some (Node []) => Ok (ForestSum_mul SINGLETON_FOREST_SUM (VInt (-1)) false)
  | Some _ =>
      let '(subtrees, branches) := Tree_split t in
      do out <~ res_fold (antipode_step antipode t) (zip subtrees branches)
                         (ForestSum_neg (Tree_as_forest_sum t));
      Ok (if apply_reduction then ForestSum_reduce out else out)
  end.

(** [Tree.antipode] run without the dictionary of its [lru_cache]
    decorator ([Tree_antipode_cached] below is the method on the
    dictionary); the recursion through [Forest.antipode] is on trees with
    fewer nodes, and [fuel] bounds its depth. *)
Fixpoint Tree_antipode_fuel (fuel : nat) (t : Tree) (apply_reduction : bool)
  : res ForestSum :=
  match fuel with
  | O => NoFuel
  | S fuel' => Tree_antipode_with (Tree_antipode_fuel fuel') t apply_reduction
  end.

Definition Tree_antipode (t : Tree) (apply_reduction : bool) : res ForestSum :=
  Tree_antipode_fuel (S (Tree_nodes t)) t apply_reduction.

Definition Forest_antipode (f : Forest) (apply_reduction : bool) : res ForestSum :=
  Forest_antipode_with Tree_antipode f apply_reduction.

(** ** Applying tree functions *)

(** A tree function: a callable on trees, which may raise. *)
Definition tree_fun : Type := Tree -> res value.

(** [_counit] *)
Definition _counit (t : Tree) : res value :=
  match list_repr t with
  | None => Ok (VSum EMPTY_FOREST_SUM)
  | Some _ => Ok (VSum ZERO_FOREST_SUM)
  end.

(** [Tree.apply] *)
Definition Tree_apply (t : Tree) (func : tree_fun) (apply_reduction : bool) : res value :=
  func t.

Definition is_scalar_or_tree (v : value) : bool :=
  match v with
  | VInt _ | VTree _ => true
  | _ => false
  end.

Definition is_scalar (v : value) : bool :=
  match v with
  | VInt _ => true
  | _ => false
  end.

(** [Forest.apply] *)
Definition Forest_apply (f : Forest) (func : tree_fun) (apply_reduction : bool)
  : res value :=
  do out <~ res_fold (fun out t =>
                        do v <~ Tree_apply t func true;
                        Ok (_mul out v false))
                     (tree_list f) (VInt 1);
  Ok (if apply_reduction && negb (is_scalar_or_tree out) then reduce_value out else out).

(** [ForestSum.apply] *)
Definition ForestSum_apply (s : ForestSum) (func : tree_fun) (apply_reduction : bool)
  : res value :=
  do out <~ res_fold (fun out fc =>
                        do term <~ res_fold (fun term t =>
                                               do v <~ func t;
                                               Ok (_mul term v false))
                                            (tree_list fc.1) (VInt 1);
                        Ok (_add out (_mul term (VInt fc.2) false) false))
                     (terms s) (VInt 0);
  Ok (if apply_reduction && negb (is_scalar_or_tree out) then reduce_value out else out).

(** [Tree.apply_product] run without the dictionary of its [lru_cache]
    decorator ([Tree_apply_product_cached] below is the method on the
    dictionary), on functions that do not run on the dictionaries. *)
Definition Tree_apply_product (t : Tree) (func1 func2 : tree_fun)
    (apply_reduction : bool) : res value :=
  let '(subtrees, branches) := Tree_split t in
  match zip subtrees branches with
  | [] => Ok (VInt 0)
  | (s0, b0) :: rest =>
      do x0 <~ Forest_apply b0 func1 true;
      do y0 <~ Tree_apply s0 func2 true;
      do out <~ res_fold (fun out sb =>
                            do x <~ Forest_apply sb.2 func1 true;
                            do y <~ Tree_apply sb.1 func2 true;
                            Ok (_add out (_mul x y false) false))
                         rest (_mul x0 y0 false);
      Ok (if apply_reduction && negb (is_scalar out) then reduce_value out else out)
  end.

(** [Forest.apply_product]: the product is computed and dropped, the method
    has no [return] and so returns [None]. *)
Definition Forest_apply_product (f : Forest) (func1 func2 : tree_fun)
    (apply_reduction : bool) : res (option value) :=
  do _v <~ Forest_apply f (fun x => Tree_apply_product x func1 func2 apply_reduction) true;
  Ok None.

(** [ForestSum.apply_product] *)
Definition ForestSum_apply_product (s : ForestSum) (func1 func2 : tree_fun)
    (apply_reduction : bool) : res value :=
  ForestSum_apply s (fun x => Tree_apply_product x func1 func2 apply_reduction) true.

(** [Tree.apply_power] run without the dictionary of its [lru_cache]
    decorator ([Tree_apply_power_cached] below is the method on the
    dictionary); [fuel] bounds the depth of the recursion on the exponent.
    The [ForestSum.apply_power] of the negative case is inlined. *)
Fixpoint Tree_apply_power_fuel (fuel : nat) (t : Tree) (func : tree_fun) (n : Z)
    (apply_reduction : bool) : res value :=
  match fuel with
  | O => NoFuel
  | S fuel' =>
      if n =? 0 then Tree_apply t _counit true
      else if n =? 1 then Tree_apply t func apply_reduction
      else
        do r <~ (if n <? 0 then
                   do a <~ Tree_antipode t true;
                   ForestSum_apply a
                     (fun x => Tree_apply_power_fuel fuel' x func (- n) false) true
                 else
                   Tree_apply_product t func
                     (fun x => Tree_apply_power_fuel fuel' x func (n - 1) false) false);
        Ok (if apply_reduction && negb (is_scalar_or_tree r) then reduce_value r else r)
  end.

Definition Tree_apply_power (t : Tree) (func : tree_fun) (n : Z)
    (apply_reduction : bool) : res value :=
  Tree_apply_power_fuel (S (Z.abs_nat n)) t func n apply_reduction.

(** [Forest.apply_power] and [ForestSum.apply_power] *)
Definition Forest_apply_power (f : Forest) (func : tree_fun) (n : Z)
    (apply_reduction : bool) : res value :=
  Forest_apply f (fun x => Tree_apply_power x func n apply_reduction) true.

Definition ForestSum_apply_power (s : ForestSum) (func : tree_fun) (n : Z)
    (apply_reduction : bool) : res value :=
  ForestSum_apply s (fun x => Tree_apply_power x func n apply_reduction) true.

(** * The memoised methods *)

(** [Tree.antipode], [Tree.apply_power] and [Tree.apply_product] are
    decorated with [functools.lru_cache(maxsize=None)]: each of the three has
    a dictionary from the arguments of the calls made so far to their
    results, and a call whose arguments are a key of the dictionary returns
    the stored result without running the method. The keys are compared by
    [__hash__] and [__eq__], so that a tree is the same key as every tree
    that it is [_equals] to. [Tree_antipode], [Tree_apply_product] and
    [Tree_apply_power] above are the methods run without dictionaries; the
    definitions of this part run them on the three dictionaries. *)

(** How a call passes [apply_reduction]: the key is made of the arguments as
    they are passed, and [t.antipode()], [t.antipode(True)] and
    [t.antipode(apply_reduction=True)] have three different keys. *)
Inductive flag_arg : Type :=
| Omitted
| Positional (b : bool)
| Keyword (b : bool).

(** The value of [apply_reduction] in the method. *)
Definition flag_of (a : flag_arg) : bool :=
  match a with
  | Omitted => true
  | Positional b | Keyword b => b
  end.

#[global] Instance flag_arg_eq_dec : EqDecision flag_arg.
Proof. solve_decision. Defined.

(** A function object that is passed to [apply_power] or [apply_product]: a
    function of the caller, known by its identity, or the object that one
    evaluation of [lambda x : x.apply_power(func, n-1, False)] in
    [Tree.apply_power] makes: [PowerLambda i func m] is the object of the
    evaluation number [i], and it calls [x.apply_power(func, m, False)]. Two
    evaluations make two objects. *)
Inductive fobj : Type :=
| Fn (id : nat)
| PowerLambda (serial : nat) (func : fobj) (m : Z).

#[global] Instance fobj_eq_dec : EqDecision fobj.
Proof. solve_decision. Defined.

(** Functions have the [__eq__] and [__hash__] of [object]: a function
    object is equal to itself only. *)
Definition fobj_is (f g : fobj) : bool := bool_decide (f = g).

(** The three dictionaries, as lists of pairs (key, result) with the newest
    first, and the number of lambda objects made so far. The arguments
    [func], [func1], [func2] and [n] are passed by position. *)
Record caches : Type := mkCaches {
  antipode_cache : list ((Tree * flag_arg) * ForestSum);
  apply_power_cache : list ((Tree * fobj * Z * flag_arg) * value);
  apply_product_cache : list ((Tree * fobj * fobj * flag_arg) * value);
  lambdas : nat
}.

(** The state of a program that has called none of the three methods. *)
Definition no_caches : caches := mkCaches [] [] [] 0.

Definition set_antipode_cache (d : list ((Tree * flag_arg) * ForestSum)) (c : caches)
  : caches :=
  mkCaches d (apply_power_cache c) (apply_product_cache c) (lambdas c).

Definition set_apply_power_cache (d : list ((Tree * fobj * Z * flag_arg) * value))
    (c : caches) : caches :=
  mkCaches (antipode_cache c) d (apply_product_cache c) (lambdas c).

Definition set_apply_product_cache (d : list ((Tree * fobj * fobj * flag_arg) * value))
    (c : caches) : caches :=
  mkCaches (antipode_cache c) (apply_power_cache c) d (lambdas c).

(** The equality of the keys of the three dictionaries. *)
Definition antipode_key_eq (k k' : Tree * flag_arg) : bool :=
  Tree_equals k.1 k'.1 && bool_decide (k.2 = k'.2).

Definition apply_power_key_eq (k k' : Tree * fobj * Z * flag_arg) : bool :=
  let '(t, func, n, a) := k in
  let '(t', func', n', a') := k' in
  Tree_equals t t' && fobj_is func func' && (n =? n') && bool_decide (a = a').

Definition apply_product_key_eq (k k' : Tree * fobj * fobj * flag_arg) : bool :=
  let '(t, func1, func2, a) := k in
  let '(t', func1', func2', a') := k' in
  Tree_equals t t' && fobj_is func1 func1' && fobj_is func2 func2'
  && bool_decide (a = a').

(** Code that runs on the dictionaries: it returns a result, or raises, and
    leaves the dictionaries as the calls that it made have filled them. *)
Definition st (A : Type) : Type := caches -> res A * caches.

Definition st_ret {A} (a : A) : st A := fun c => (Ok a, c).

Definition st_lift {A} (r : res A) : st A := fun c => (r, c).

Definition st_bind {A B} (m : st A) (k : A -> st B) : st B :=
  fun c =>
    match m c with
    | (Ok a, c') => k a c'
    | (Raise e, c') => (Raise e, c')
    | (NoFuel, c') => (NoFuel, c')
    end.

Notation "'run' x <~ m ; k" := (st_bind m (fun x => k))
  (at level 10, x name, m at level 100, k at level 200).

Fixpoint st_fold {A B} (step : B -> A -> st B) (l : list A) (acc : B) : st B :=
  match l with
  | [] => st_ret acc
  | x :: l' => run acc' <~ step acc x; st_fold step l' acc'
  end.

(** [cache_get(key, sentinel)] *)
Definition cache_get {K V} (key_eq : K -> K -> bool) (key : K) (d : list (K * V))
  : option V :=
  snd <$> find (fun e => key_eq e.1 key) d.

(** The wrapper of [lru_cache(maxsize=None)] around [user_function]: the
    stored result when the key is in the dictionary; otherwise the function
    is called and, when it returns, its result is stored under the key. *)
Definition lru_cache {K V} (key_eq : K -> K -> bool)
    (get : caches -> list (K * V)) (set : list (K * V) -> caches -> caches)
    (key : K) (user_function : st V) : st V :=
  fun c =>
    match cache_get key_eq key (get c) with
    | Some result => (Ok result, c)
    | None =>
        match user_function c with
        | (Ok result, c') => (Ok result, set ((key, result) :: get c') c')
        | r => r
        end
    end.

(** ** The memoised antipode *)

(** [Forest.antipode], over the memoised antipode of trees. *)
Definition Forest_antipode_st (antipode : Tree -> flag_arg -> st ForestSum)
    (f : Forest) (apply_reduction : bool) : st ForestSum :=
  match tree_list f with
  | [] => st_lift (Raise ValueError)
  | t0 :: rest =>
      if bool_decide (length (tree_list f) = 1%nat) && Tree_equals t0 SINGLETON_TREE
      then st_ret (ForestSum_neg SINGLETON_FOREST_SUM)
      else
        run out0 <~ antipode t0 (Positional false);
        run out <~ st_fold (fun out t =>
                              run a <~ antipode t (Positional false);
                              st_ret (ForestSum_mul out (VSum a) false))
                           rest out0;
        st_ret (if apply_reduction then ForestSum_reduce out else out)
  end.

(** The body of the loop of [Tree.antipode]. *)
Definition antipode_step_st (antipode : Tree -> flag_arg -> st ForestSum) (t : Tree)
    (out : ForestSum) (sb : Tree * Forest) : st ForestSum :=
  if Tree_equals sb.1 t || Tree_equals sb.1 EMPTY_TREE then st_ret out
  else
    run a <~ Forest_antipode_st antipode sb.2 false;
    st_ret (ForestSum_sub out (VSum (ForestSum_mul a (VTree sb.1) false)) false).

(** The function that the decorator of [Tree.antipode] wraps. *)
Definition Tree_antipode_body (antipode : Tree -> flag_arg -> st ForestSum)
    (t : Tree) (apply_reduction : bool) : st ForestSum :=
  match list_repr t with
  | None => st_ret EMPTY_FOREST_SUM
  | Some (Node []) => st_ret (ForestSum_mul SINGLETON_FOREST_SUM (VInt (-1)) false)
  | Some _ =>
      let '(subtrees, branches) := Tree_split t in
      run out <~ st_fold (antipode_step_st antipode t) (zip subtrees branches)
                         (ForestSum_neg (Tree_as_forest_sum t));
      st_ret (if apply_reduction then ForestSum_reduce out else out)
  end.

(** [Tree.antipode] as it is called: through the dictionary. The recursive
    calls are on trees with fewer nodes, and [fuel] bounds their depth. *)
Fixpoint Tree_antipode_cached_fuel (fuel : nat) (t : Tree) (a : flag_arg)
  : st ForestSum :=
  match fuel with
  | O => st_lift NoFuel
  | S fuel' =>
      lru_cache antipode_key_eq antipode_cache set_antipode_cache (t, a)
        (Tree_antipode_body (Tree_antipode_cached_fuel fuel') t (flag_of a))
  end.

Definition Tree_antipode_cached (t : Tree) (a : flag_arg) : st ForestSum :=
  Tree_antipode_cached_fuel (S (Tree_nodes t)) t a.

Definition Forest_antipode_cached (f : Forest) (apply_reduction : bool) : st ForestSum :=
  Forest_antipode_st Tree_antipode_cached f apply_reduction.

(** ** The memoised [apply_product] and [apply_power] *)

Section memoised_apply.

(** The functions of the caller, by identity: what a call of the function
    on a tree does. Such a function may call the memoised methods. *)
Variable code : nat -> Tree -> st value.

(** [Tree.apply] *)
Definition Tree_apply_st (t : Tree) (func : Tree -> st value) (apply_reduction : bool)
  : st value :=
  func t.

(** [Forest.apply] *)
Definition Forest_apply_st (f : Forest) (func : Tree -> st value)
    (apply_reduction : bool) : st value :=
  run out <~ st_fold (fun out t =>
                        run v <~ Tree_apply_st t func true;
                        st_ret (_mul out v false))
                     (tree_list f) (VInt 1);
  st_ret (if apply_reduction && negb (is_scalar_or_tree out) then reduce_value out
          else out).

(** [ForestSum.apply] *)
Definition ForestSum_apply_st (s : ForestSum) (func : Tree -> st value)
    (apply_reduction : bool) : st value :=
  run out <~ st_fold (fun out fc =>
                        run term <~ st_fold (fun term t =>
                                               run v <~ func t;
                                               st_ret (_mul term v false))
                                            (tree_list fc.1) (VInt 1);
                        st_ret (_add out (_mul term (VInt fc.2) false) false))
                     (terms s) (VInt 0);
  st_ret (if apply_reduction && negb (is_scalar_or_tree out) then reduce_value out
          else out).

(** A call of a function object, over the memoised [Tree.apply_power]. *)
Definition call_fobj (apply_power : Tree -> fobj -> Z -> flag_arg -> st value)
    (f : fobj) (x : Tree) : st value :=
  match f with
  | Fn i => code i x
  | PowerLambda _ func m => apply_power x func m (Positional false)
  end.

(** The function that the decorator of [Tree.apply_product] wraps. *)
Definition Tree_apply_product_body (call : fobj -> Tree -> st value)
    (t : Tree) (func1 func2 : fobj) (apply_reduction : bool) : st value :=
  let '(subtrees, branches) := Tree_split t in
  match zip subtrees branches with
  | [] => st_ret (VInt 0)
  | (s0, b0) :: rest =>
      run x0 <~ Forest_apply_st b0 (call func1) true;
      run y0 <~ Tree_apply_st s0 (call func2) true;
      run out <~ st_fold (fun out sb =>
                            run x <~ Forest_apply_st sb.2 (call func1) true;
                            run y <~ Tree_apply_st sb.1 (call func2) true;
                            st_ret (_add out (_mul x y false) false))
                         rest (_mul x0 y0 false);
      st_ret (if apply_reduction && negb (is_scalar out) then reduce_value out else out)
  end.

(** [Tree.apply_product] as it is called: through the dictionary. *)
Definition Tree_apply_product_with (call : fobj -> Tree -> st value)
    (t : Tree) (func1 func2 : fobj) (a : flag_arg) : st value :=
  lru_cache apply_product_key_eq apply_product_cache set_apply_product_cache
    (t, func1, func2, a)
    (Tree_apply_product_body call t func1 func2 (flag_of a)).

(** The evaluation of the lambda expression of [Tree.apply_power]: a new
    function object. *)
Definition new_lambda (func : fobj) (m : Z) : st fobj :=
  fun c =>
    (Ok (PowerLambda (lambdas c) func m),
     mkCaches (antipode_cache c) (apply_power_cache c) (apply_product_cache c)
              (S (lambdas c))).

(** [ForestSum.apply_power], over the memoised [Tree.apply_power]. *)
Definition ForestSum_apply_power_st
    (apply_power : Tree -> fobj -> Z -> flag_arg -> st value)
    (s : ForestSum) (func : fobj) (n : Z) (apply_reduction : bool) : st value :=
  ForestSum_apply_st s (fun x => apply_power x func n (Positional apply_reduction)) true.

(** The function that the decorator of [Tree.apply_power] wraps. *)
Definition Tree_apply_power_body
    (apply_power : Tree -> fobj -> Z -> flag_arg -> st value)
    (t : Tree) (func : fobj) (n : Z) (apply_reduction : bool) : st value :=
  if n =? 0 then Tree_apply_st t (fun x => st_lift (_counit x)) true
  else if n =? 1 then Tree_apply_st t (call_fobj apply_power func) apply_reduction
  else
    run r <~ (if n <? 0 then
                run s <~ Tree_antipode_cached t Omitted;
                ForestSum_apply_power_st apply_power s func (- n) false
              else
                run lam <~ new_lambda func (n - 1);
                Tree_apply_product_with (call_fobj apply_power) t func lam
                                        (Positional false));
    st_ret (if apply_reduction && negb (is_scalar_or_tree r) then reduce_value r else r).

(** [Tree.apply_power] as it is called: through the dictionary; [fuel]
    bounds the depth of the recursion on the exponent. *)
Fixpoint Tree_apply_power_cached_fuel (fuel : nat) (t : Tree) (func : fobj) (n : Z)
    (a : flag_arg) : st value :=
  match fuel with
  | O => st_lift NoFuel
  | S fuel' =>
      lru_cache apply_power_key_eq apply_power_cache set_apply_power_cache
        (t, func, n, a)
        (Tree_apply_power_body (Tree_apply_power_cached_fuel fuel') t func n (flag_of a))
  end.

Definition Tree_apply_power_cached (t : Tree) (func : fobj) (n : Z) (a : flag_arg)
  : st value :=
  Tree_apply_power_cached_fuel (S (Z.abs_nat n)) t func n a.

(** A call of a function object. *)
Definition call_function : fobj -> Tree -> st value :=
  call_fobj Tree_apply_power_cached.

Definition Tree_apply_product_cached (t : Tree) (func1 func2 : fobj) (a : flag_arg)
  : st value :=
  Tree_apply_product_with call_function t func1 func2 a.

End memoised_apply.

(** * Properties *)

(** ** The number of cuts *)

Definition nat_prod (l : list nat) : nat := foldr Nat.mul 1%nat l.

(** The number of pairs that [split] returns. *)
Definition pair_count (t : Tree) : nat := length (Tree_split t).1.

Lemma for_for_length {A B C} (g : A -> B -> C) xs ys :
  length (for_for g xs ys) = (length xs * length ys)%nat.
Proof.
  unfold for_for. induction xs as [|x xs IH]; [done|].
  cbn [fmap list_fmap mjoin list_join]. rewrite length_app, length_fmap.
  cbn [length Nat.mul]. f_equal. exact IH.
Qed.

Lemma product_length {A} (ls : list (list A)) :
  length (product ls) = nat_prod (fmap length ls).
Proof.
  induction ls as [|l ls IH]; [done|].
  cbn [product fmap list_fmap nat_prod foldr].
  rewrite for_for_length, IH. done.
Qed.

Lemma split_rep_lengths r :
  length (split_rep r).1 = length (split_rep r).2.
Proof.
  induction r as [cs IH] using rep_ind'.
  destruct cs as [|c cs]; [done|].
  cbn [split_rep fst snd length]. rewrite !length_fmap, !product_length.
  f_equal. f_equal. rewrite <- !list_fmap_compose.
  apply Forall_fmap_ext_1. eapply Forall_impl; [exact IH|done].
Qed.

Lemma split_rep_count cs :
  length (split_rep (Node cs)).1
  = S (nat_prod (fmap (fun c => length (split_rep c).1) cs)).
Proof.
  destruct cs as [|c cs]; [done|].
  cbn [split_rep fst length].
  rewrite length_fmap, product_length, <- !list_fmap_compose. done.
Qed.

(** C3. [split] returns two sequences of the same length; the void tree has
    the one pair (void tree, empty forest), the single-node tree the two pairs
    (single node, empty forest) and (void tree, single node), and a tree with
    the children [cs] has one pair more than the product of the numbers of
    pairs of its children, which makes five pairs for [[[],[]]]. *)
Theorem split_pair_count :
  (forall t, length (Tree_split t).1 = length (Tree_split t).2)
  /\ Tree_split EMPTY_TREE = ([EMPTY_TREE], [EMPTY_FOREST])
  /\ Tree_split SINGLETON_TREE
     = ([SINGLETON_TREE; EMPTY_TREE], [EMPTY_FOREST; SINGLETON_FOREST])
  /\ (forall cs,
        pair_count (mkTree (Some (Node cs)))
        = S (nat_prod (fmap (fun c => pair_count (mkTree (Some c))) cs)))
  /\ pair_count (mkTree (Some (Node [Node []; Node []]))) = 5%nat.
Proof.
  split; [|split; [|split; [|split]]].
  - intros [[r|]]; [apply split_rep_lengths | done].
  - done.
  - done.
  - intros cs. apply split_rep_count.
  - done.
Qed.

(** ** The addition of forests *)

(** C7. [Forest.__add__] with the default [apply_reduction] returns the sum
    as built, not reduced: the sum of the single-node forest with itself
    comes back with two terms of coefficient 1, while its reduction (which
    [Tree.__add__] returns on the same operands) is the one term of
    coefficient 2. *)
Theorem Forest_add_returns_unreduced :
  Forest_add SINGLETON_FOREST (VForest SINGLETON_FOREST) true
  = mkForestSum [SINGLETON_FOREST; SINGLETON_FOREST] [1; 1]
  /\ ForestSum_reduce (Forest_add SINGLETON_FOREST (VForest SINGLETON_FOREST) true)
     = mkForestSum [SINGLETON_FOREST] [2]
  /\ Tree_add SINGLETON_TREE (VForest SINGLETON_FOREST) true
     = mkForestSum [SINGLETON_FOREST] [2]
  /\ Forest_add SINGLETON_FOREST (VForest SINGLETON_FOREST) true
     <> ForestSum_reduce (Forest_add SINGLETON_FOREST (VForest SINGLETON_FOREST) true).
Proof.
  split; [reflexivity|]. split; [vm_compute; reflexivity|].
  split; [vm_compute; reflexivity|]. vm_compute. discriminate.
Qed.

(** ** The convolution product on forests *)

(** C6. [Forest.apply_product] computes the product over the trees of the
    forest and returns [None]: on the single-node forest, with both functions
    constantly 1, the product is 2 (the two cuts of the tree), which
    [Forest.apply] returns and [Forest.apply_product] does not. *)
Theorem Forest_apply_product_returns_None :
  let one : tree_fun := fun _ => Ok (VInt 1) in
  Forest_apply SINGLETON_FOREST (fun x => Tree_apply_product x one one true) true
  = Ok (VInt 2)
  /\ Forest_apply_product SINGLETON_FOREST one one true = Ok None.
Proof. split; vm_compute; reflexivity. Qed.

(** ** The cuts of a tree, as a list of pairs *)

(** The pairs (kept tree, removed forest) that [split] enumerates. *)
Definition rep_cuts (r : rep) : list (Tree * Forest) :=
  zip (split_rep r).1 (split_rep r).2.

Definition cuts (t : Tree) : list (Tree * Forest) :=
  zip (Tree_split t).1 (Tree_split t).2.

(** The cut of a tree made of one cut of each child. *)
Definition join_cut (p : list (Tree * Forest)) : Tree * Forest :=
  (mkTree (Some (Node (omap list_repr (p.*1)))),
   mkForest (mjoin (tree_list <$> p.*2))).

Lemma for_for_fmap {A B A' B' C C'} (g : A -> B -> C) (g' : A' -> B' -> C')
    (fa : A -> A') (fb : B -> B') (fc : C -> C') xs ys :
  (forall x y, g' (fa x) (fb y) = fc (g x y)) ->
  for_for g' (fa <$> xs) (fb <$> ys) = fc <$> for_for g xs ys.
Proof.
  intros Hg. unfold for_for. induction xs as [|x xs IH]; [done|].
  cbn [fmap list_fmap mjoin list_join]. rewrite fmap_app. f_equal; [|exact IH].
  rewrite <- !list_fmap_compose. apply list_fmap_ext. intros ? y _. apply Hg.
Qed.

Lemma product_fmap {A B} (f : A -> B) (ls : list (list A)) :
  product (fmap (M:=list) f <$> ls) = fmap (M:=list) f <$> product ls.
Proof.
  induction ls as [|l ls IH]; [done|].
  cbn [product fmap list_fmap]. rewrite IH.
  apply for_for_fmap. done.
Qed.

Lemma zip_fmap_fmap {A B C} (f : A -> B) (g : A -> C) (l : list A) :
  zip (f <$> l) (g <$> l) = (fun x => (f x, g x)) <$> l.
Proof. induction l as [|x l IH]; [done|]. cbn. by rewrite IH. Qed.

Lemma rep_cuts_cons c cs :
  rep_cuts (Node (c :: cs))
  = (EMPTY_TREE, mkForest [mkTree (Some (Node (c :: cs)))])
      :: (join_cut <$> product (rep_cuts <$> (c :: cs))).
Proof.
  unfold rep_cuts at 1. cbn [split_rep fst snd zip zip_with]. f_equal.
  set (l := c :: cs).
  assert (Hfst : fst <$> (split_rep <$> l) = fmap (M:=list) fst <$> (rep_cuts <$> l)).
  { rewrite <- !list_fmap_compose. apply list_fmap_ext. intros ? r _. cbn.
    unfold rep_cuts. rewrite fst_zip; [done|]. by rewrite split_rep_lengths. }
  assert (Hsnd : snd <$> (split_rep <$> l) = fmap (M:=list) snd <$> (rep_cuts <$> l)).
  { rewrite <- !list_fmap_compose. apply list_fmap_ext. intros ? r _. cbn.
    unfold rep_cuts. rewrite snd_zip; [done|]. by rewrite split_rep_lengths. }
  rewrite Hfst, Hsnd, !product_fmap, <- !list_fmap_compose.
  apply zip_fmap_fmap.
Qed.

Lemma cuts_void : cuts EMPTY_TREE = [(EMPTY_TREE, EMPTY_FOREST)].
Proof. done. Qed.

Lemma cuts_Some r : cuts (mkTree (Some r)) = rep_cuts r.
Proof. done. Qed.

Lemma rep_cuts_nil :
  rep_cuts (Node []) = [(SINGLETON_TREE, EMPTY_FOREST); (EMPTY_TREE, SINGLETON_FOREST)].
Proof. done. Qed.

(** ** Cuts preserve the number of nodes *)

(** [Forest.nodes] *)
Definition Forest_nodes (f : Forest) : nat := sum_list_with Tree_nodes (tree_list f).

Lemma rep_nodes_Node cs : rep_nodes (Node cs) = S (sum_list_with rep_nodes cs).
Proof.
  rewrite sum_list_with_foldr. destruct cs; reflexivity.
Qed.

Lemma elem_of_for_for {A B C} (g : A -> B -> C) xs ys z :
  z ∈ for_for g xs ys <-> exists x y, x ∈ xs /\ y ∈ ys /\ z = g x y.
Proof.
  unfold for_for. rewrite list_elem_of_join. split.
  - intros (l & Hz & Hl). apply list_elem_of_fmap in Hl as (x & -> & Hx).
    apply list_elem_of_fmap in Hz as (y & -> & Hy). eauto.
  - intros (x & y & Hx & Hy & ->). exists (g x <$> ys). split.
    + apply list_elem_of_fmap. eauto.
    + apply list_elem_of_fmap. eauto.
Qed.

Lemma elem_of_product {A} (ls : list (list A)) p :
  p ∈ product ls <-> Forall2 (fun x l => x ∈ l) p ls.
Proof.
  revert p. induction ls as [|l ls IH]; intros p; cbn [product].
  - rewrite list_elem_of_singleton. split; [intros ->; constructor|].
    by intros ->%Forall2_nil_inv_r.
  - rewrite elem_of_for_for. split.
    + intros (x & q & Hx & Hq & ->). constructor; [done|]. by apply IH.
    + intros (x & q & Hx & Hq & ->)%Forall2_cons_inv_r.
      exists x, q. split; [done|]. split; [by apply IH|done].
Qed.

Lemma nodes_omap_list_repr (ts : list Tree) :
  sum_list_with rep_nodes (omap list_repr ts) = sum_list_with Tree_nodes ts.
Proof.
  induction ts as [|[[r|]] ts IH]; [done| |]; cbn; by rewrite IH.
Qed.

Lemma Forest_nodes_mjoin (fs : list Forest) :
  Forest_nodes (mkForest (mjoin (tree_list <$> fs))) = sum_list_with Forest_nodes fs.
Proof.
  unfold Forest_nodes. cbn [tree_list]. induction fs as [|f fs IH]; [done|].
  cbn [fmap list_fmap mjoin list_join sum_list_with].
  rewrite sum_list_with_app. f_equal. exact IH.
Qed.

Lemma rep_cuts_nodes r :
  Forall (fun tb => (Tree_nodes tb.1 + Forest_nodes tb.2 = rep_nodes r)%nat) (rep_cuts r).
Proof.
  induction r as [cs IH] using rep_ind'. destruct cs as [|c cs].
  { rewrite rep_cuts_nil. repeat constructor. }
  rewrite rep_cuts_cons. constructor.
  { cbn. unfold Forest_nodes. cbn. unfold Tree_nodes. cbn [list_repr _nodes]. lia. }
  apply Forall_fmap, Forall_forall. intros p Hp%elem_of_product.
  set (l := c :: cs) in *. clearbody l. clear c cs.
  unfold compose, join_cut. cbn [fst snd]. rewrite Forest_nodes_mjoin.
  unfold Tree_nodes at 1. cbn [list_repr _nodes].
  rewrite !rep_nodes_Node, nodes_omap_list_repr. cbn. f_equal.
  revert IH. rewrite Forall2_fmap_r in Hp.
  induction Hp as [|x r p l Hx Hp IHp]; intros IH; [done|].
  apply Forall_cons in IH as [Hr IH]. cbn.
  rewrite Forall_forall in Hr. specialize (Hr _ Hx). cbn in Hr.
  rewrite <- Hr, <- (IHp IH). lia.
Qed.

Lemma cuts_nodes t :
  Forall (fun tb => (Tree_nodes tb.1 + Forest_nodes tb.2 = Tree_nodes t)%nat) (cuts t).
Proof.
  destruct t as [[r|]]; [apply rep_cuts_nodes|].
  change (cuts (mkTree None)) with [(EMPTY_TREE, EMPTY_FOREST)].
  repeat constructor.
Qed.

(** ** The antipode returns *)

Lemma res_fold_ext {A B} (step step' : B -> A -> res B) l acc :
  (forall b x, x ∈ l -> step b x = step' b x) ->
  res_fold step l acc = res_fold step' l acc.
Proof.
  revert acc. induction l as [|x l IH]; intros acc H; [done|].
  cbn [res_fold]. rewrite H by left. destruct (step' acc x); [|done..].
  cbn. apply IH. intros b y Hy. apply H. by right.
Qed.

Lemma res_fold_Ok {A B} (step : B -> A -> res B) l acc :
  (forall b x, x ∈ l -> exists b', step b x = Ok b') ->
  exists b', res_fold step l acc = Ok b'.
Proof.
  revert acc. induction l as [|x l IH]; intros acc H; [by eexists|].
  cbn [res_fold]. destruct (H acc x) as [b' ->]; [left|]. cbn.
  apply IH. intros b y Hy. apply H. by right.
Qed.

Lemma Forest_antipode_with_ext (A A' : Tree -> bool -> res ForestSum) f ar :
  (forall x b, x ∈ tree_list f -> A x b = A' x b) ->
  Forest_antipode_with A f ar = Forest_antipode_with A' f ar.
Proof.
  intros H. unfold Forest_antipode_with. destruct (tree_list f) as [|t0 rest]; [done|].
  destruct (_ && _); [done|]. rewrite H by left.
  destruct (A' t0 false) as [s0|e|]; [|done..]. cbn [res_bind].
  rewrite (res_fold_ext _ (fun out t => do a <~ A' t false; Ok (ForestSum_mul out (VSum a) false))).
  - done.
  - intros b x Hx. rewrite H; [done|by right].
Qed.

Lemma Forest_antipode_with_Ok (A : Tree -> bool -> res ForestSum) f ar :
  tree_list f <> [] ->
  (forall x b, x ∈ tree_list f -> exists s, A x b = Ok s) ->
  exists s, Forest_antipode_with A f ar = Ok s.
Proof.
  intros Hne H. unfold Forest_antipode_with.
  destruct (tree_list f) as [|t0 rest]; [done|].
  destruct (_ && _); [by eexists|].
  destruct (H t0 false) as [s0 ->]; [left|]. cbn [res_bind].
  edestruct (res_fold_Ok (fun out t => do a <~ A t false; Ok (ForestSum_mul out (VSum a) false))
               rest s0) as [s ->].
  - intros b x Hx. destruct (H x false) as [a ->]; [by right|]. by eexists.
  - by eexists.
Qed.

Lemma Tree_equals_void t : Tree_equals t EMPTY_TREE = false -> list_repr t <> None.
Proof.
  intros H Hn. destruct t as [lr]. cbn in Hn. subst lr. done.
Qed.

Lemma Tree_nodes_pos t : list_repr t <> None -> (0 < Tree_nodes t)%nat.
Proof.
  destruct t as [[[cs]|]]; [|done]. intros _. unfold Tree_nodes. cbn. lia.
Qed.

(** The trees that a cut removes under a kept part that is not void have
    fewer nodes than the tree. *)
Lemma cuts_removed_smaller t T B x :
  (T, B) ∈ cuts t -> Tree_equals T EMPTY_TREE = false -> x ∈ tree_list B ->
  (Tree_nodes x < Tree_nodes t)%nat.
Proof.
  intros Hin HT Hx. pose proof (cuts_nodes t) as H.
  rewrite Forall_forall in H. specialize (H _ Hin). cbn in H.
  apply Tree_equals_void, Tree_nodes_pos in HT.
  pose proof (sum_list_with_in _ Tree_nodes _ Hx) as Hle.
  unfold Forest_nodes in H. lia.
Qed.

Lemma rep_cuts_nonempty r : Forall (fun tb => tree_list tb.2 <> []) (rep_cuts r).
Proof.
  induction r as [cs IH] using rep_ind'. destruct cs as [|c cs].
  { rewrite rep_cuts_nil. by repeat constructor. }
  rewrite rep_cuts_cons. constructor; [done|].
  apply Forall_fmap, Forall_forall. intros p Hp%elem_of_product.
  unfold compose, join_cut. cbn [fst snd tree_list].
  cbn [fmap list_fmap] in Hp. apply Forall2_cons_inv_r in Hp as (x & q & Hx & _ & ->).
  apply Forall_cons in IH as [Hc _]. rewrite Forall_forall in Hc.
  specialize (Hc _ Hx). cbn [fmap list_fmap mjoin list_join].
  destruct x as [T [B]]. cbn in *. by destruct B.
Qed.

Lemma cuts_nonempty t : Forall (fun tb => tree_list tb.2 <> []) (cuts t).
Proof.
  destruct t as [[r|]]; [apply rep_cuts_nonempty|]. by repeat constructor.
Qed.

Lemma antipode_step_ext (A A' : Tree -> bool -> res ForestSum) t out T B :
  (T, B) ∈ cuts t ->
  (forall x b, (Tree_nodes x < Tree_nodes t)%nat -> A x b = A' x b) ->
  antipode_step A t out (T, B) = antipode_step A' t out (T, B).
Proof.
  intros Hin H. unfold antipode_step. cbn [fst snd].
  destruct (Tree_equals T t); [done|]. cbn [orb].
  destruct (Tree_equals T EMPTY_TREE) eqn:HT; [done|].
  rewrite (Forest_antipode_with_ext A A'); [done|].
  intros x b Hx. apply H. eapply cuts_removed_smaller; eauto.
Qed.

Lemma Tree_antipode_with_ext (A A' : Tree -> bool -> res ForestSum) t ar :
  (forall x b, (Tree_nodes x < Tree_nodes t)%nat -> A x b = A' x b) ->
  Tree_antipode_with A t ar = Tree_antipode_with A' t ar.
Proof.
  intros H. unfold Tree_antipode_with.
  destruct (list_repr t) as [[[|c cs]]|] eqn:Hr; [done| |done].
  pose proof (eq_refl : cuts t = zip (Tree_split t).1 (Tree_split t).2) as Hc.
  destruct (Tree_split t) as [subtrees branches]. cbn [fst snd] in Hc. rewrite <- Hc.
  rewrite (res_fold_ext (antipode_step A t) (antipode_step A' t)); [done|].
  intros out [T B] Hin. by apply antipode_step_ext.
Qed.

(** With enough fuel the antipode does not depend on the fuel. *)
Lemma Tree_antipode_fuel_irrel k k' t ar :
  (Tree_nodes t < k)%nat -> (Tree_nodes t < k')%nat ->
  Tree_antipode_fuel k t ar = Tree_antipode_fuel k' t ar.
Proof.
  revert k' t ar. induction k as [|k IH]; intros k' t ar Hk Hk'; [lia|].
  destruct k' as [|k']; [lia|]. cbn [Tree_antipode_fuel].
  apply Tree_antipode_with_ext. intros x b Hx. apply IH; lia.
Qed.

(** The equation of [Tree.antipode]: the method body, with the method
    itself at the recursive calls. *)
Lemma Tree_antipode_unfold t ar :
  Tree_antipode t ar = Tree_antipode_with Tree_antipode t ar.
Proof.
  unfold Tree_antipode at 1. cbn [Tree_antipode_fuel].
  apply Tree_antipode_with_ext. intros x b Hx. unfold Tree_antipode.
  apply Tree_antipode_fuel_irrel; lia.
Qed.

Lemma Tree_antipode_with_Ok (A : Tree -> bool -> res ForestSum) t ar :
  (forall x b, (Tree_nodes x < Tree_nodes t)%nat -> exists s, A x b = Ok s) ->
  exists s, Tree_antipode_with A t ar = Ok s.
Proof.
  intros H. unfold Tree_antipode_with.
  destruct (list_repr t) as [[[|c cs]]|] eqn:Hr; [by eexists| |by eexists].
  pose proof (eq_refl : cuts t = zip (Tree_split t).1 (Tree_split t).2) as Hc.
  destruct (Tree_split t) as [subtrees branches]. cbn [fst snd] in Hc. rewrite <- Hc.
  edestruct (res_fold_Ok (antipode_step A t) (cuts t)) as [out ->]; [|by eexists].
  intros out [T B] Hin. unfold antipode_step. cbn [fst snd].
  destruct (Tree_equals T t); [by eexists|]. cbn [orb].
  destruct (Tree_equals T EMPTY_TREE) eqn:HT; [by eexists|].
  destruct (Forest_antipode_with_Ok A B false) as [a ->]; [| |by eexists].
  - pose proof (cuts_nonempty t) as Hne. rewrite Forall_forall in Hne.
    apply (Hne _ Hin).
  - intros x b Hx. apply H. eapply cuts_removed_smaller; eauto.
Qed.

(** [Tree.antipode] returns on every tree. *)
Lemma Tree_antipode_Ok t ar : exists s, Tree_antipode t ar = Ok s.
Proof.
  remember (Tree_nodes t) as n eqn:Hn. revert t ar Hn.
  induction n as [n IH] using lt_wf_ind. intros t ar ->.
  rewrite Tree_antipode_unfold. apply Tree_antipode_with_Ok.
  intros x b Hx. by eapply IH.
Qed.

(** The value of [t.antipode(apply_reduction)]. *)
Definition antipode_value (t : Tree) (apply_reduction : bool) : ForestSum :=
  match Tree_antipode t apply_reduction with
  | Ok s => s
  | _ => ZERO_FOREST_SUM
  end.

Lemma Tree_antipode_value t ar : Tree_antipode t ar = Ok (antipode_value t ar).
Proof.
  unfold antipode_value. by destruct (Tree_antipode_Ok t ar) as [s ->].
Qed.

(** ** The antipode of a forest *)

Lemma res_fold_pure {A B} (step : B -> A -> res B) (g : B -> A -> B) l acc :
  (forall b x, step b x = Ok (g b x)) ->
  res_fold step l acc = Ok (fold_left g l acc).
Proof.
  intros H. revert acc. induction l as [|x l IH]; intros acc; [done|].
  cbn [res_fold fold_left]. rewrite H. cbn. apply IH.
Qed.

Lemma sorted_rep_leaf r : sorted_rep r = Node [] -> r = Node [].
Proof.
  destruct r as [cs]. cbn [sorted_rep]. intros [= H].
  pose proof (merge_sort_Permutation rep_le (sorted_rep <$> cs)) as HP.
  rewrite H in HP. apply Permutation_nil_l in HP. symmetry in HP.
  by apply fmap_nil_inv in HP as ->.
Qed.

Lemma Tree_equals_singleton t : Tree_equals t SINGLETON_TREE = true -> t = SINGLETON_TREE.
Proof.
  unfold Tree_equals. intros H%bool_decide_eq_true.
  destruct t as [[r|]]; [|done]. cbn in H. injection H as H.
  by apply sorted_rep_leaf in H as ->.
Qed.

(** The product of the antipodes of the trees of a forest, left to right,
    none of the intermediate products reduced. *)
Definition antipode_product (t0 : Tree) (rest : list Tree) : ForestSum :=
  fold_left (fun out t => ForestSum_mul out (VSum (antipode_value t false)) false)
            rest (antipode_value t0 false).

Lemma Forest_antipode_cons t0 rest ar :
  Forest_antipode (mkForest (t0 :: rest)) ar
  = Ok (if ar then ForestSum_reduce (antipode_product t0 rest)
        else antipode_product t0 rest).
Proof.
  unfold Forest_antipode, Forest_antipode_with. cbn [tree_list].
  destruct (bool_decide _ && Tree_equals t0 SINGLETON_TREE) eqn:Hc.
  - apply andb_true_iff in Hc as [Hl Ht]. apply bool_decide_eq_true in Hl.
    apply Tree_equals_singleton in Ht as ->. destruct rest; [|done].
    by destruct ar.
  - rewrite Tree_antipode_value. cbn [res_bind].
    erewrite res_fold_pure; [done|].
    intros b x. by rewrite Tree_antipode_value.
Qed.



(** ** The recursion of the antipode *)

(** The value of [f.antipode(False)] on a forest. *)
Definition Forest_antipode_value (f : Forest) : ForestSum :=
  match Forest_antipode f false with
  | Ok s => s
  | _ => ZERO_FOREST_SUM
  end.

(** The cuts of the reduced coproduct: neither the kept part isomorphic to
    the tree, nor the void kept part. *)
Definition proper_cut (t : Tree) (sb : Tree * Forest) : bool :=
  negb (Tree_equals sb.1 t || Tree_equals sb.1 EMPTY_TREE).

Definition reduced_cuts (t : Tree) : list (Tree * Forest) :=
  filter (fun sb => proper_cut t sb = true) (cuts t).

(** [out - antipode(removed) * kept], as the loop of [Tree.antipode] forms
    it: the product is not reduced, the difference is. *)
Definition antipode_term (out : ForestSum) (sb : Tree * Forest) : ForestSum :=
  ForestSum_sub out (VSum (ForestSum_mul (Forest_antipode_value sb.2) (VTree sb.1) false))
                false.

Lemma res_fold_filter {A B} (skip : A -> bool) (step : B -> A -> res B) l acc :
  res_fold (fun out x => if skip x then Ok out else step out x) l acc
  = res_fold step (filter (fun x => negb (skip x) = true) l) acc.
Proof.
  revert acc. induction l as [|x l IH]; intros acc; [done|].
  cbn [res_fold]. destruct (skip x) eqn:Hs.
  - rewrite filter_cons_False by (rewrite Hs; done). cbn. apply IH.
  - rewrite filter_cons_True by (rewrite Hs; done). cbn [res_fold].
    destruct (step acc x); [|done..]. cbn. apply IH.
Qed.

Lemma Forest_antipode_value_Ok f :
  tree_list f <> [] -> Forest_antipode f false = Ok (Forest_antipode_value f).
Proof.
  intros Hne. unfold Forest_antipode_value. destruct f as [[|t0 rest]]; [done|].
  by rewrite Forest_antipode_cons.
Qed.

Lemma Tree_antipode_general t c cs ar :
  list_repr t = Some (Node (c :: cs)) ->
  Tree_antipode t ar
  = Ok (let out := fold_left antipode_term (reduced_cuts t)
                             (ForestSum_neg (Tree_as_forest_sum t)) in
        if ar then ForestSum_reduce out else out).
Proof.
  intros Hr. rewrite Tree_antipode_unfold. unfold Tree_antipode_with. rewrite Hr.
  pose proof (eq_refl : cuts t = zip (Tree_split t).1 (Tree_split t).2) as Hc.
  destruct (Tree_split t) as [subtrees branches]. cbn [fst snd] in Hc. rewrite <- Hc.
  unfold antipode_step.
  rewrite (res_fold_filter (fun sb => Tree_equals sb.1 t || Tree_equals sb.1 EMPTY_TREE)
             (fun out sb => do a <~ Forest_antipode_with Tree_antipode sb.2 false;
                            Ok (ForestSum_sub out
                                  (VSum (ForestSum_mul a (VTree sb.1) false)) false))).
  fold (reduced_cuts t).
  rewrite (res_fold_ext _ (fun out sb => Ok (antipode_term out sb))).
  - by rewrite (res_fold_pure _ antipode_term).
  - intros out [T B] [_ Hin]%list_elem_of_filter.
    fold (Forest_antipode B false). rewrite Forest_antipode_value_Ok; [done|].
    pose proof (cuts_nonempty t) as Hne. rewrite Forall_forall in Hne.
    apply (Hne _ Hin).
Qed.

(** ** The two trivial cuts *)

Lemma sum_list_with_ext_Forall {A} (f g : A -> nat) l :
  Forall (fun x => f x = g x) l -> sum_list_with f l = sum_list_with g l.
Proof. induction 1 as [|x l Hx _ IH]; [done|]. cbn. by rewrite Hx, IH. Qed.

Lemma sum_list_with_fmap {A B} (f : B -> nat) (g : A -> B) l :
  sum_list_with f (g <$> l) = sum_list_with (f ∘ g) l.
Proof. induction l as [|x l IH]; [done|]. cbn. by rewrite IH. Qed.

Lemma rep_nodes_sorted r : rep_nodes (sorted_rep r) = rep_nodes r.
Proof.
  induction r as [cs IH] using rep_ind'. cbn [sorted_rep].
  rewrite !rep_nodes_Node. f_equal.
  rewrite (merge_sort_Permutation rep_le), sum_list_with_fmap.
  by apply sum_list_with_ext_Forall.
Qed.

Lemma Tree_equals_nodes t u : Tree_equals t u = true -> Tree_nodes t = Tree_nodes u.
Proof.
  unfold Tree_equals. intros H%bool_decide_eq_true.
  destruct t as [[r|]], u as [[r'|]]; try done. cbn in H. injection H as H.
  unfold Tree_nodes. cbn. by rewrite <- (rep_nodes_sorted r), H, rep_nodes_sorted.
Qed.

Lemma Tree_equals_refl t : Tree_equals t t = true.
Proof. unfold Tree_equals. by apply bool_decide_eq_true. Qed.

(** The number of leaves: the number of void trees that the cut that
    removes nothing leaves in the removed forest. *)
Fixpoint rep_leaves (r : rep) : nat :=
  match r with
  | Node [] => 1
  | Node cs => foldr (fun c acc => (rep_leaves c + acc)%nat) 0%nat cs
  end.

(** The cut that removes nothing. *)
Definition no_cut (r : rep) : Tree * Forest :=
  (mkTree (Some r), mkForest (replicate (rep_leaves r) EMPTY_TREE)).

(** The cut that removes the whole tree. *)
Definition full_cut (t : Tree) : Tree * Forest := (EMPTY_TREE, mkForest [t]).

Lemma for_for_cons {A B C} (g : A -> B -> C) x xs ys :
  for_for g (x :: xs) ys = (g x <$> ys) ++ for_for g xs ys.
Proof. done. Qed.

Lemma filter_fmap_cons_True {A} (Q : A -> Prop) `{!forall x, Decision (Q x)} x
    (ps : list (list A)) :
  Q x -> filter (Forall Q) (cons x <$> ps) = cons x <$> filter (Forall Q) ps.
Proof.
  intros Hx. induction ps as [|p ps IHp]; [done|]. rewrite fmap_cons.
  destruct (decide (Forall Q p)) as [Hp|Hp].
  - rewrite !filter_cons_True by (try constructor; done).
    by rewrite fmap_cons, IHp.
  - rewrite !filter_cons_False; [done|done|]. by intros [_ ?]%Forall_cons.
Qed.

Lemma filter_fmap_cons_False {A} (Q : A -> Prop) `{!forall x, Decision (Q x)} x
    (ps : list (list A)) :
  ~ Q x -> filter (Forall Q) (cons x <$> ps) = [].
Proof.
  intros Hx. induction ps as [|p ps IHp]; [done|]. rewrite fmap_cons.
  rewrite filter_cons_False; [done|]. by intros [? _]%Forall_cons.
Qed.

Lemma filter_for_for_cons {A} (Q : A -> Prop) `{!forall x, Decision (Q x)}
    (l : list A) (ps : list (list A)) :
  filter (Forall Q) (for_for cons l ps) = for_for cons (filter Q l) (filter (Forall Q) ps).
Proof.
  induction l as [|x l IH]; [done|].
  rewrite for_for_cons, filter_app, IH.
  destruct (decide (Q x)) as [Hx|Hx].
  - rewrite (filter_cons_True Q) by done.
    by rewrite for_for_cons, filter_fmap_cons_True.
  - rewrite (filter_cons_False Q) by done. by rewrite filter_fmap_cons_False.
Qed.

Lemma filter_product {A} (Q : A -> Prop) `{!forall x, Decision (Q x)}
    (ls : list (list A)) :
  filter (Forall Q) (product ls) = product (filter Q <$> ls).
Proof.
  induction ls as [|l ls IH]; [done|].
  cbn [product fmap list_fmap]. by rewrite filter_for_for_cons, IH.
Qed.

Lemma filter_fmap {A B} (P : B -> Prop) `{!forall y, Decision (P y)} (f : A -> B)
    (l : list A) :
  filter P (f <$> l) = f <$> filter (P ∘ f) l.
Proof.
  induction l as [|x l IH]; [done|]. rewrite fmap_cons.
  destruct (decide (P (f x))) as [Hx|Hx].
  - rewrite !filter_cons_True by done. by rewrite fmap_cons, IH.
  - by rewrite !filter_cons_False.
Qed.

Lemma product_singletons {A B} (f : A -> B) (l : list A) :
  product ((fun x => [f x]) <$> l) = [f <$> l].
Proof. induction l as [|x l IH]; [done|]. cbn [fmap list_fmap product]. by rewrite IH. Qed.

Lemma rep_leaves_Node c cs :
  rep_leaves (Node (c :: cs)) = sum_list_with rep_leaves (c :: cs).
Proof. by rewrite sum_list_with_foldr. Qed.

Lemma Forest_nodes_zero_join (p : list (Tree * Forest)) :
  Forest_nodes (join_cut p).2 = 0%nat <-> Forall (fun x => Forest_nodes x.2 = 0%nat) p.
Proof.
  unfold join_cut. cbn [snd]. rewrite Forest_nodes_mjoin.
  induction p as [|x p IH]; [done|]. rewrite Forall_cons, <- IH.
  rewrite fmap_cons. cbn [sum_list_with]. lia.
Qed.

Lemma omap_list_repr_no_cut (l : list rep) : omap list_repr ((no_cut <$> l).*1) = l.
Proof. induction l as [|x l IH]; [done|]. cbn. by rewrite IH. Qed.

Lemma mjoin_no_cut (l : list rep) :
  mjoin (tree_list <$> (no_cut <$> l).*2)
  = replicate (sum_list_with rep_leaves l) EMPTY_TREE.
Proof.
  induction l as [|x l IH]; [done|].
  rewrite !fmap_cons. cbn [mjoin list_join snd no_cut tree_list sum_list_with].
  rewrite replicate_add. f_equal. exact IH.
Qed.

Lemma join_cut_no_cut c cs : join_cut (no_cut <$> c :: cs) = no_cut (Node (c :: cs)).
Proof.
  unfold join_cut, no_cut at 3.
  by rewrite omap_list_repr_no_cut, mjoin_no_cut, rep_leaves_Node.
Qed.

(** Exactly one cut removes no node: the cut [no_cut]. *)
Lemma rep_cuts_no_cut r :
  filter (fun tb => Forest_nodes tb.2 = 0%nat) (rep_cuts r) = [no_cut r].
Proof.
  induction r as [cs IH] using rep_ind'. destruct cs as [|c cs]; [done|].
  rewrite rep_cuts_cons, filter_cons_False.
  2:{ cbn. unfold Forest_nodes, Tree_nodes. cbn. lia. }
  rewrite filter_fmap.
  rewrite (list_filter_iff _ (Forall (fun x => Forest_nodes x.2 = 0%nat)))
    by (intros p; apply Forest_nodes_zero_join).
  rewrite filter_product, <- list_fmap_compose.
  rewrite (Forall_fmap_ext_1 _ (fun c => [no_cut c])) by exact IH.
  by rewrite product_singletons, fmap_cons, join_cut_no_cut.
Qed.

Lemma filter_ext_in {A} (P Q : A -> Prop) `{!forall x, Decision (P x)}
    `{!forall x, Decision (Q x)} (l : list A) :
  (forall x, x ∈ l -> (P x <-> Q x)) -> filter P l = filter Q l.
Proof.
  induction l as [|x l IH]; intros Hiff; [done|].
  assert (Hl : filter P l = filter Q l).
  { apply IH. intros y Hy. apply Hiff. by right. }
  destruct (decide (P x)) as [Hx|Hx].
  - rewrite !filter_cons_True; [by rewrite Hl|by apply Hiff; [left|]|done].
  - rewrite !filter_cons_False; [done| |done]. intros HQ. apply Hx, Hiff; [left|done].
Qed.

Lemma Tree_equals_void_iff t : Tree_equals t EMPTY_TREE = true <-> list_repr t = None.
Proof.
  unfold Tree_equals. rewrite bool_decide_eq_true. destruct t as [[r|]]; cbn; naive_solver.
Qed.

(** Among the cuts of a tree with children, the ones outside the reduced
    coproduct are the cut that removes the whole tree and the cut that
    removes nothing. *)
Lemma trivial_cuts c cs :
  let t := mkTree (Some (Node (c :: cs))) in
  filter (fun sb => proper_cut t sb = false) (cuts t)
  = [full_cut t; no_cut (Node (c :: cs))].
Proof.
  intros t. pose proof (rep_cuts_no_cut (Node (c :: cs))) as Hno.
  pose proof (cuts_nodes t) as Hnodes.
  change (cuts t) with (rep_cuts (Node (c :: cs))) in *.
  rewrite rep_cuts_cons in *. rewrite filter_cons_True by done.
  rewrite filter_cons_False in Hno.
  2:{ cbn. unfold Forest_nodes, Tree_nodes. cbn. lia. }
  f_equal. rewrite <- Hno. apply Forall_cons in Hnodes as [_ Hnodes].
  rewrite Forall_forall in Hnodes.
  apply filter_ext_in. intros sb Hsb. specialize (Hnodes _ Hsb).
  unfold proper_cut. rewrite negb_false_iff, orb_true_iff, Tree_equals_void_iff.
  split.
  - intros [He|Hv].
    + apply Tree_equals_nodes in He. lia.
    + apply list_elem_of_fmap in Hsb as (p & -> & _). done.
  - intros Hz. left.
    assert (Hin : sb ∈ filter (fun tb => Forest_nodes tb.2 = 0%nat)
                    (join_cut <$> product (rep_cuts <$> c :: cs))).
    { by apply list_elem_of_filter. }
    rewrite Hno in Hin. apply list_elem_of_singleton in Hin as ->.
    apply Tree_equals_refl.
Qed.

(** C2, the claim as stated fails: the antipode of the single-node tree does
    not compare equal to the scalar -1, which [__eq__] takes as -1 times the
    void tree. *)
Lemma antipode_singleton_not_minus_one :
  Tree_antipode SINGLETON_TREE true = Ok (mkForestSum [SINGLETON_FOREST] [-1])
  /\ Tree_mul EMPTY_TREE (VInt (-1)) true = VSum (mkForestSum [EMPTY_FOREST] [-1])
  /\ ForestSum_equals (mkForestSum [SINGLETON_FOREST] [-1])
                      (mkForestSum [EMPTY_FOREST] [-1]) = false.
Proof. split; [done|]. split; by vm_compute. Qed.

(** ** The counts of labellings *)

(** The tree that is a path of [n] nodes below a root. *)
Fixpoint chain (n : nat) : rep :=
  match n with
  | O => Node []
  | S k => Node [chain k]
  end.

(** C9. [Tree.beta] and [Tree.alpha] divide with [/], which gives floats:
    on the path of 23 nodes, with symmetry factor 1 and 23! labellings,
    [beta] returns the float 0x1.5e5c335f8a4cep+74, which is
    25852016738884978212864 and not 23! = 25852016738884976640000. *)
Theorem Tree_beta_inexact :
  let t := mkTree (Some (chain 22)) in
  Tree_nodes t = 23%nat
  /\ Tree_sigma t = 1
  /\ Zfact 23 = 25852016738884976640000
  /\ Tree_beta t = Ok (S754_finite false 0x15e5c335f8a4ce 22)
  /\ float_to_Z (S754_finite false 0x15e5c335f8a4ce 22) = Some 25852016738884978212864
  /\ Tree_alpha t = Ok (S754_finite false 0x10000000000000 (-52)).
Proof. repeat split; vm_compute; reflexivity. Qed.

(** ** The order of the canonical form *)

(** The lexicographic order of tuples over an order of the components. *)
Fixpoint list_compare {A} (cmp : A -> A -> comparison) (xs ys : list A) : comparison :=
  match xs, ys with
  | [], [] => Eq
  | [], _ :: _ => Lt
  | _ :: _, [] => Gt
  | x :: xs', y :: ys' =>
      match cmp x y with
      | Eq => list_compare cmp xs' ys'
      | c => c
      end
  end.

Lemma rep_compare_Node xs ys :
  rep_compare (Node xs) (Node ys) = list_compare rep_compare xs ys.
Proof.
  cbn [rep_compare]. revert ys. induction xs as [|x xs IH]; intros [|y ys]; try done.
  cbn [list_compare]. destruct (rep_compare x y); [apply IH|done..].
Qed.

Lemma rep_compare_eq a b : rep_compare a b = Eq -> a = b.
Proof.
  revert b. induction a as [xs IH] using rep_ind'. intros [ys].
  rewrite rep_compare_Node. intros H. f_equal. revert ys H.
  induction IH as [|x xs Hx _ IHxs]; intros [|y ys]; cbn [list_compare]; try done.
  destruct (rep_compare x y) eqn:Hc; [|done..].
  intros H. apply Hx in Hc as ->. f_equal. by apply IHxs.
Qed.

Lemma rep_compare_refl a : rep_compare a a = Eq.
Proof.
  induction a as [xs IH] using rep_ind'. rewrite rep_compare_Node.
  induction IH as [|x xs Hx _ IHxs]; [done|]. cbn [list_compare]. by rewrite Hx.
Qed.

Lemma rep_compare_antisym a b : rep_compare b a = CompOpp (rep_compare a b).
Proof.
  revert b. induction a as [xs IH] using rep_ind'. intros [ys].
  rewrite !rep_compare_Node. revert ys.
  induction IH as [|x xs Hx _ IHxs]; intros [|y ys]; cbn [list_compare]; try done.
  rewrite (Hx y). destruct (rep_compare x y); cbn [CompOpp]; [apply IHxs|done..].
Qed.

Lemma rep_compare_trans a b c :
  rep_compare a b = Lt -> rep_compare b c = Lt -> rep_compare a c = Lt.
Proof.
  revert b c. induction a as [xs IH] using rep_ind'. intros [ys] [zs].
  rewrite !rep_compare_Node. revert ys zs.
  induction IH as [|x xs Hx _ IHxs]; intros [|y ys] [|z zs]; cbn [list_compare]; try done.
  destruct (rep_compare x y) eqn:Hxy; [|..|done].
  - apply rep_compare_eq in Hxy as ->.
    destruct (rep_compare y z); [apply IHxs|done..].
  - intros _. destruct (rep_compare y z) eqn:Hyz; [|..|done].
    + apply rep_compare_eq in Hyz as ->. by rewrite Hxy.
    + by rewrite (Hx _ _ Hxy Hyz).
Qed.

#[global] Instance rep_le_total : Total rep_le.
Proof.
  intros a b. unfold rep_le, rep_before. rewrite (rep_compare_antisym a b).
  destruct (Nat.ltb_spec (rep_nodes b) (rep_nodes a)); [by left|].
  destruct (Nat.ltb_spec (rep_nodes a) (rep_nodes b)); [by right|].
  replace (rep_nodes b) with (rep_nodes a) by lia. rewrite Nat.eqb_refl.
  destruct (rep_compare a b); cbn; auto.
Qed.

#[global] Instance rep_le_antisymm : AntiSymm (=) rep_le.
Proof.
  intros a b. unfold rep_le, rep_before. rewrite (rep_compare_antisym a b).
  destruct (Nat.ltb_spec (rep_nodes b) (rep_nodes a)),
    (Nat.ltb_spec (rep_nodes a) (rep_nodes b)); try lia; cbn [orb].
  - destruct (Nat.eqb_spec (rep_nodes b) (rep_nodes a)); [lia|]. by rewrite andb_false_l.
  - destruct (Nat.eqb_spec (rep_nodes a) (rep_nodes b)); [lia|]. by rewrite andb_false_l.
  - destruct (rep_compare a b) eqn:Hc; cbn; rewrite ?andb_false_r; try done.
    intros _ _. by apply rep_compare_eq.
Qed.

Lemma rep_compare_ge_trans a b c :
  rep_compare a b <> Lt -> rep_compare b c <> Lt -> rep_compare a c <> Lt.
Proof.
  intros Hab Hbc Hac.
  destruct (rep_compare a b) eqn:Cab; [| done |].
  - apply rep_compare_eq in Cab as ->. done.
  - destruct (rep_compare b c) eqn:Cbc; [| done |].
    + apply rep_compare_eq in Cbc as ->. congruence.
    + assert (Hcb : rep_compare c b = Lt) by (by rewrite (rep_compare_antisym b c), Cbc).
      assert (Hba : rep_compare b a = Lt) by (by rewrite (rep_compare_antisym a b), Cab).
      pose proof (rep_compare_trans _ _ _ Hcb Hba) as Hca.
      rewrite (rep_compare_antisym a c), Hac in Hca. done.
Qed.

Lemma not_Lt_true c : match c with Lt => false | _ => true end = true <-> c <> Lt.
Proof. by destruct c. Qed.

#[global] Instance rep_le_trans : Transitive rep_le.
Proof.
  intros a b c. unfold rep_le, rep_before.
  rewrite !orb_true_iff, !andb_true_iff, !Nat.ltb_lt, !Nat.eqb_eq, !not_Lt_true.
  intros [Hab|[Hab Cab]] [Hbc|[Hbc Cbc]]; [left; lia..|]. right.
  split; [lia|]. by eapply rep_compare_ge_trans.
Qed.

(** Sorting is a function of the multiset of the entries. *)
Lemma merge_sort_perm (l l' : list rep) :
  l ≡ₚ l' -> merge_sort rep_le l = merge_sort rep_le l'.
Proof.
  intros HP. apply (Sorted_unique rep_le); [apply Sorted_merge_sort, _..|].
  by rewrite !merge_sort_Permutation.
Qed.

(** ** Isomorphic trees *)

(** Two nested tuples are isomorphic when one comes from the other by
    permuting the children of nodes, at any level and any number of times. *)
Inductive rep_iso : rep -> rep -> Prop :=
| iso_perm cs cs' : cs ≡ₚ cs' -> rep_iso (Node cs) (Node cs')
| iso_child l1 c c' l2 :
    rep_iso c c' -> rep_iso (Node (l1 ++ c :: l2)) (Node (l1 ++ c' :: l2))
| iso_trans a b c : rep_iso a b -> rep_iso b c -> rep_iso a c.

Definition Tree_iso (t u : Tree) : Prop :=
  match list_repr t, list_repr u with
  | None, None => True
  | Some a, Some b => rep_iso a b
  | _, _ => False
  end.

Lemma sorted_rep_Node cs :
  sorted_rep (Node cs) = Node (merge_sort rep_le (sorted_rep <$> cs)).
Proof. done. Qed.

Lemma sorted_rep_iso a b : rep_iso a b -> sorted_rep a = sorted_rep b.
Proof.
  induction 1 as [cs cs' HP|l1 c c' l2 _ IH|a b c _ IH1 _ IH2].
  - rewrite !sorted_rep_Node. f_equal. apply merge_sort_perm. by rewrite HP.
  - rewrite !sorted_rep_Node, !fmap_app, !fmap_cons. by rewrite IH.
  - congruence.
Qed.

Lemma sorted_rep_idemp r : sorted_rep (sorted_rep r) = sorted_rep r.
Proof.
  induction r as [cs IH] using rep_ind'. rewrite !sorted_rep_Node. f_equal.
  apply merge_sort_perm. rewrite (merge_sort_Permutation rep_le).
  rewrite <- list_fmap_compose.
  by rewrite (Forall_fmap_ext_1 (sorted_rep ∘ sorted_rep) sorted_rep cs).
Qed.

Lemma sorted_rep_children cs cs' :
  sorted_rep (Node cs) = sorted_rep (Node cs') ->
  sorted_rep <$> cs ≡ₚ sorted_rep <$> cs'.
Proof.
  rewrite !sorted_rep_Node. intros [= H].
  by rewrite <- (merge_sort_Permutation rep_le (sorted_rep <$> cs)), H,
    (merge_sort_Permutation rep_le).
Qed.

Lemma rep_nodes_child c cs : c ∈ cs -> (rep_nodes c < rep_nodes (Node cs))%nat.
Proof.
  intros Hc. rewrite rep_nodes_Node.
  pose proof (sum_list_with_in _ rep_nodes _ Hc). lia.
Qed.

(** A function of trees is a function of the canonical form as soon as it
    is one on every node whose children it already treats so. *)
Lemma canonical_invariance {X} (f : rep -> X) :
  (forall cs cs',
      sorted_rep <$> cs ≡ₚ sorted_rep <$> cs' ->
      Forall (fun c => f c = f (sorted_rep c)) (cs ++ cs') ->
      f (Node cs) = f (Node cs')) ->
  forall a b, sorted_rep a = sorted_rep b -> f a = f b.
Proof.
  intros Hf a. remember (rep_nodes a) as n eqn:Hn. revert a Hn.
  induction n as [n IH] using lt_wf_ind. intros [cs] -> [cs'] Hs.
  apply Hf; [by apply sorted_rep_children|].
  assert (Hnodes : rep_nodes (Node cs') = rep_nodes (Node cs)).
  { by rewrite <- (rep_nodes_sorted (Node cs')), <- Hs, rep_nodes_sorted. }
  apply Forall_app. split; apply Forall_forall; intros c Hc.
  - apply (IH (rep_nodes c)); [by apply rep_nodes_child|done|].
    by rewrite sorted_rep_idemp.
  - apply (IH (rep_nodes c)); [|done|by rewrite sorted_rep_idemp].
    rewrite <- Hnodes. by apply rep_nodes_child.
Qed.

Lemma Zprod_perm (l l' : list Z) : l ≡ₚ l' -> Zprod l = Zprod l'.
Proof.
  induction 1 as [|x l l' _ IH|x y l|l l' l'' _ IH1 _ IH2]; cbn; [done| |lia|congruence].
  unfold Zprod in IH. by rewrite IH.
Qed.

Lemma foldr_mul_Zprod {A} (f : A -> Z) (l : list A) :
  foldr (fun c acc => f c * acc) 1 l = Zprod (f <$> l).
Proof. induction l as [|x l IH]; [done|]. cbn. by rewrite IH. Qed.

Lemma rep_factorial_Node cs :
  rep_factorial (Node cs)
  = Z.of_nat (rep_nodes (Node cs)) * Zprod (rep_factorial <$> cs).
Proof. cbn [rep_factorial]. by rewrite foldr_mul_Zprod. Qed.

Lemma fmap_sorted_ext {X} (f : rep -> X) (cs : list rep) :
  Forall (fun c => f c = f (sorted_rep c)) cs -> f <$> cs = f <$> (sorted_rep <$> cs).
Proof.
  intros H. rewrite <- list_fmap_compose. by apply Forall_fmap_ext_1.
Qed.

(** The tree factorial is a function of the canonical form. *)
Lemma rep_factorial_canonical a b :
  sorted_rep a = sorted_rep b -> rep_factorial a = rep_factorial b.
Proof.
  apply canonical_invariance. intros cs cs' HP [H H']%Forall_app.
  rewrite !rep_factorial_Node. f_equal.
  - f_equal. rewrite !rep_nodes_Node. f_equal.
    rewrite <- (sum_list_with_ext_Forall (rep_nodes ∘ sorted_rep) rep_nodes cs)
      by (apply Forall_forall; intros; apply rep_nodes_sorted).
    rewrite <- (sum_list_with_ext_Forall (rep_nodes ∘ sorted_rep) rep_nodes cs')
      by (apply Forall_forall; intros; apply rep_nodes_sorted).
    by rewrite <- !sum_list_with_fmap, HP.
  - rewrite (fmap_sorted_ext _ cs H), (fmap_sorted_ext _ cs' H').
    apply Zprod_perm. by rewrite HP.
Qed.

Lemma filter_fst_tag {X} (g : rep -> X) (k : rep) (K : list rep) :
  filter (fun p : rep * X => p.1 = k) ((fun k => (k, g k)) <$> K)
  = replicate (length (filter (fun x => x = k) K)) (k, g k).
Proof.
  induction K as [|x K IH]; [done|]. rewrite fmap_cons.
  destruct (decide (x = k)) as [->|Hx].
  - rewrite !filter_cons_True by done. cbn. by rewrite IH.
  - by rewrite !filter_cons_False.
Qed.

Lemma iso_classes_tag (g : rep -> Z) (K : list rep) :
  iso_classes ((fun k => (k, g k)) <$> K)
  = (fun k => (g k, length (filter (fun x => x = k) K))) <$> remove_dups K.
Proof.
  unfold iso_classes. rewrite <- list_fmap_compose.
  rewrite (list_fmap_ext (fst ∘ (fun k => (k, g k))) id K) by done.
  rewrite list_fmap_id. apply list_fmap_ext.
  intros i k Hk%list_elem_of_lookup_2. rewrite elem_of_remove_dups in Hk.
  cbn zeta. rewrite filter_fst_tag, length_replicate.
  destruct (length (filter (fun x => x = k) K)) eqn:Hn; [|done].
  apply length_zero_iff_nil in Hn. exfalso.
  assert (Hin : k ∈ filter (fun x => x = k) K) by by apply list_elem_of_filter.
  rewrite Hn in Hin. by apply not_elem_of_nil in Hin.
Qed.

Lemma iso_classes_perm (g : rep -> Z) (K K' : list rep) :
  K ≡ₚ K' ->
  iso_classes ((fun k => (k, g k)) <$> K) ≡ₚ iso_classes ((fun k => (k, g k)) <$> K').
Proof.
  intros HP. rewrite !iso_classes_tag.
  rewrite (list_fmap_ext (fun k => (g k, length (filter (fun x => x = k) K)))
             (fun k => (g k, length (filter (fun x => x = k) K'))) (remove_dups K)).
  - apply fmap_Permutation, NoDup_Permutation; [apply NoDup_remove_dups..|].
    intros x. by rewrite !elem_of_remove_dups, HP.
  - intros i k _. by rewrite HP.
Qed.

(** The symmetry factor is a function of the canonical form. *)
Lemma rep_sigma_canonical a b :
  sorted_rep a = sorted_rep b -> rep_sigma a = rep_sigma b.
Proof.
  apply canonical_invariance. intros cs cs' HP [H H']%Forall_app.
  cbn [rep_sigma]. apply Zprod_perm, fmap_Permutation.
  assert (Htag : forall l, Forall (fun c => rep_sigma c = rep_sigma (sorted_rep c)) l ->
            (fun c => (sorted_rep c, rep_sigma c)) <$> l
            = (fun k => (k, rep_sigma k)) <$> (sorted_rep <$> l)).
  { intros l Hl. rewrite <- list_fmap_compose. apply Forall_fmap_ext_1.
    eapply Forall_impl; [exact Hl|]. intros c Hc. cbn. by rewrite Hc. }
  rewrite (Htag cs H), (Htag cs' H'). by apply iso_classes_perm.
Qed.

(** ** Forest sums as polynomials *)

Fixpoint rep_to_gen_tree (r : rep) : gen_tree unit :=
  match r with
  | Node cs => GenNode 0 (rep_to_gen_tree <$> cs)
  end.

Fixpoint gen_tree_to_rep (g : gen_tree unit) : rep :=
  match g with
  | GenLeaf _ => Node []
  | GenNode _ l => Node (gen_tree_to_rep <$> l)
  end.

Lemma gen_tree_to_rep_to_gen_tree r : gen_tree_to_rep (rep_to_gen_tree r) = r.
Proof.
  induction r as [cs IH] using rep_ind'. cbn. f_equal.
  rewrite <- list_fmap_compose. etrans; [|apply list_fmap_id].
  by apply Forall_fmap_ext_1.
Qed.

#[global] Instance rep_countable : Countable rep :=
  inj_countable' rep_to_gen_tree gen_tree_to_rep gen_tree_to_rep_to_gen_tree.

(** A monomial: a multiset of trees. A polynomial: a list of monomials with
    integer coefficients, read as their sum. *)
Abbreviation mono := (gmultiset rep).
Abbreviation poly := (list (gmultiset rep * Z)).

Definition Zsum {A} (f : A -> Z) (l : list A) : Z := foldr (fun x acc => f x + acc) 0 l.

(** The coefficient of a monomial in a polynomial. *)
Definition coeff (m : mono) (p : poly) : Z :=
  Zsum (fun a => if decide (a.1 = m) then a.2 else 0) p.

(** Two polynomials are equal when they have the same coefficients. *)
Definition peq (p q : poly) : Prop := forall m, coeff m p = coeff m q.

Infix "≈" := peq (at level 70, no associativity).

Definition pmul (p q : poly) : poly :=
  for_for (fun a b => (a.1 ⊎ b.1, a.2 * b.2)) p q.

Definition pscale (z : Z) (p : poly) : poly := (fun a => (a.1, a.2 * z)) <$> p.

Definition pconst (z : Z) : poly := [(∅, z)].

Lemma Zsum_nil {A} (f : A -> Z) : Zsum f [] = 0.
Proof. done. Qed.

Lemma Zsum_cons {A} (f : A -> Z) x l : Zsum f (x :: l) = f x + Zsum f l.
Proof. done. Qed.

Lemma Zsum_app {A} (f : A -> Z) l l' : Zsum f (l ++ l') = Zsum f l + Zsum f l'.
Proof. induction l as [|x l IH]; [done|]. cbn [app]. rewrite !Zsum_cons, IH. lia. Qed.

Lemma Zsum_ext {A} (f g : A -> Z) l :
  (forall x, x ∈ l -> f x = g x) -> Zsum f l = Zsum g l.
Proof.
  induction l as [|x l IH]; intros H; [done|]. rewrite !Zsum_cons, H by left.
  f_equal. apply IH. intros y Hy. apply H. by right.
Qed.

Lemma Zsum_fmap {A B} (f : B -> Z) (g : A -> B) (l : list A) :
  Zsum f (g <$> l) = Zsum (f ∘ g) l.
Proof. induction l as [|x l IH]; [done|]. rewrite fmap_cons, !Zsum_cons, IH. done. Qed.

Lemma mjoin_cons {A} (l : list A) (ls : list (list A)) : mjoin (l :: ls) = l ++ mjoin ls.
Proof. done. Qed.

Lemma Zsum_mjoin {A} (f : A -> Z) (ls : list (list A)) :
  Zsum f (mjoin ls) = Zsum (Zsum f) ls.
Proof.
  induction ls as [|l ls IH]; [done|].
  by rewrite mjoin_cons, Zsum_app, Zsum_cons, IH.
Qed.

Lemma Zsum_for_for {A B C} (f : C -> Z) (g : A -> B -> C) xs ys :
  Zsum f (for_for g xs ys) = Zsum (fun x => Zsum (fun y => f (g x y)) ys) xs.
Proof.
  unfold for_for. rewrite Zsum_mjoin, Zsum_fmap. apply Zsum_ext. intros x _.
  unfold compose. by rewrite Zsum_fmap.
Qed.

Lemma Zsum_zero {A} (l : list A) : Zsum (fun _ => 0) l = 0.
Proof. induction l as [|x l IH]; [done|]. by rewrite Zsum_cons, IH. Qed.

Lemma Zsum_plus {A} (f g : A -> Z) l :
  Zsum (fun x => f x + g x) l = Zsum f l + Zsum g l.
Proof. induction l as [|x l IH]; [done|]. rewrite !Zsum_cons, IH. lia. Qed.

Lemma Zsum_scale {A} (f : A -> Z) z l : Zsum (fun x => z * f x) l = z * Zsum f l.
Proof. induction l as [|x l IH]; [cbn; lia|]. rewrite !Zsum_cons, IH. lia. Qed.

Lemma Zsum_swap {A B} (f : A -> B -> Z) xs ys :
  Zsum (fun x => Zsum (fun y => f x y) ys) xs
  = Zsum (fun y => Zsum (fun x => f x y) xs) ys.
Proof.
  induction xs as [|x xs IH]; [by rewrite Zsum_nil, Zsum_zero|].
  rewrite Zsum_cons, IH, <- Zsum_plus. done.
Qed.

Lemma Zsum_perm {A} (f : A -> Z) l l' : l ≡ₚ l' -> Zsum f l = Zsum f l'.
Proof.
  induction 1 as [|x l l' _ IH|x y l|l l' l'' _ IH1 _ IH2];
    rewrite ?Zsum_cons; [done|lia|lia|congruence].
Qed.

#[global] Instance peq_equiv : Equivalence peq.
Proof.
  split; [by intros p m|by intros p q H m|].
  intros p q r H1 H2 m. by rewrite H1.
Qed.

Lemma coeff_nil m : coeff m [] = 0.
Proof. done. Qed.

Lemma coeff_cons m a p :
  coeff m (a :: p) = (if decide (a.1 = m) then a.2 else 0) + coeff m p.
Proof. done. Qed.

Lemma coeff_app m p q : coeff m (p ++ q) = coeff m p + coeff m q.
Proof. apply Zsum_app. Qed.

Lemma coeff_perm m p q : p ≡ₚ q -> coeff m p = coeff m q.
Proof. apply Zsum_perm. Qed.

Lemma peq_perm p q : p ≡ₚ q -> p ≈ q.
Proof. intros H m. by apply coeff_perm. Qed.

#[global] Instance app_peq : Proper (peq ==> peq ==> peq) (@app (mono * Z)).
Proof. intros p p' Hp q q' Hq m. by rewrite !coeff_app, Hp, Hq. Qed.

Lemma coeff_pscale m z p : coeff m (pscale z p) = z * coeff m p.
Proof.
  unfold coeff, pscale. rewrite Zsum_fmap, <- Zsum_scale. apply Zsum_ext.
  intros a _. cbn. destruct (decide (a.1 = m)); lia.
Qed.

#[global] Instance pscale_peq z : Proper (peq ==> peq) (pscale z).
Proof. intros p q H m. by rewrite !coeff_pscale, H. Qed.

(** The coefficient of a product, one factor of which is a single term. *)
Lemma coeff_shift (m : mono) (b : mono * Z) (p : poly) :
  Zsum (fun a => if decide (a.1 ⊎ b.1 = m) then a.2 * b.2 else 0) p
  = if decide (b.1 ⊆ m) then b.2 * coeff (m ∖ b.1) p else 0.
Proof.
  destruct (decide (b.1 ⊆ m)) as [Hb|Hb].
  - unfold coeff. rewrite <- Zsum_scale. apply Zsum_ext. intros a _.
    destruct (decide (a.1 ⊎ b.1 = m)) as [Hm|Hne],
      (decide (a.1 = m ∖ b.1)) as [Heq|Hne']; try lia.
    + exfalso. apply Hne'. rewrite <- Hm. multiset_solver.
    + exfalso. apply Hne. rewrite Heq. multiset_solver.
  - etrans; [|apply (Zsum_zero p)]. apply Zsum_ext. intros a _.
    destruct (decide (a.1 ⊎ b.1 = m)) as [Hm|]; [|done].
    exfalso. apply Hb. rewrite <- Hm. multiset_solver.
Qed.

Lemma coeff_pmul m p q :
  coeff m (pmul p q)
  = Zsum (fun a => Zsum (fun b => if decide (a.1 ⊎ b.1 = m) then a.2 * b.2 else 0) q) p.
Proof. unfold coeff, pmul. by rewrite Zsum_for_for. Qed.

Lemma pmul_comm p q : pmul p q ≈ pmul q p.
Proof.
  intros m. rewrite !coeff_pmul, Zsum_swap. apply Zsum_ext. intros b _.
  apply Zsum_ext. intros a _. rewrite (comm_L (⊎) b.1 a.1), (Z.mul_comm b.2).
  done.
Qed.

#[global] Instance pmul_peq : Proper (peq ==> peq ==> peq) pmul.
Proof.
  assert (Hl : forall p p' q, p ≈ p' -> pmul p q ≈ pmul p' q).
  { intros p p' q Hp m. rewrite !coeff_pmul, !(Zsum_swap _ _ q).
    apply Zsum_ext. intros b _. rewrite !coeff_shift.
    destruct (decide (b.1 ⊆ m)); [|done]. by rewrite Hp. }
  intros p p' Hp q q' Hq. rewrite (Hl p p' q Hp).
  by rewrite (pmul_comm p' q), (Hl q q' p' Hq), (pmul_comm q' p').
Qed.

Lemma pmul_nil_l q : pmul [] q = [].
Proof. done. Qed.

Lemma pmul_cons_l a p q :
  pmul (a :: p) q = ((fun b => (a.1 ⊎ b.1, a.2 * b.2)) <$> q) ++ pmul p q.
Proof. done. Qed.

Lemma pmul_app_l p p' q : pmul (p ++ p') q = pmul p q ++ pmul p' q.
Proof.
  induction p as [|a p IH]; [done|].
  cbn [app]. by rewrite !pmul_cons_l, IH, app_assoc.
Qed.

Lemma pmul_nil_r p : pmul p [] = [].
Proof. induction p as [|a p IH]; [done|]. by rewrite pmul_cons_l, IH. Qed.

Lemma pmul_app_r p q q' : pmul p (q ++ q') ≈ pmul p q ++ pmul p q'.
Proof.
  rewrite (pmul_comm p (q ++ q')), pmul_app_l.
  by rewrite (pmul_comm q p), (pmul_comm q' p).
Qed.

Lemma pmul_row a q r :
  pmul ((fun b => (a.1 ⊎ b.1, a.2 * b.2)) <$> q) r
  = (fun c => (a.1 ⊎ c.1, a.2 * c.2)) <$> pmul q r.
Proof.
  induction q as [|b q IH]; [done|].
  rewrite fmap_cons, !pmul_cons_l, fmap_app, IH. f_equal.
  rewrite <- list_fmap_compose. apply list_fmap_ext. intros _ c _.
  unfold compose. cbn [fst snd]. by rewrite (assoc_L (⊎)), Z.mul_assoc.
Qed.

Lemma pmul_assoc p q r : pmul (pmul p q) r = pmul p (pmul q r).
Proof.
  induction p as [|a p IH]; [done|].
  by rewrite !pmul_cons_l, pmul_app_l, pmul_row, IH.
Qed.

Lemma pmul_const_l z p : pmul (pconst z) p ≈ pscale z p.
Proof.
  unfold pconst. rewrite pmul_cons_l, pmul_nil_l, app_nil_r.
  unfold pscale.
  erewrite (list_fmap_ext _ (fun a => (a.1, a.2 * z)) p); [done|].
  intros _ [m c] _. cbn [fst snd]. by rewrite (left_id_L ∅ (⊎)), Z.mul_comm.
Qed.

Lemma pmul_const_r z p : pmul p (pconst z) ≈ pscale z p.
Proof. by rewrite pmul_comm, pmul_const_l. Qed.

Lemma pscale_1 p : pscale 1 p = p.
Proof.
  unfold pscale. etrans; [|apply list_fmap_id]. apply list_fmap_ext.
  intros _ [m c] _. cbn. by rewrite Z.mul_1_r.
Qed.

Lemma pmul_1_l p : pmul (pconst 1) p ≈ p.
Proof. by rewrite pmul_const_l, pscale_1. Qed.

Lemma pmul_1_r p : pmul p (pconst 1) ≈ p.
Proof. by rewrite pmul_const_r, pscale_1. Qed.

Lemma pscale_app z p q : pscale z (p ++ q) = pscale z p ++ pscale z q.
Proof. apply fmap_app. Qed.

Lemma pscale_pscale z w p : pscale z (pscale w p) = pscale (w * z) p.
Proof.
  unfold pscale. rewrite <- list_fmap_compose. apply list_fmap_ext.
  intros _ [m c] _. cbn. by rewrite Z.mul_assoc.
Qed.

Lemma pscale_pmul_l z p q : pmul (pscale z p) q ≈ pscale z (pmul p q).
Proof.
  rewrite <- (pmul_const_l z p), <- (pmul_const_l z (pmul p q)).
  by rewrite pmul_assoc.
Qed.

Lemma pscale_pmul_r z p q : pmul p (pscale z q) ≈ pscale z (pmul p q).
Proof. by rewrite pmul_comm, pscale_pmul_l, pmul_comm. Qed.

(** A polynomial is zero when all of its coefficients are. *)
Lemma peq_nil_zero p : p ≈ [] <-> forall m, coeff m p = 0.
Proof. done. Qed.

Lemma pscale_0 p : pscale 0 p ≈ [].
Proof. intros m. rewrite coeff_pscale, coeff_nil. lia. Qed.

Lemma padd_neg p : p ++ pscale (-1) p ≈ [].
Proof. intros m. rewrite coeff_app, coeff_pscale, coeff_nil. lia. Qed.

(** ** The polynomial of a forest sum *)

(** The canonical forms of the trees of a forest, the void trees left out. *)
Definition creps (ts : list Tree) : list rep := sorted_rep <$> omap list_repr ts.

(** The monomial of a forest. *)
Definition fmono (f : Forest) : mono := list_to_set_disj (creps (tree_list f)).

Definition dterms (l : list (Forest * Z)) : poly := (fun fc => (fmono fc.1, fc.2)) <$> l.

(** The polynomial of a forest sum. *)
Definition den (s : ForestSum) : poly := dterms (terms s).

(** The polynomial of a value. *)
Definition den_value (v : value) : poly :=
  match v with
  | VInt z => pconst z
  | VTree t => [(fmono (mkForest [t]), 1)]
  | VForest f => [(fmono f, 1)]
  | VSum s => den s
  end.

Lemma creps_app ts ts' : creps (ts ++ ts') = creps ts ++ creps ts'.
Proof. unfold creps. by rewrite omap_app, fmap_app. Qed.

Lemma creps_filter ts : creps (filter (fun t => list_repr t <> None) ts) = creps ts.
Proof.
  unfold creps. f_equal. induction ts as [|[[r|]] ts IH]; [done| |].
  - rewrite filter_cons_True by done. cbn. by rewrite IH.
  - rewrite filter_cons_False by (cbn; tauto). cbn. exact IH.
Qed.

Lemma fmono_reduce f : fmono (Forest_reduce f) = fmono f.
Proof.
  unfold Forest_reduce, fmono. destruct (decide _); [done|].
  pose proof (creps_filter (tree_list f)) as Hf.
  destruct (filter _ (tree_list f)) as [|t ts] eqn:Hfl.
  - by rewrite <- Hf.
  - destruct (decide _); [done|]. cbn [tree_list]. by rewrite Hf.
Qed.

Lemma fmono_app ts ts' :
  fmono (mkForest (ts ++ ts')) = fmono (mkForest ts) ⊎ fmono (mkForest ts').
Proof. unfold fmono. cbn [tree_list]. by rewrite creps_app, list_to_set_disj_app. Qed.

Lemma dterms_app l l' : dterms (l ++ l') = dterms l ++ dterms l'.
Proof. apply fmap_app. Qed.

Lemma terms_of_terms l : terms (of_terms l) = l.
Proof. unfold terms, of_terms. cbn. apply zip_fst_snd. Qed.

(** The multiset of the dictionary keys of the trees of a list. *)
Definition key_multiset (ts : list Tree) : gmultiset (option rep) :=
  list_to_set_disj (Tree_sorted_list_repr <$> ts).

Lemma count_by_multiplicity x ts :
  count_by Tree_equals x ts = multiplicity (Tree_sorted_list_repr x) (key_multiset ts).
Proof.
  unfold key_multiset. induction ts as [|y ts IH]; [done|].
  rewrite fmap_cons, list_to_set_disj_cons, multiplicity_disj_union,
    multiplicity_singleton. cbn [count_by]. rewrite IH. unfold Tree_equals.
  destruct (decide (Tree_sorted_list_repr x = Tree_sorted_list_repr y)) as [He|Hne].
  - by rewrite He, bool_decide_eq_true_2.
  - rewrite bool_decide_eq_false_2; [done|]. congruence.
Qed.

Lemma Counter_eqb_key_multiset ts ts' :
  Counter_eqb Tree_equals ts ts' = true <-> key_multiset ts = key_multiset ts'.
Proof.
  unfold Counter_eqb. rewrite <- Is_true_true, forallb_True, Forall_forall. split.
  - intros H. apply gmultiset_eq. intros k.
    destruct (decide (k ∈ Tree_sorted_list_repr <$> ts ++ ts')) as [Hin|Hnin].
    + apply list_elem_of_fmap in Hin as (x & -> & Hx).
      specialize (H x Hx).
      apply Is_true_true, Nat.eqb_eq in H. by rewrite !count_by_multiplicity in H.
    + rewrite fmap_app, elem_of_app in Hnin.
      unfold key_multiset.
      rewrite !(proj1 (not_elem_of_multiplicity k _)); [done|..];
        rewrite elem_of_list_to_set_disj; tauto.
  - intros H x _. apply Is_true_true, Nat.eqb_eq.
    by rewrite !count_by_multiplicity, H.
Qed.

Lemma multiplicity_Some_key k ts :
  multiplicity (Some k) (key_multiset ts)
  = multiplicity k (list_to_set_disj (creps ts) : mono).
Proof.
  unfold key_multiset, creps. induction ts as [|[[r|]] ts IH]; [done| |].
  - rewrite fmap_cons. cbn [omap list_omap list_repr]. rewrite fmap_cons.
    rewrite !list_to_set_disj_cons, !multiplicity_disj_union, IH.
    rewrite !multiplicity_singleton. f_equal.
    unfold Tree_sorted_list_repr. cbn.
    destruct (decide (k = sorted_rep r)) as [->|Hne].
    + by rewrite decide_True.
    + rewrite decide_False; [done|]. congruence.
  - rewrite fmap_cons. cbn [omap list_omap list_repr].
    rewrite list_to_set_disj_cons, multiplicity_disj_union, IH.
    by rewrite multiplicity_singleton_ne.
Qed.

Lemma multiplicity_None_nonvoid ts :
  Forall (fun t => list_repr t <> None) ts -> multiplicity None (key_multiset ts) = 0%nat.
Proof.
  unfold key_multiset. induction 1 as [|[[r|]] ts Ht _ IH]; [done| |done].
  rewrite fmap_cons, list_to_set_disj_cons, multiplicity_disj_union, IH.
  by rewrite multiplicity_singleton_ne.
Qed.

Lemma filter_length_eq {A} (P : A -> Prop) `{!forall x, Decision (P x)} (l : list A) :
  length (filter P l) = length l -> filter P l = l.
Proof.
  induction l as [|x l IH]; [done|]. destruct (decide (P x)).
  - rewrite filter_cons_True by done. cbn. intros [= Hl]. by rewrite IH.
  - rewrite filter_cons_False by done. cbn. intros Hl.
    pose proof (length_filter P l). lia.
Qed.

Lemma fmono_empty_iff f : fmono f = ∅ <-> creps (tree_list f) = [].
Proof.
  unfold fmono. split; [|by intros ->].
  destruct (creps (tree_list f)) as [|x l]; [done|].
  rewrite list_to_set_disj_cons. multiset_solver.
Qed.

Lemma creps_nonvoid_cons t ts : list_repr t <> None -> creps (t :: ts) <> [].
Proof. destruct t as [[r|]]; done. Qed.

(** In a reduced forest the void tree occurs once when the forest has no
    other tree, and not at all otherwise. *)
Lemma reduce_voids f :
  tree_list f <> [] ->
  multiplicity None (key_multiset (tree_list (Forest_reduce f)))
  = if decide (fmono f = ∅) then 1%nat else 0%nat.
Proof.
  intros Hwf. unfold Forest_reduce. destruct (decide _) as [Hlen|Hlen].
  - destruct f as [[|t [|t' ts]]]; [done| |cbn in Hlen; lia].
    destruct t as [[r|]].
    + rewrite multiplicity_None_nonvoid by (by repeat constructor).
      rewrite decide_False; [done|].
      rewrite fmono_empty_iff. by apply creps_nonvoid_cons.
    + rewrite decide_True by (by rewrite fmono_empty_iff).
      unfold key_multiset. cbn [tree_list].
      rewrite fmap_cons, list_to_set_disj_cons, multiplicity_disj_union.
      by rewrite multiplicity_singleton_eq.
  - pose proof (creps_filter (tree_list f)) as Hf.
    destruct (filter _ (tree_list f)) as [|t ts] eqn:Hfl.
    + rewrite decide_True; [done|]. rewrite fmono_empty_iff. by rewrite <- Hf.
    + assert (Hnv : Forall (fun t => list_repr t <> None) (t :: ts)).
      { rewrite <- Hfl. apply Forall_forall. by intros x [? _]%list_elem_of_filter. }
      assert (Hne : fmono f <> ∅).
      { rewrite fmono_empty_iff, <- Hf. apply creps_nonvoid_cons.
        by apply Forall_cons in Hnv as [? _]. }
      destruct (decide (length (t :: ts) = _)) as [Heq|Hneq]; cbn [tree_list].
      * rewrite <- Hfl in Heq. apply filter_length_eq in Heq.
        rewrite <- Heq, Hfl, decide_False by done.
        by apply multiplicity_None_nonvoid.
      * rewrite decide_False by done. by apply multiplicity_None_nonvoid.
Qed.

Lemma Forest_equals_fmono f g : Forest_equals f g = true -> fmono f = fmono g.
Proof.
  unfold Forest_equals. rewrite Counter_eqb_key_multiset. intros H.
  rewrite <- (fmono_reduce f), <- (fmono_reduce g). apply gmultiset_eq. intros k.
  unfold fmono. by rewrite <- !multiplicity_Some_key, H.
Qed.

Lemma fmono_Forest_equals f g :
  tree_list f <> [] -> tree_list g <> [] ->
  fmono f = fmono g -> Forest_equals f g = true.
Proof.
  intros Hf Hg H. unfold Forest_equals. rewrite Counter_eqb_key_multiset.
  apply gmultiset_eq. intros [k|].
  - rewrite !multiplicity_Some_key. fold (fmono (Forest_reduce f)).
    fold (fmono (Forest_reduce g)). by rewrite !fmono_reduce, H.
  - by rewrite !reduce_voids, H.
Qed.

(** ** Reduction keeps the polynomial *)

Lemma dterms_cons fc l : dterms (fc :: l) = (fmono fc.1, fc.2) :: dterms l.
Proof. done. Qed.

Lemma dterms_collect_term f c acc :
  dterms (collect_term f c acc) ≈ dterms acc ++ [(fmono f, c)].
Proof.
  induction acc as [|[f2 c2] acc IH]; [done|]. cbn [collect_term].
  destruct (Forest_equals f f2) eqn:He.
  - apply Forest_equals_fmono in He. intros m.
    rewrite !dterms_cons, coeff_app, !coeff_cons, coeff_nil. cbn [fst snd].
    rewrite He. destruct (decide (fmono f2 = m)); lia.
  - rewrite !dterms_cons. intros m. rewrite coeff_cons, (IH m).
    cbn [app]. by rewrite coeff_cons.
Qed.

Lemma dterms_collect_terms_acc l acc :
  dterms (fold_left (fun acc fc => collect_term (Forest_reduce fc.1) fc.2 acc) l acc)
  ≈ dterms acc ++ dterms l.
Proof.
  revert acc. induction l as [|fc l IH]; intros acc; [by rewrite app_nil_r|].
  cbn [fold_left]. rewrite IH, dterms_collect_term, fmono_reduce, dterms_cons.
  by rewrite <- app_assoc.
Qed.

Lemma dterms_collect_terms l : dterms (collect_terms l) ≈ dterms l.
Proof. unfold collect_terms. by rewrite dterms_collect_terms_acc. Qed.

Lemma dterms_filter_nonzero l :
  dterms (filter (fun fc => fc.2 <> 0) l) ≈ dterms l.
Proof.
  induction l as [|[f c] l IH]; [done|]. destruct (decide (c = 0)) as [->|Hc].
  - rewrite filter_cons_False by (cbn; tauto). rewrite IH, dterms_cons.
    intros m. rewrite coeff_cons. cbn. by destruct (decide _).
  - rewrite filter_cons_True by done. rewrite !dterms_cons. intros m.
    by rewrite !coeff_cons, (IH m).
Qed.

Lemma den_ZERO : den ZERO_FOREST_SUM ≈ [].
Proof. intros m. cbn. by destruct (decide _). Qed.

(** [reduce] does not change the polynomial of a forest sum. *)
Lemma den_reduce s : den (ForestSum_reduce s) ≈ den s.
Proof.
  unfold ForestSum_reduce. cbn zeta.
  pose proof (dterms_filter_nonzero (collect_terms (terms s))) as H.
  rewrite dterms_collect_terms in H. fold (den s) in H.
  destruct (filter _ (collect_terms (terms s))) as [|fc l].
  - by rewrite den_ZERO, <- H.
  - unfold den. by rewrite terms_of_terms.
Qed.

(** ** The normal form of a reduced forest sum *)

(** A forest as the class builds it: the tuple of its trees is not empty. *)
Definition wf_forest (f : Forest) : Prop := tree_list f <> [].

Lemma wf_forest_reduce f : wf_forest f -> wf_forest (Forest_reduce f).
Proof.
  unfold wf_forest, Forest_reduce. intros Hf. destruct (decide _); [done|].
  destruct (filter _ (tree_list f)) as [|t ts]; [done|].
  by destruct (decide _).
Qed.

Lemma collect_term_fst f c acc :
  wf_forest f -> Forall (fun fc => wf_forest fc.1) acc ->
  NoDup (fmono <$> acc.*1) ->
  Forall (fun fc => wf_forest fc.1) (collect_term f c acc)
  /\ NoDup (fmono <$> (collect_term f c acc).*1).
Proof.
  intros Hf. induction acc as [|[f2 c2] acc IH]; intros Hwf Hnd.
  - cbn. split; [by repeat constructor|]. apply NoDup_singleton.
  - apply Forall_cons in Hwf as [Hf2 Hwf].
    rewrite !fmap_cons in Hnd. apply NoDup_cons in Hnd as [Hnin Hnd]. cbn [fst] in *.
    cbn [collect_term]. destruct (Forest_equals f f2) eqn:He.
    + split; [by constructor|]. rewrite !fmap_cons. by apply NoDup_cons.
    + destruct (IH Hwf Hnd) as [IH1 IH2]. split; [by constructor|].
      rewrite !fmap_cons. apply NoDup_cons. split; [|done]. cbn [fst].
      clear IH IH1 IH2 Hnd. intros Hin. apply Hnin. clear Hnin.
      induction acc as [|[f3 c3] acc IH]; cbn [collect_term] in Hin.
      * cbn in Hin. apply list_elem_of_singleton in Hin.
        rewrite fmono_Forest_equals in He; [done|done|done|by symmetry].
      * apply Forall_cons in Hwf as [Hf3 Hwf].
        destruct (Forest_equals f f3) eqn:He3; [done|].
        rewrite !fmap_cons in Hin |- *. cbn [fst] in *.
        apply elem_of_cons in Hin as [->|Hin]; [left|right; by apply IH].
Qed.

Lemma collect_terms_fst l :
  Forall (fun fc => wf_forest fc.1) l ->
  Forall (fun fc => wf_forest fc.1) (collect_terms l)
  /\ NoDup (fmono <$> (collect_terms l).*1).
Proof.
  unfold collect_terms. intros Hl.
  assert (Hacc : Forall (fun fc : Forest * Z => wf_forest fc.1) []
                 /\ NoDup (fmono <$> ([] : list (Forest * Z)).*1)).
  { split; [constructor|apply NoDup_nil_2]. }
  revert Hacc. generalize ([] : list (Forest * Z)) as acc.
  induction Hl as [|fc l Hfc _ IH]; intros acc Hacc; [done|].
  cbn [fold_left]. apply IH. destruct Hacc.
  apply collect_term_fst; [by apply wf_forest_reduce|done..].
Qed.

(** The terms that [reduce] keeps: forests with pairwise different
    monomials, none with coefficient zero. *)
Definition normal (l : list (Forest * Z)) : Prop :=
  NoDup (fmono <$> l.*1) /\ Forall (fun fc => wf_forest fc.1 /\ fc.2 <> 0) l.

(** The terms of [s] that [reduce] collects and keeps. *)
Definition kept_terms (s : ForestSum) : list (Forest * Z) :=
  filter (fun fc => fc.2 <> 0) (collect_terms (terms s)).

Lemma NoDup_fmap_filter {A B} (g : A -> B) (P : A -> Prop)
    `{!forall x, Decision (P x)} (l : list A) :
  NoDup (g <$> l) -> NoDup (g <$> filter P l).
Proof.
  induction l as [|x l IH]; [done|]. rewrite fmap_cons. intros [Hx Hl]%NoDup_cons.
  destruct (decide (P x)).
  - rewrite filter_cons_True by done. rewrite fmap_cons. apply NoDup_cons.
    split; [|by apply IH]. intros Hin. apply Hx.
    apply list_elem_of_fmap in Hin as (y & -> & [_ Hy]%list_elem_of_filter).
    by apply list_elem_of_fmap_2.
  - rewrite filter_cons_False by done. by apply IH.
Qed.

Lemma terms_fst_wf s :
  Forall wf_forest (forest_list s) -> Forall (fun fc => wf_forest fc.1) (terms s).
Proof.
  unfold terms. intros Hs. generalize (coeff_list s).
  induction Hs as [|f fl Hf _ IH]; intros [|c cl]; cbn; try constructor; auto.
Qed.

Lemma kept_terms_normal s : Forall wf_forest (forest_list s) -> normal (kept_terms s).
Proof.
  intros Hs. destruct (collect_terms_fst (terms s) (terms_fst_wf s Hs)) as [Hwf Hnd].
  unfold kept_terms. split.
  - rewrite <- list_fmap_compose. apply NoDup_fmap_filter.
    by rewrite list_fmap_compose.
  - apply Forall_forall. intros fc [Hc Hin]%list_elem_of_filter.
    rewrite Forall_forall in Hwf. split; [by apply Hwf|done].
Qed.

Lemma dterms_kept_terms s : dterms (kept_terms s) ≈ den s.
Proof. unfold kept_terms. by rewrite dterms_filter_nonzero, dterms_collect_terms. Qed.

Lemma terms_reduce s :
  terms (ForestSum_reduce s)
  = match kept_terms s with [] => [(EMPTY_FOREST, 0)] | _ :: _ => kept_terms s end.
Proof.
  unfold ForestSum_reduce. cbn zeta. fold (kept_terms s).
  destruct (kept_terms s) as [|fc l]; [done|]. by rewrite terms_of_terms.
Qed.

Lemma coeff_notin m l : m ∉ fmono <$> l.*1 -> coeff m (dterms l) = 0.
Proof.
  induction l as [|[f c] l IH]; [done|]. rewrite !fmap_cons, not_elem_of_cons.
  intros [Hm Hl]. rewrite dterms_cons, coeff_cons, IH by done. cbn [fst snd] in *.
  by rewrite decide_False.
Qed.

Lemma normal_cons fc l :
  normal (fc :: l) ->
  (fmono fc.1 ∉ fmono <$> l.*1) /\ wf_forest fc.1 /\ fc.2 <> 0 /\ normal l.
Proof.
  intros [Hnd Hall]. rewrite !fmap_cons in Hnd.
  apply NoDup_cons in Hnd as [Hnin Hnd]. apply Forall_cons in Hall as [[Hwf Hc] Hall].
  done.
Qed.

Lemma normal_coeff_in l f c :
  normal l -> (f, c) ∈ l -> coeff (fmono f) (dterms l) = c.
Proof.
  induction l as [|[g d] l IH]; intros Hn Hin; [by apply elem_of_nil in Hin|].
  apply normal_cons in Hn as (Hnin & Hwf & Hd & Hn). cbn [fst snd] in *.
  rewrite dterms_cons, coeff_cons. cbn [fst snd].
  apply elem_of_cons in Hin as [[= -> ->]|Hin].
  - rewrite decide_True by done. rewrite coeff_notin by done. lia.
  - rewrite decide_False, IH; [done..|].
    intros He. apply Hnin. rewrite He.
    apply list_elem_of_fmap_2. by apply (list_elem_of_fmap_2 fst _ (f, c)).
Qed.

Lemma normal_nil l : normal l -> dterms l ≈ [] -> l = [].
Proof.
  destruct l as [|[f c] l]; [done|]. intros Hn H.
  pose proof (normal_coeff_in _ f c Hn ltac:(left)) as Hc.
  rewrite (H (fmono f)), coeff_nil in Hc.
  apply normal_cons in Hn as (_ & _ & Hd & _). cbn in Hd. congruence.
Qed.

(** How often a term occurs, as a key, among normal terms. *)
Lemma count_by_term_normal l f c :
  normal l -> wf_forest f ->
  count_by term_eqb (f, c) l
  = if bool_decide (c <> 0 /\ coeff (fmono f) (dterms l) = c) then 1%nat else 0%nat.
Proof.
  intros Hn Hf. induction l as [|[g d] l IH].
  { cbn [count_by]. change (dterms []) with ([] : poly). rewrite coeff_nil.
    rewrite bool_decide_eq_false_2; [done|]. intros [? ?]. lia. }
  apply normal_cons in Hn as (Hnin & Hwf & Hd & Hn). cbn [fst snd] in *.
  cbn [count_by]. rewrite IH by done. rewrite dterms_cons, coeff_cons. cbn [fst snd].
  unfold term_eqb. cbn [fst snd].
  destruct (decide (fmono g = fmono f)) as [He|Hne].
  - rewrite (fmono_Forest_equals g f) by done. rewrite <- He, coeff_notin by done.
    rewrite (bool_decide_eq_false_2 (c <> 0 /\ 0 = c)) by (intros [? ?]; lia).
    cbn [andb]. destruct (Z.eqb_spec d c) as [->|Hdc].
    + rewrite bool_decide_eq_true_2; [done|]. split; [done|lia].
    + rewrite bool_decide_eq_false_2; [done|]. intros [? ?]. lia.
  - destruct (Forest_equals g f) eqn:Hgf.
    { by apply Forest_equals_fmono in Hgf. }
    cbn [andb]. by rewrite Z.add_0_l.
Qed.

Lemma Counter_eqb_refl {A} (eqb : A -> A -> bool) l : Counter_eqb eqb l l = true.
Proof.
  unfold Counter_eqb. apply forallb_forall. intros x _. apply Nat.eqb_refl.
Qed.

Lemma Counter_eqb_true {A} (eqb : A -> A -> bool) l l' :
  Counter_eqb eqb l l' = true
  <-> forall x, x ∈ l ++ l' -> count_by eqb x l = count_by eqb x l'.
Proof.
  unfold Counter_eqb. rewrite <- Is_true_true, forallb_True, Forall_forall.
  apply forall_proper. intros x. apply forall_proper. intros _.
  by rewrite Is_true_true, Nat.eqb_eq.
Qed.

Lemma normal_wf_in l x : normal l -> x ∈ l -> wf_forest x.1.
Proof.
  intros [_ Hall] Hin. rewrite Forall_forall in Hall. by apply Hall.
Qed.

Lemma count_by_normal_in l x : normal l -> x ∈ l -> count_by term_eqb x l = 1%nat.
Proof.
  intros Hn Hin. destruct x as [f c].
  rewrite count_by_term_normal; [|done|by apply (normal_wf_in l (f, c))].
  rewrite bool_decide_eq_true_2; [done|]. split.
  - destruct Hn as [_ Hall]. rewrite Forall_forall in Hall. by apply (Hall (f, c)).
  - by apply normal_coeff_in.
Qed.

Lemma normal_count_peq l l' :
  normal l -> normal l' ->
  (forall x, x ∈ l ++ l' -> count_by term_eqb x l = count_by term_eqb x l') ->
  dterms l ≈ dterms l'.
Proof.
  intros Hn Hn' H m.
  assert (Hone : forall k k', normal k -> normal k' ->
            (forall x, x ∈ k -> count_by term_eqb x k = count_by term_eqb x k') ->
            m ∈ fmono <$> k.*1 -> coeff m (dterms k) = coeff m (dterms k')).
  { intros k k' Hk Hk' Hc Hin.
    apply list_elem_of_fmap in Hin as (f & -> & Hin).
    apply list_elem_of_fmap in Hin as ([f' c] & -> & Hin). cbn [fst].
    rewrite (normal_coeff_in k f' c) by done.
    pose proof (Hc _ Hin) as Hcount. rewrite count_by_normal_in in Hcount by done.
    rewrite count_by_term_normal in Hcount; [|done|by apply (normal_wf_in k (f', c))].
    destruct (bool_decide_reflect (c <> 0 /\ coeff (fmono f') (dterms k') = c))
      as [[_ Heq]|]; [done|discriminate]. }
  destruct (decide (m ∈ fmono <$> l.*1)) as [Hin|Hnin].
  { apply Hone; [done..| |done]. intros x Hx. apply H, elem_of_app. by left. }
  destruct (decide (m ∈ fmono <$> l'.*1)) as [Hin'|Hnin'].
  { symmetry. apply Hone; [done..| |done]. intros x Hx. symmetry.
    apply H, elem_of_app. by right. }
  by rewrite !coeff_notin.
Qed.

(** [ForestSum.__eq__] on two forest sums: they are equal exactly when they
    have the same polynomial. *)
Lemma ForestSum_equals_den s s' :
  Forall wf_forest (forest_list s) -> Forall wf_forest (forest_list s') ->
  ForestSum_equals s s' = true <-> den s ≈ den s'.
Proof.
  intros Hs Hs'. unfold ForestSum_equals. rewrite !terms_reduce.
  pose proof (kept_terms_normal s Hs) as Hn.
  pose proof (kept_terms_normal s' Hs') as Hn'.
  rewrite <- (dterms_kept_terms s), <- (dterms_kept_terms s').
  destruct (kept_terms s) as [|x l] eqn:Hk; destruct (kept_terms s') as [|x' l'] eqn:Hk'.
  - by rewrite Counter_eqb_refl.
  - split.
    + rewrite Counter_eqb_true. intros H.
      specialize (H x' ltac:(rewrite elem_of_app; right; left)).
      rewrite (count_by_normal_in (x' :: l') x') in H by (done || left).
      apply normal_cons in Hn' as (_ & _ & Hc & _).
      cbn in H. unfold term_eqb in H. cbn [fst snd] in H.
      destruct (Z.eqb_spec 0 x'.2); [congruence|].
      rewrite andb_false_r in H. discriminate.
    + intros H. symmetry in H. by apply normal_nil in H.
  - split.
    + rewrite Counter_eqb_true. intros H.
      specialize (H x ltac:(rewrite elem_of_app; left; left)).
      rewrite (count_by_normal_in (x :: l) x) in H by (done || left).
      apply normal_cons in Hn as (_ & _ & Hc & _).
      cbn in H. unfold term_eqb in H. cbn [fst snd] in H.
      destruct (Z.eqb_spec 0 x.2); [congruence|].
      rewrite andb_false_r in H. discriminate.
    + intros H. by apply normal_nil in H.
  - rewrite Counter_eqb_true. split.
    + by apply normal_count_peq.
    + intros H [f c] Hin. rewrite !count_by_term_normal; try done.
      * by rewrite (H (fmono f)).
      * apply elem_of_app in Hin as [Hin|Hin];
          [apply (normal_wf_in _ _ Hn Hin)|apply (normal_wf_in _ _ Hn' Hin)].
      * apply elem_of_app in Hin as [Hin|Hin];
          [apply (normal_wf_in _ _ Hn Hin)|apply (normal_wf_in _ _ Hn' Hin)].
Qed.

(** A sum without terms of its polynomial reduces to the zero forest sum. *)
Lemma reduce_zero s :
  Forall wf_forest (forest_list s) -> den s ≈ [] ->
  ForestSum_reduce s = ZERO_FOREST_SUM.
Proof.
  intros Hs H. pose proof (kept_terms_normal s Hs) as Hn.
  rewrite <- (dterms_kept_terms s) in H. apply normal_nil in H; [|done].
  unfold ForestSum_reduce. cbn zeta. fold (kept_terms s). by rewrite H.
Qed.

(** ** The operations on polynomials that the arithmetic computes *)

(** A forest sum as the class builds it: as many coefficients as forests
    (the check of [__post_init__]), and no forest without trees. *)
Definition wf_ForestSum (s : ForestSum) : Prop :=
  wf_sum s /\ Forall wf_forest (forest_list s).

Definition wf_value (v : value) : Prop :=
  match v with
  | VForest f => wf_forest f
  | VSum s => wf_ForestSum s
  | _ => True
  end.

Lemma den_mk fl cl : den (mkForestSum fl cl) = dterms (zip fl cl).
Proof. done. Qed.

Lemma dterms_zip_fmap_l (g : Forest -> Forest) fl cl :
  dterms (zip (g <$> fl) cl) = (fun a => (fmono (g a.1), a.2)) <$> zip fl cl.
Proof.
  revert cl. induction fl as [|f fl IH]; intros [|c cl]; [done..|].
  cbn. f_equal. apply IH.
Qed.

Lemma dterms_zip_fmap_r (h : Z -> Z) fl cl :
  dterms (zip fl (h <$> cl)) = (fun a => (fmono a.1, h a.2)) <$> zip fl cl.
Proof.
  revert cl. induction fl as [|f fl IH]; intros [|c cl]; [done..|].
  cbn. f_equal. apply IH.
Qed.

Lemma zip_for_for {A B A' B' C C'} (g : A -> B -> C) (h : A' -> B' -> C')
    (xs : list A) (cs : list A') (ys : list B) (ds : list B') :
  length ys = length ds ->
  zip (for_for g xs ys) (for_for h cs ds)
  = for_for (fun a b => (g a.1 b.1, h a.2 b.2)) (zip xs cs) (zip ys ds).
Proof.
  intros Hl. revert cs. induction xs as [|x xs IH]; intros [|c cs]; [done| done | |].
  - change (for_for h [] ds) with ([] : list C'). by rewrite zip_with_nil_r.
  - rewrite !for_for_cons. cbn [zip_with]. rewrite for_for_cons.
    rewrite zip_with_app by (by rewrite !length_fmap).
    f_equal; [|apply IH]. cbn [fst snd].
    clear IH. revert ds Hl. induction ys as [|y ys IH]; intros [|d ds] Hl; [done..|].
    cbn. f_equal. apply IH. cbn in Hl. lia.
Qed.

Lemma pmul_mono_l m q : pmul [(m, 1)] q = (fun b => (m ⊎ b.1, b.2)) <$> q.
Proof.
  rewrite pmul_cons_l, pmul_nil_l, app_nil_r. cbn [fst snd].
  apply list_fmap_ext. intros _ [m' z] _. cbn. f_equal. lia.
Qed.

Lemma pmul_mono_r p m : pmul p [(m, 1)] = (fun a => (a.1 ⊎ m, a.2)) <$> p.
Proof.
  induction p as [|[m' z] p IH]; [done|]. rewrite pmul_cons_l, IH. cbn.
  f_equal. f_equal. lia.
Qed.

Lemma fmono_cons t ts : fmono (mkForest (t :: ts)) = fmono (mkForest [t]) ⊎ fmono (mkForest ts).
Proof. apply (fmono_app [t] ts). Qed.

Lemma fmono_Forest_mul_Forest f g ar :
  fmono (Forest_mul_Forest f g ar) = fmono f ⊎ fmono g.
Proof.
  unfold Forest_mul_Forest. destruct ar; [rewrite fmono_reduce|]; rewrite fmono_app;
    by destruct f, g.
Qed.

Lemma fmono_Forest_mul_Tree f t ar :
  fmono (Forest_mul_Tree f t ar) = fmono f ⊎ fmono (mkForest [t]).
Proof.
  unfold Forest_mul_Tree. destruct ar; [rewrite fmono_reduce|]; rewrite fmono_app;
    by destruct f.
Qed.

Lemma fmono_Tree_mul_Forest t f ar :
  fmono (Tree_mul_Forest t f ar) = fmono (mkForest [t]) ⊎ fmono f.
Proof.
  unfold Tree_mul_Forest. destruct ar; [rewrite fmono_reduce|]; rewrite fmono_cons;
    by destruct f.
Qed.

Lemma fmono_EMPTY_FOREST : fmono EMPTY_FOREST = ∅.
Proof. done. Qed.

Lemma den_value_reduce v : den_value (reduce_value v) ≈ den_value v.
Proof.
  destruct v as [z|t|f|s]; cbn [reduce_value den_value]; [done..| |apply den_reduce].
  by rewrite fmono_reduce.
Qed.

Lemma den_value_reduce_if ar v : den_value (reduce_if ar v) ≈ den_value v.
Proof. destruct ar; [apply den_value_reduce|done]. Qed.

Lemma peq_eq (p q : poly) : p = q -> p ≈ q.
Proof. by intros ->. Qed.

Lemma den_Tree_mul t o ar :
  wf_value o ->
  den_value (Tree_mul t o ar) ≈ pmul (den_value (VTree t)) (den_value o).
Proof.
  intros Ho. destruct o as [z|o|o|o]; cbn [Tree_mul den_value].
  - rewrite den_value_reduce_if. cbn [den_value]. rewrite pmul_mono_l. cbn.
    by rewrite (right_id ∅ (⊎)).
  - rewrite den_value_reduce_if. cbn [den_value]. rewrite pmul_mono_l. cbn [fmap list_fmap fst snd].
    by rewrite (fmono_cons t [o]).
  - by rewrite pmul_mono_l, fmono_Tree_mul_Forest.
  - rewrite den_value_reduce_if. cbn [den_value]. rewrite pmul_mono_l, den_mk.
    rewrite dterms_zip_fmap_l. unfold den, dterms, terms.
    rewrite <- list_fmap_compose. apply peq_eq.
    apply list_fmap_ext. intros _ [f c] _. unfold compose. cbn [fst snd]. by rewrite fmono_Tree_mul_Forest.
Qed.

Lemma den_Forest_mul f o ar :
  wf_value o ->
  den_value (Forest_mul f o ar) ≈ pmul (den_value (VForest f)) (den_value o).
Proof.
  intros Ho. destruct o as [z|o|o|o]; cbn [Forest_mul den_value].
  - rewrite den_value_reduce_if. cbn [den_value]. rewrite pmul_mono_l. cbn.
    by rewrite (right_id ∅ (⊎)).
  - by rewrite pmul_mono_l, fmono_Forest_mul_Tree.
  - by rewrite pmul_mono_l, fmono_Forest_mul_Forest.
  - rewrite den_value_reduce_if. cbn [den_value]. rewrite pmul_mono_l, den_mk.
    rewrite dterms_zip_fmap_l. unfold den, dterms, terms.
    rewrite <- list_fmap_compose. apply peq_eq.
    apply list_fmap_ext. intros _ [g c] _. unfold compose. cbn [fst snd]. by rewrite fmono_Forest_mul_Forest.
Qed.

Lemma den_ForestSum_mul s o ar :
  wf_value o ->
  den (ForestSum_mul s o ar) ≈ pmul (den s) (den_value o).
Proof.
  intros Ho. unfold ForestSum_mul.
  match goal with |- den (if ar then ForestSum_reduce ?x else ?x) ≈ _ =>
    trans (den x); [destruct ar; [apply den_reduce|done]|] end.
  destruct o as [z|o|o|o]; cbn [den_value]; rewrite den_mk.
  - rewrite pmul_const_r, dterms_zip_fmap_r. unfold den, pscale, dterms, terms.
    rewrite <- list_fmap_compose. apply peq_eq.
    apply list_fmap_ext. by intros _ [f c] _.
  - rewrite pmul_mono_r, dterms_zip_fmap_l. unfold den, dterms, terms.
    rewrite <- list_fmap_compose. apply peq_eq.
    apply list_fmap_ext. intros _ [f c] _. unfold compose. cbn [fst snd]. by rewrite fmono_Forest_mul_Tree.
  - rewrite pmul_mono_r, dterms_zip_fmap_l. unfold den, dterms, terms.
    rewrite <- list_fmap_compose. apply peq_eq.
    apply list_fmap_ext. intros _ [f c] _. unfold compose. cbn [fst snd]. by rewrite fmono_Forest_mul_Forest.
  - destruct Ho as [Hl _]. rewrite zip_for_for by exact Hl.
    unfold den, pmul, dterms, terms. symmetry. apply peq_eq.
    apply for_for_fmap. intros [f c] [g d]. unfold compose. cbn [fst snd]. by rewrite fmono_Forest_mul_Forest.
Qed.

(** [_mul] multiplies the polynomials of its operands, reduced or not. *)
Lemma den_mul v w ar :
  wf_value v -> wf_value w ->
  den_value (_mul v w ar) ≈ pmul (den_value v) (den_value w).
Proof.
  intros Hv Hw. destruct v as [a|t|f|s].
  - destruct w as [b|t|f|s]; unfold _mul.
    + cbn [den_value]. rewrite pmul_const_l. apply peq_eq.
      unfold pscale, pconst. cbn. do 2 f_equal. lia.
    + by rewrite den_Tree_mul, pmul_comm.
    + by rewrite den_Forest_mul, pmul_comm.
    + cbn [den_value]. by rewrite den_ForestSum_mul, pmul_comm.
  - destruct w; by apply den_Tree_mul.
  - destruct w; by apply den_Forest_mul.
  - destruct w; by apply den_ForestSum_mul.
Qed.

Lemma den_Tree_add t o ar :
  wf_value o ->
  den (Tree_add t o ar) ≈ den_value (VTree t) ++ den_value o.
Proof.
  intros Ho. unfold Tree_add.
  match goal with |- den (if ar then ForestSum_reduce ?x else ?x) ≈ _ =>
    trans (den x); [destruct ar; [apply den_reduce|done]|] end.
  by destruct o.
Qed.

Lemma den_Forest_add f o ar :
  wf_value o ->
  den (Forest_add f o ar) ≈ den_value (VForest f) ++ den_value o.
Proof. intros Ho. unfold Forest_add. by destruct o. Qed.

Lemma den_ForestSum_add s o ar :
  wf_sum s -> wf_value o ->
  den (ForestSum_add s o ar) ≈ den s ++ den_value o.
Proof.
  intros Hs Ho. unfold ForestSum_add.
  match goal with |- den (if ar then ForestSum_reduce ?x else ?x) ≈ _ =>
    trans (den x); [destruct ar; [apply den_reduce|done]|] end.
  destruct o as [z|o|o|o]; cbn [den_value]; rewrite den_mk;
    rewrite zip_with_app by exact Hs; by rewrite dterms_app.
Qed.

(** [_add] adds the polynomials of its operands, reduced or not. *)
Lemma den_add v w ar :
  wf_value v -> wf_value w ->
  den_value (_add v w ar) ≈ den_value v ++ den_value w.
Proof.
  intros Hv Hw. destruct v as [a|t|f|s].
  - destruct w as [b|t|f|s]; unfold _add.
    + intros m. cbn [den_value]. unfold pconst. rewrite coeff_app, !coeff_cons, !coeff_nil.
      cbn [fst snd]. destruct (decide _); lia.
    + cbn [den_value]. rewrite den_Tree_add by done.
      apply peq_perm, Permutation_app_comm.
    + cbn [den_value]. rewrite den_Forest_add by done.
      apply peq_perm, Permutation_app_comm.
    + cbn [den_value]. rewrite den_ForestSum_add by (done || apply Hw).
      apply peq_perm, Permutation_app_comm.
  - destruct w; by apply den_Tree_add.
  - destruct w; by apply den_Forest_add.
  - destruct w; apply den_ForestSum_add; done || apply Hv.
Qed.

Lemma den_neg v : wf_value v -> den_value (neg_value v) ≈ pscale (-1) (den_value v).
Proof.
  intros Hv. destruct v as [z|t|f|s]; cbn [neg_value].
  - apply peq_eq. unfold pscale, pconst. cbn [den_value fmap list_fmap fst snd].
    by rewrite Z.opp_eq_mul_m1.
  - unfold Tree_neg. rewrite den_Tree_mul by done. apply pmul_const_r.
  - unfold Forest_neg. rewrite den_Forest_mul by done. apply pmul_const_r.
  - unfold ForestSum_neg. cbn [den_value]. rewrite den_ForestSum_mul by done.
    apply pmul_const_r.
Qed.

(** ** The arithmetic keeps forest sums well formed *)

Lemma wf_ForestSum_reduce s :
  Forall wf_forest (forest_list s) -> wf_ForestSum (ForestSum_reduce s).
Proof.
  intros Hs. pose proof (kept_terms_normal s Hs) as [_ Hn].
  unfold ForestSum_reduce. cbn zeta. fold (kept_terms s).
  destruct (kept_terms s) as [|fc l]; [by repeat constructor|].
  split.
  - unfold wf_sum, of_terms. cbn [forest_list coeff_list]. by rewrite !length_fmap.
  - unfold of_terms. cbn [forest_list]. apply Forall_fmap.
    eapply Forall_impl; [exact Hn|]. by intros x [? _].
Qed.

Lemma wf_reduce_value v : wf_value v -> wf_value (reduce_value v).
Proof.
  destruct v as [z|t|f|s]; cbn; [done..|apply wf_forest_reduce|].
  intros [_ Hs]. by apply wf_ForestSum_reduce.
Qed.

Lemma wf_reduce_if ar v : wf_value v -> wf_value (reduce_if ar v).
Proof. destruct ar; [apply wf_reduce_value|done]. Qed.

Lemma wf_ForestSum_reduce_if (ar : bool) s :
  wf_ForestSum s -> wf_ForestSum (if ar then ForestSum_reduce s else s).
Proof. destruct ar; [|done]. intros [_ Hs]. by apply wf_ForestSum_reduce. Qed.

Lemma wf_Forest_mul_Forest f g ar : wf_forest f -> wf_forest (Forest_mul_Forest f g ar).
Proof.
  intros Hf. unfold Forest_mul_Forest.
  assert (wf_forest (mkForest (tree_list f ++ tree_list g))) as H.
  { unfold wf_forest in *. cbn. by destruct (tree_list f). }
  destruct ar; [by apply wf_forest_reduce|done].
Qed.

Lemma wf_Forest_mul_Tree f t ar : wf_forest (Forest_mul_Tree f t ar).
Proof.
  unfold Forest_mul_Tree.
  assert (wf_forest (mkForest (tree_list f ++ [t]))) as H.
  { unfold wf_forest. cbn. by destruct (tree_list f). }
  destruct ar; [by apply wf_forest_reduce|done].
Qed.

Lemma wf_Tree_mul_Forest t f ar : wf_forest (Tree_mul_Forest t f ar).
Proof.
  unfold Tree_mul_Forest.
  assert (wf_forest (mkForest (t :: tree_list f))) as H by done.
  destruct ar; [by apply wf_forest_reduce|done].
Qed.

Lemma wf_Tree_mul t o ar : wf_value o -> wf_value (Tree_mul t o ar).
Proof.
  intros Ho. destruct o as [z|o|o|o]; cbn [Tree_mul].
  - apply wf_reduce_if. by repeat constructor.
  - by apply wf_reduce_if.
  - apply wf_Tree_mul_Forest.
  - apply wf_reduce_if. destruct Ho as [Hl Hf]. split.
    + unfold wf_sum. cbn. by rewrite length_fmap.
    + cbn [forest_list]. apply Forall_fmap, Forall_forall. intros x _. apply wf_Tree_mul_Forest.
Qed.

Lemma wf_Forest_mul f o ar : wf_forest f -> wf_value o -> wf_value (Forest_mul f o ar).
Proof.
  intros Hf Ho. destruct o as [z|o|o|o]; cbn [Forest_mul].
  - apply wf_reduce_if. by repeat constructor.
  - apply wf_Forest_mul_Tree.
  - by apply wf_Forest_mul_Forest.
  - apply wf_reduce_if. destruct Ho as [Hl Ho]. split.
    + unfold wf_sum. cbn. by rewrite length_fmap.
    + cbn [forest_list]. apply Forall_fmap, Forall_forall. intros x _. by apply wf_Forest_mul_Forest.
Qed.

Lemma wf_ForestSum_mul s o ar :
  wf_ForestSum s -> wf_value o -> wf_ForestSum (ForestSum_mul s o ar).
Proof.
  intros [Hl Hs] Ho. unfold ForestSum_mul. apply wf_ForestSum_reduce_if.
  destruct o as [z|o|o|o].
  - split; [|done]. unfold wf_sum. cbn. by rewrite length_fmap.
  - split; [unfold wf_sum; cbn; by rewrite length_fmap|].
    cbn [forest_list]. apply Forall_fmap, Forall_forall. intros x _. apply wf_Forest_mul_Tree.
  - split; [unfold wf_sum; cbn; by rewrite length_fmap|].
    cbn [forest_list]. apply Forall_fmap. eapply Forall_impl; [exact Hs|].
    intros x Hx. by apply wf_Forest_mul_Forest.
  - destruct Ho as [Hlo Ho]. split.
    + unfold wf_sum in *. cbn. rewrite !for_for_length. congruence.
    + cbn [forest_list]. apply Forall_forall. intros x (a & b & Ha & Hb & ->)%elem_of_for_for.
      rewrite Forall_forall in Hs. by apply wf_Forest_mul_Forest, Hs.
Qed.

Lemma wf_mul v w ar : wf_value v -> wf_value w -> wf_value (_mul v w ar).
Proof.
  intros Hv Hw. destruct v as [a|t|f|s].
  - destruct w as [b|t|f|s]; unfold _mul; [done| | |].
    + by apply wf_Tree_mul.
    + by apply wf_Forest_mul.
    + by apply wf_ForestSum_mul.
  - destruct w; by apply wf_Tree_mul.
  - destruct w; by apply wf_Forest_mul.
  - destruct w; by apply wf_ForestSum_mul.
Qed.

Lemma wf_Tree_add t o ar : wf_value o -> wf_ForestSum (Tree_add t o ar).
Proof.
  intros Ho. unfold Tree_add. apply wf_ForestSum_reduce_if.
  destruct o as [z|o|o|o]; [by repeat constructor..|].
  destruct Ho as [Hl Ho]. split; [unfold wf_sum in *; cbn; by rewrite Hl|].
  by constructor.
Qed.

Lemma wf_Forest_add f o ar : wf_forest f -> wf_value o -> wf_ForestSum (Forest_add f o ar).
Proof.
  intros Hf Ho. unfold Forest_add.
  destruct o as [z|o|o|o]; [by repeat constructor..|].
  destruct Ho as [Hl Ho]. split; [unfold wf_sum in *; cbn; by rewrite Hl|].
  by constructor.
Qed.

Lemma wf_ForestSum_add s o ar :
  wf_ForestSum s -> wf_value o -> wf_ForestSum (ForestSum_add s o ar).
Proof.
  intros [Hl Hs] Ho. unfold ForestSum_add. apply wf_ForestSum_reduce_if.
  unfold wf_sum in Hl.
  destruct o as [z|o|o|o]; (split; [unfold wf_sum; cbn; rewrite !length_app|
                                     cbn [forest_list]; apply Forall_app; split; [done|]]).
  - by rewrite Hl.
  - by repeat constructor.
  - by rewrite Hl.
  - by repeat constructor.
  - by rewrite Hl.
  - by repeat constructor.
  - destruct Ho as [Hlo _]. unfold wf_sum in Hlo. by rewrite Hl, Hlo.
  - apply Ho.
Qed.

Lemma wf_add v w ar : wf_value v -> wf_value w -> wf_value (_add v w ar).
Proof.
  intros Hv Hw. destruct v as [a|t|f|s].
  - destruct w as [b|t|f|s]; unfold _add; [done| | |].
    + by apply wf_Tree_add.
    + by apply wf_Forest_add.
    + by apply wf_ForestSum_add.
  - destruct w; by apply wf_Tree_add.
  - destruct w; by apply wf_Forest_add.
  - destruct w; by apply wf_ForestSum_add.
Qed.

Lemma wf_neg v : wf_value v -> wf_value (neg_value v).
Proof.
  intros Hv. destruct v as [z|t|f|s]; cbn [neg_value]; [done| | |].
  - by apply wf_Tree_mul.
  - by apply wf_Forest_mul.
  - by apply wf_ForestSum_mul.
Qed.

(** * The other methods of the classes *)

(** ** Joining and unjoining *)

(** [Tree.unjoin] *)
Definition Tree_unjoin (t : Tree) : Forest :=
  match list_repr t with
  | None => EMPTY_FOREST
  | Some r => mkForest ((fun c => mkTree (Some c)) <$> children_of r)
  end.

(** [Forest.join] *)
Definition Forest_join (f : Forest) : Tree :=
  mkTree (Some (Node (omap list_repr (tree_list f)))).

(** ** Counting *)

(** [Forest.num_trees] *)
Definition Forest_num_trees (f : Forest) : nat := length (tree_list f).

(** [ForestSum.nodes], [ForestSum.num_trees] and [ForestSum.num_forests] *)
Definition ForestSum_nodes (s : ForestSum) : nat :=
  sum_list_with Forest_nodes (forest_list s).

Definition ForestSum_num_trees (s : ForestSum) : nat :=
  sum_list_with Forest_num_trees (forest_list s).

Definition ForestSum_num_forests (s : ForestSum) : nat := length (forest_list s).

(** ** Powers *)

(** [Tree.__pow__]; the exponent is a Python [int]. *)
Definition Tree_pow (t : Tree) (n : Z) (apply_reduction : bool) : res value :=
  if n <? 0 then Raise ValueError
  else if n =? 0 then Ok (VTree EMPTY_TREE)
  else
    let out := mkForest (replicate (Z.to_nat n) t) in
    Ok (VForest (if apply_reduction then Forest_reduce out else out)).

(** [Forest.__pow__] *)
Definition Forest_pow (f : Forest) (n : Z) (apply_reduction : bool) : res Forest :=
  if n <? 0 then Raise ValueError
  else if n =? 0 then Ok (mkForest [mkTree None])
  else
    let out := mkForest (mjoin (replicate (Z.to_nat n) (tree_list f))) in
    Ok (if apply_reduction then Forest_reduce out else out).

(** [ForestSum.__pow__] *)
Definition ForestSum_pow (s : ForestSum) (n : Z) (apply_reduction : bool)
  : res ForestSum :=
  if n <? 0 then Raise ValueError
  else if n =? 0 then Ok (Tree_as_forest_sum (mkTree None))
  else
    let temp := Nat.iter (Z.to_nat (n - 1))
                         (fun temp => ForestSum_mul temp (VSum s) false) s in
    Ok (if apply_reduction then ForestSum_reduce temp else temp).

(** ** Signs *)

(** [Tree.sign] and [Forest.sign]: the object itself, or its negative, which
    is a forest sum. *)
Definition Tree_sign (t : Tree) : value :=
  if Nat.even (Tree_nodes t) then VTree t else Tree_neg t.

Definition Forest_sign (f : Forest) : value :=
  if Nat.even (Forest_nodes f) then VForest f else Forest_neg f.

(** [ForestSum.sign]; the loop runs over the coefficients and reads the
    forest at the same index, the two tuples having the same length by
    [__post_init__]. *)
Definition ForestSum_sign (s : ForestSum) : ForestSum :=
  mkForestSum (forest_list s)
    (zip_with (fun f c => if Nat.even (Forest_nodes f) then c else - c)
              (forest_list s) (coeff_list s)).

(** ** Factorials *)

(** [Forest.factorial] and [ForestSum.factorial] *)
Definition Forest_factorial (f : Forest) : res value :=
  Forest_apply f (fun x => Ok (VInt (Tree_factorial x))) true.

Definition ForestSum_factorial (s : ForestSum) : res value :=
  ForestSum_apply s (fun x => Ok (VInt (Tree_factorial x))) false.

(** ** Dropping single-node trees *)

(** [Forest.singleton_reduced] *)
Definition Forest_singleton_reduced (f : Forest) : Forest :=
  let out := Forest_reduce f in
  if decide (1 < length (tree_list out))%nat then
    let new_tree_list :=
      filter (fun x => list_repr x <> Some (Node [])) (tree_list out) in
    match new_tree_list with
    | [] => mkForest [SINGLETON_TREE]
    | _ :: _ => mkForest new_tree_list
    end
  else out.

(** [ForestSum.singleton_reduced] *)
Definition ForestSum_singleton_reduced (s : ForestSum) : ForestSum :=
  mkForestSum (Forest_singleton_reduced <$> forest_list s) (coeff_list s).

(** ** Subtraction and equality across the classes *)

(** [_sub]: with a scalar on the left and a tree-like object on the right
    the call is [obj2.__sub__(obj1, applyReduction)]. *)
Definition _sub (obj1 obj2 : value) (applyReduction : bool) : value :=
  match obj1, obj2 with
  | VInt a, VInt b => VInt (a - b)
  | VInt _, VTree t => VSum (Tree_sub t obj1 applyReduction)
  | VInt _, VForest f => VSum (Forest_sub f obj1 applyReduction)
  | VInt _, VSum s => VSum (ForestSum_sub s obj1 applyReduction)
  | VTree t, _ => VSum (Tree_sub t obj2 applyReduction)
  | VForest f, _ => VSum (Forest_sub f obj2 applyReduction)
  | VSum s, _ => VSum (ForestSum_sub s obj2 applyReduction)
  end.

(** [Forest.as_forest_sum] *)
Definition Forest_as_forest_sum (f : Forest) : ForestSum := mkForestSum [f] [1].

(** [other * EMPTY_TREE] on a scalar, which is [EMPTY_TREE.__rmul__(other)]
    with the default reduction. *)
Definition scalar_forest_sum (z : Z) : ForestSum :=
  ForestSum_reduce (mkForestSum [mkForest [EMPTY_TREE]] [z]).

(** [Tree.__eq__], [Forest.__eq__] and [ForestSum.__eq__] *)
Definition Tree_eq (t : Tree) (other : value) : bool :=
  match other with
  | VInt z => ForestSum_equals (Tree_as_forest_sum t) (scalar_forest_sum z)
  | VTree o => Tree_equals t o
  | VForest o => Forest_equals (Tree_as_forest t) o
  | VSum o => ForestSum_equals (Tree_as_forest_sum t) o
  end.

Definition Forest_eq (f : Forest) (other : value) : bool :=
  match other with
  | VInt z => ForestSum_equals (Forest_as_forest_sum f) (scalar_forest_sum z)
  | VTree o => Forest_equals f (Tree_as_forest o)
  | VForest o => Forest_equals f o
  | VSum o => ForestSum_equals (Forest_as_forest_sum f) o
  end.

Definition ForestSum_eq (s : ForestSum) (other : value) : bool :=
  match other with
  | VInt z => ForestSum_equals s (scalar_forest_sum z)
  | VTree o => ForestSum_equals s (Tree_as_forest_sum o)
  | VForest o => ForestSum_equals s (Forest_as_forest_sum o)
  | VSum o => ForestSum_equals s o
  end.

(** [obj1 == obj2]: the [__eq__] of the left operand, and for a scalar on
    the left the reflected [__eq__] of the right operand. *)
Definition value_eq (obj1 obj2 : value) : bool :=
  match obj1, obj2 with
  | VInt a, VInt b => a =? b
  | VInt _, VTree t => Tree_eq t obj1
  | VInt _, VForest f => Forest_eq f obj1
  | VInt _, VSum s => ForestSum_eq s obj1
  | VTree t, _ => Tree_eq t obj2
  | VForest f, _ => Forest_eq f obj2
  | VSum s, _ => ForestSum_eq s obj2
  end.

(** * Properties of the other methods *)

(** ** [Forest.reduce] *)

#[global] Instance Tree_eq_dec : EqDecision Tree.
Proof. solve_decision. Defined.

#[global] Instance Forest_eq_dec : EqDecision Forest.
Proof. solve_decision. Defined.

Lemma Forall_filter_nonvoid (ts : list Tree) :
  Forall (fun t => list_repr t <> None) (filter (fun t => list_repr t <> None) ts).
Proof. apply Forall_forall. by intros x [? _]%list_elem_of_filter. Qed.

Lemma filter_nonvoid_id (ts : list Tree) :
  Forall (fun t => list_repr t <> None) ts ->
  filter (fun t => list_repr t <> None) ts = ts.
Proof.
  induction 1 as [|t ts Ht _ IH]; [done|]. rewrite filter_cons_True by done.
  by rewrite IH.
Qed.

(** What [Forest.reduce] returns: the forest itself when it has at most one
    tree or no void tree; the forest of the one void tree when it has
    several trees, all void; the forest of its trees that are not void
    otherwise. *)
Lemma Forest_reduce_cases f :
  let nonvoid := filter (fun t => list_repr t <> None) (tree_list f) in
  Forest_reduce f
  = if decide (length (tree_list f) <= 1)%nat then f
    else if decide (nonvoid = []) then EMPTY_FOREST
    else if decide (nonvoid = tree_list f) then f
    else mkForest nonvoid.
Proof.
  cbn zeta. unfold Forest_reduce. destruct (decide _) as [|Hlen]; [done|].
  destruct (filter _ (tree_list f)) as [|t ts] eqn:Hf; [done|].
  rewrite (decide_False (P:=(t :: ts = []))) by done. rewrite <- Hf.
  destruct (decide (length _ = _)) as [Heq|Hne].
  - apply filter_length_eq in Heq. by rewrite decide_True.
  - rewrite decide_False; [done|]. intros Heq. by rewrite Heq in Hne.
Qed.

Lemma Forest_reduce_reduce f : Forest_reduce (Forest_reduce f) = Forest_reduce f.
Proof.
  rewrite (Forest_reduce_cases f). cbn zeta.
  destruct (decide (length (tree_list f) <= 1)%nat) as [Hlen|Hlen].
  { unfold Forest_reduce. by rewrite decide_True. }
  destruct (decide _) as [|Hne]; [done|].
  destruct (decide _) as [Heq|Hneq].
  - rewrite (Forest_reduce_cases f). cbn zeta.
    by rewrite decide_False, decide_False, decide_True.
  - rewrite Forest_reduce_cases. cbn zeta. cbn [tree_list].
    destruct (decide _); [done|].
    rewrite filter_nonvoid_id by apply Forall_filter_nonvoid.
    rewrite decide_False by done. by rewrite decide_True.
Qed.

(** [Forest.reduce] is idempotent. *)
Theorem Forest_reduce_idempotent f :
  Forest_reduce (Forest_reduce f) = Forest_reduce f.
Proof. apply Forest_reduce_reduce. Qed.

Lemma Forest_reduce_shape f :
  filter (fun t => list_repr t <> None) (tree_list (Forest_reduce f))
  = filter (fun t => list_repr t <> None) (tree_list f)
  /\ ((1 < length (tree_list (Forest_reduce f)))%nat ->
      Forall (fun t => list_repr t <> None) (tree_list (Forest_reduce f)))
  /\ (tree_list (Forest_reduce f) = [] <-> tree_list f = []).
Proof.
  rewrite (Forest_reduce_cases f). cbn zeta.
  destruct (decide (length (tree_list f) <= 1)%nat) as [Hlen|Hlen].
  { split; [done|]. split; [lia|done]. }
  destruct (decide _) as [Hnil|Hne].
  { split; [by rewrite Hnil|]. split; [cbn; lia|].
    split; [done|]. intros H. rewrite H in Hlen. cbn in Hlen. lia. }
  destruct (decide _) as [Heq|Hneq].
  - split; [done|]. split; [|done]. intros _. rewrite <- Heq.
    apply Forall_filter_nonvoid.
  - cbn [tree_list]. split; [by apply filter_nonvoid_id, Forall_filter_nonvoid|].
    split; [intros _; apply Forall_filter_nonvoid|].
    split; [done|]. intros H. rewrite H in Hlen. cbn in Hlen. lia.
Qed.

(** [Forest.reduce] keeps the trees that are not void, in their order;
    it keeps a void tree only in a forest of one tree; and it returns a
    forest without trees only on a forest without trees. *)
Theorem Forest_reduce_trees f :
  filter (fun t => list_repr t <> None) (tree_list (Forest_reduce f))
  = filter (fun t => list_repr t <> None) (tree_list f)
  /\ ((1 < length (tree_list (Forest_reduce f)))%nat ->
      Forall (fun t => list_repr t <> None) (tree_list (Forest_reduce f)))
  /\ (tree_list (Forest_reduce f) = [] <-> tree_list f = []).
Proof. apply Forest_reduce_shape. Qed.

(** ** [ForestSum.reduce] *)

(** No forest of the list equals, by [Forest._equals], one before it. *)
Fixpoint distinct_terms (l : list (Forest * Z)) : Prop :=
  match l with
  | [] => True
  | gd :: l' => Forall (fun fc => Forest_equals fc.1 gd.1 = false) l' /\ distinct_terms l'
  end.

Lemma collect_term_Forall (P : Forest -> Prop) f c acc :
  P f -> Forall (fun fc => P fc.1) acc -> Forall (fun fc => P fc.1) (collect_term f c acc).
Proof.
  intros Hf. induction 1 as [|[f2 c2] acc Hx Hacc IH]; cbn [collect_term].
  - by repeat constructor.
  - destruct (Forest_equals f f2); by constructor.
Qed.

Lemma collect_term_distinct f c acc :
  distinct_terms acc -> distinct_terms (collect_term f c acc).
Proof.
  induction acc as [|[f2 c2] acc IH]; intros Hd; cbn [collect_term].
  - by repeat constructor.
  - destruct Hd as [Hall Hd]. cbn [fst] in Hall.
    destruct (Forest_equals f f2) eqn:He; [done|].
    split; [|by apply IH]. cbn [fst].
    by apply (collect_term_Forall (fun g => Forest_equals g f2 = false)).
Qed.

Lemma collect_terms_distinct l :
  distinct_terms (collect_terms l)
  /\ Forall (fun fc => Forest_reduce fc.1 = fc.1) (collect_terms l).
Proof.
  unfold collect_terms.
  assert (Hacc : distinct_terms []
                 /\ Forall (fun fc : Forest * Z => Forest_reduce fc.1 = fc.1) []).
  { by split. }
  revert Hacc. generalize ([] : list (Forest * Z)) as acc.
  induction l as [|fc l IH]; intros acc Hacc; [done|].
  cbn [fold_left]. apply IH. destruct Hacc as [Hd Hr]. split.
  - by apply collect_term_distinct.
  - apply (collect_term_Forall (fun g => Forest_reduce g = g)); [|done].
    apply Forest_reduce_reduce.
Qed.

Lemma distinct_terms_filter (P : Forest * Z -> Prop) `{!forall x, Decision (P x)} l :
  distinct_terms l -> distinct_terms (filter P l).
Proof.
  induction l as [|x l IH]; [done|]. intros [Hall Hd].
  destruct (decide (P x)).
  - rewrite filter_cons_True by done. split; [|by apply IH].
    apply Forall_forall. intros y [_ Hy]%list_elem_of_filter.
    rewrite Forall_forall in Hall. by apply Hall.
  - rewrite filter_cons_False by done. by apply IH.
Qed.

Lemma kept_terms_distinct s :
  distinct_terms (kept_terms s)
  /\ Forall (fun fc => Forest_reduce fc.1 = fc.1 /\ fc.2 <> 0) (kept_terms s).
Proof.
  destruct (collect_terms_distinct (terms s)) as [Hd Hr]. unfold kept_terms. split.
  - by apply distinct_terms_filter.
  - apply Forall_forall. intros x [Hc Hx]%list_elem_of_filter.
    rewrite Forall_forall in Hr. split; [by apply Hr|done].
Qed.

Lemma collect_term_new f c acc :
  Forall (fun fc => Forest_equals f fc.1 = false) acc ->
  collect_term f c acc = acc ++ [(f, c)].
Proof.
  induction 1 as [|[f2 c2] acc Hx _ IH]; [done|]. cbn [collect_term].
  cbn [fst] in Hx. by rewrite Hx, IH.
Qed.

Lemma distinct_terms_snoc acc x l :
  distinct_terms (acc ++ x :: l) ->
  Forall (fun fc => Forest_equals x.1 fc.1 = false) acc.
Proof.
  induction acc as [|y acc IH]; [done|]. cbn [app distinct_terms].
  intros [Hall Hd]. constructor; [|by apply IH].
  rewrite Forall_app, Forall_cons in Hall. by destruct Hall as (_ & ? & _).
Qed.

Lemma collect_terms_fixed l :
  distinct_terms l -> Forall (fun fc => Forest_reduce fc.1 = fc.1) l ->
  collect_terms l = l.
Proof.
  unfold collect_terms. intros Hd Hr.
  change l with ([] ++ l) in Hd. change l with ([] ++ l) at 2.
  revert Hd. generalize ([] : list (Forest * Z)) as acc.
  induction Hr as [|[f c] l Hf _ IH]; intros acc Hd; [by rewrite app_nil_r|].
  cbn [fold_left fst snd] in *. rewrite Hf.
  rewrite collect_term_new by apply (distinct_terms_snoc _ _ _ Hd).
  rewrite IH; rewrite <- app_assoc; done.
Qed.

Lemma filter_all {A} (P : A -> Prop) `{!forall x, Decision (P x)} (l : list A) :
  Forall P l -> filter P l = l.
Proof.
  induction 1 as [|x l Hx _ IH]; [done|]. rewrite filter_cons_True by done.
  by rewrite IH.
Qed.

Lemma ForestSum_reduce_reduce s :
  ForestSum_reduce (ForestSum_reduce s) = ForestSum_reduce s.
Proof.
  destruct (kept_terms_distinct s) as [Hd Hr].
  assert (Hs : ForestSum_reduce s
               = match kept_terms s with
                 | [] => ZERO_FOREST_SUM
                 | _ :: _ => of_terms (kept_terms s)
                 end) by done.
  rewrite Hs. clear Hs.
  destruct (kept_terms s) as [|x l] eqn:Hk; [by vm_compute|].
  unfold ForestSum_reduce. cbn zeta. rewrite terms_of_terms.
  rewrite collect_terms_fixed; [|done|].
  2:{ eapply Forall_impl; [exact Hr|]. by intros ? [? _]. }
  rewrite filter_all; [done|].
  eapply Forall_impl; [exact Hr|]. by intros ? [_ ?].
Qed.

(** [ForestSum.reduce] is idempotent. *)
Theorem ForestSum_reduce_idempotent s :
  ForestSum_reduce (ForestSum_reduce s) = ForestSum_reduce s.
Proof. apply ForestSum_reduce_reduce. Qed.

Lemma Forest_equals_sym f g : Forest_equals f g = Forest_equals g f.
Proof.
  apply Bool.eq_iff_eq_true. unfold Forest_equals.
  rewrite !Counter_eqb_key_multiset. split; by intros ->.
Qed.

Lemma distinct_terms_lookup l (i j : nat) x y :
  distinct_terms l -> (i < j)%nat -> l !! i = Some x -> l !! j = Some y ->
  Forest_equals y.1 x.1 = false.
Proof.
  revert i j. induction l as [|z l IH]; intros i j Hd Hij Hi Hj; [done|].
  destruct Hd as [Hall Hd]. destruct j as [|j]; [lia|]. cbn in Hj.
  destruct i as [|i].
  - cbn in Hi. injection Hi as ->. rewrite Forall_forall in Hall.
    apply Hall. by eapply list_elem_of_lookup_2.
  - cbn in Hi. apply (IH i j); [done|lia|done..].
Qed.

(** What [ForestSum.reduce] returns: as many coefficients as forests;
    the zero forest sum, or no coefficient zero; every forest reduced; and
    no two forests equal by [Forest._equals]. *)
Theorem ForestSum_reduce_normal_form s :
  let r := ForestSum_reduce s in
  length (forest_list r) = length (coeff_list r)
  /\ (r = ZERO_FOREST_SUM \/ Forall (fun c => c <> 0) (coeff_list r))
  /\ Forall (fun f => Forest_reduce f = f) (forest_list r)
  /\ (forall (i j : nat) f g,
        i <> j -> forest_list r !! i = Some f -> forest_list r !! j = Some g ->
        Forest_equals f g = false).
Proof.
  cbn zeta. destruct (kept_terms_distinct s) as [Hd Hr].
  assert (Hs : ForestSum_reduce s
               = match kept_terms s with
                 | [] => ZERO_FOREST_SUM
                 | _ :: _ => of_terms (kept_terms s)
                 end) by done.
  rewrite Hs. clear Hs. destruct (kept_terms s) as [|x l] eqn:Hk.
  { split; [done|]. split; [by left|]. split; [by repeat constructor|].
    intros [|i] [|j] f g Hij Hi Hj; done. }
  rewrite <- Hk in *. clear Hk x l. unfold of_terms. cbn [forest_list coeff_list].
  split; [by rewrite !length_fmap|]. split; [right|split].
  - apply Forall_fmap. eapply Forall_impl; [exact Hr|]. by intros ? [_ ?].
  - apply Forall_fmap. eapply Forall_impl; [exact Hr|]. by intros ? [? _].
  - intros i j f g Hij Hi Hj.
    apply list_lookup_fmap_Some in Hi as (x & -> & Hi).
    apply list_lookup_fmap_Some in Hj as (y & -> & Hj).
    destruct (decide (i < j)%nat).
    + rewrite Forest_equals_sym. by apply (distinct_terms_lookup _ i j x y Hd).
    + apply (distinct_terms_lookup _ j i y x Hd); [lia|done..].
Qed.

(** ** Equality across the classes *)

Lemma fmono_single t :
  fmono (mkForest [t])
  = match list_repr t with Some r => {[+ sorted_rep r +]} | None => ∅ end.
Proof.
  destruct t as [[r|]]; unfold fmono, creps;
    cbn [tree_list list_repr omap list_omap fmap list_fmap list_to_set_disj]; [|done].
  by rewrite (right_id ∅ (⊎)).
Qed.

Lemma Tree_equals_fmono t o :
  Tree_equals t o = true <-> fmono (mkForest [t]) = fmono (mkForest [o]).
Proof.
  unfold Tree_equals. rewrite bool_decide_eq_true, !fmono_single.
  destruct t as [[r|]], o as [[r'|]]; cbn.
  - split; [by intros [= ->]|]. intros H. f_equal.
    assert (sorted_rep r ∈ ({[+ sorted_rep r' +]} : mono)) as Hin.
    { rewrite <- H. multiset_solver. }
    by apply gmultiset_elem_of_singleton in Hin.
  - split; [done|]. intros H. exfalso. multiset_solver.
  - split; [done|]. intros H. exfalso. multiset_solver.
  - done.
Qed.

Lemma mono_single_peq (m m' : mono) : [(m, 1)] ≈ [(m', 1)] <-> m = m'.
Proof.
  split; [|by intros ->]. intros H. specialize (H m).
  rewrite !coeff_cons, !coeff_nil in H. cbn [fst snd] in H.
  rewrite decide_True in H by done. destruct (decide (m' = m)); [done|lia].
Qed.

Lemma den_scalar_forest_sum z : den (scalar_forest_sum z) ≈ pconst z.
Proof. unfold scalar_forest_sum. by rewrite den_reduce. Qed.

Lemma wf_scalar_forest_sum z : wf_ForestSum (scalar_forest_sum z).
Proof. apply wf_ForestSum_reduce. by repeat constructor. Qed.

(** The forest sum that [__eq__] compares a value as. *)
Definition as_sum (v : value) : ForestSum :=
  match v with
  | VInt z => scalar_forest_sum z
  | VTree t => Tree_as_forest_sum t
  | VForest f => Forest_as_forest_sum f
  | VSum s => s
  end.

Lemma den_as_sum v : den (as_sum v) ≈ den_value v.
Proof. destruct v; [apply den_scalar_forest_sum|done..]. Qed.

Lemma wf_as_sum v : wf_value v -> Forall wf_forest (forest_list (as_sum v)).
Proof.
  destruct v as [z|t|f|s]; cbn [as_sum wf_value].
  - intros _. apply wf_scalar_forest_sum.
  - by repeat constructor.
  - by repeat constructor.
  - by intros [_ ?].
Qed.

Lemma as_sum_equals_den v w :
  wf_value v -> wf_value w ->
  ForestSum_equals (as_sum v) (as_sum w) = true <-> den_value v ≈ den_value w.
Proof.
  intros Hv Hw. rewrite ForestSum_equals_den by by apply wf_as_sum.
  by rewrite !den_as_sum.
Qed.

Lemma Forest_equals_den f g :
  wf_forest f -> wf_forest g ->
  Forest_equals f g = true <-> den_value (VForest f) ≈ den_value (VForest g).
Proof.
  intros Hf Hg. cbn [den_value]. rewrite mono_single_peq. split.
  - apply Forest_equals_fmono.
  - by apply fmono_Forest_equals.
Qed.

Lemma Tree_eq_den t w :
  wf_value w -> Tree_eq t w = true <-> den_value (VTree t) ≈ den_value w.
Proof.
  intros Hw. destruct w as [z|o|o|o]; cbn [Tree_eq].
  - by apply (as_sum_equals_den (VTree t) (VInt z)).
  - cbn [den_value]. rewrite mono_single_peq. apply Tree_equals_fmono.
  - by apply (Forest_equals_den (Tree_as_forest t) o).
  - by apply (as_sum_equals_den (VTree t) (VSum o)).
Qed.

Lemma Forest_eq_den f w :
  wf_forest f -> wf_value w ->
  Forest_eq f w = true <-> den_value (VForest f) ≈ den_value w.
Proof.
  intros Hf Hw. destruct w as [z|o|o|o]; cbn [Forest_eq].
  - by apply (as_sum_equals_den (VForest f) (VInt z)).
  - by apply (Forest_equals_den f (Tree_as_forest o)).
  - by apply Forest_equals_den.
  - by apply (as_sum_equals_den (VForest f) (VSum o)).
Qed.

Lemma ForestSum_eq_den s w :
  wf_ForestSum s -> wf_value w ->
  ForestSum_eq s w = true <-> den_value (VSum s) ≈ den_value w.
Proof.
  intros Hs Hw. destruct w as [z|o|o|o]; cbn [ForestSum_eq].
  - by apply (as_sum_equals_den (VSum s) (VInt z)).
  - by apply (as_sum_equals_den (VSum s) (VTree o)).
  - by apply (as_sum_equals_den (VSum s) (VForest o)).
  - by apply (as_sum_equals_den (VSum s) (VSum o)).
Qed.

Lemma value_eq_den v w :
  wf_value v -> wf_value w ->
  value_eq v w = true <-> den_value v ≈ den_value w.
Proof.
  intros Hv Hw. destruct v as [a|t|f|s].
  - destruct w as [b|t|f|s]; unfold value_eq.
    + rewrite Z.eqb_eq. cbn [den_value]. unfold pconst. split; [by intros ->|].
      intros H. specialize (H ∅). rewrite !coeff_cons, !coeff_nil in H.
      cbn [fst snd] in H. rewrite !decide_True in H by done. lia.
    + rewrite Tree_eq_den by done. split; by intros ->.
    + rewrite Forest_eq_den by done. split; by intros ->.
    + rewrite ForestSum_eq_den by done. split; by intros ->.
  - destruct w; by apply Tree_eq_den.
  - destruct w; by apply Forest_eq_den.
  - destruct w; by apply ForestSum_eq_den.
Qed.

(** [reduce] does not change the polynomial of a forest sum: for every
    multiset [m] of canonical trees, the coefficients of the forests with
    the trees [m] add up to the same number before and after. *)
Theorem ForestSum_reduce_coefficients s m :
  coeff m (den (ForestSum_reduce s)) = coeff m (den s).
Proof. apply den_reduce. Qed.

(** Two forests with trees are equal by [Forest._equals] exactly when they
    have the same trees up to order, canonical form and void trees. *)
Theorem Forest_equals_same_trees f g :
  tree_list f <> [] -> tree_list g <> [] ->
  Forest_equals f g = true <-> fmono f = fmono g.
Proof.
  intros Hf Hg. split; [apply Forest_equals_fmono|by apply fmono_Forest_equals].
Qed.

Lemma Forest_equals_same_trees_witness :
  tree_list (mkForest [SINGLETON_TREE; EMPTY_TREE]) <> []
  /\ tree_list SINGLETON_FOREST <> []
  /\ (Forest_equals (mkForest [SINGLETON_TREE; EMPTY_TREE]) SINGLETON_FOREST = true
      <-> fmono (mkForest [SINGLETON_TREE; EMPTY_TREE]) = fmono SINGLETON_FOREST).
Proof.
  split; [simpl; discriminate|]. split; [simpl; discriminate|].
  apply (Forest_equals_same_trees (mkForest [SINGLETON_TREE; EMPTY_TREE])
           SINGLETON_FOREST); simpl; discriminate.
Defined.

(** [==] between scalars, trees, forests and forest sums, in any
    combination, holds exactly when the two operands have the same
    polynomial. *)
Theorem value_eq_same_polynomial v w :
  wf_value v -> wf_value w ->
  value_eq v w = true <-> den_value v ≈ den_value w.
Proof. apply value_eq_den. Qed.

Lemma value_eq_same_polynomial_witness :
  wf_value (VTree SINGLETON_TREE) /\ wf_value (VSum SINGLETON_FOREST_SUM)
  /\ (value_eq (VTree SINGLETON_TREE) (VSum SINGLETON_FOREST_SUM) = true
      <-> den_value (VTree SINGLETON_TREE) ≈ den_value (VSum SINGLETON_FOREST_SUM)).
Proof.
  assert (wf_value (VSum SINGLETON_FOREST_SUM)) as H.
  { split; [reflexivity|]. repeat constructor. simpl. discriminate. }
  split; [exact I|]. split; [exact H|].
  exact (value_eq_same_polynomial (VTree SINGLETON_TREE) (VSum SINGLETON_FOREST_SUM) I H).
Defined.

(** [==] is reflexive, symmetric and transitive, across the classes. *)
Theorem value_eq_equivalence u v w :
  wf_value u -> wf_value v -> wf_value w ->
  value_eq u u = true
  /\ value_eq u v = value_eq v u
  /\ (value_eq u v = true -> value_eq v w = true -> value_eq u w = true).
Proof.
  intros Hu Hv Hw. split; [by apply value_eq_den|]. split.
  - apply Bool.eq_iff_eq_true. rewrite !value_eq_den by done. split; by intros ->.
  - rewrite !value_eq_den by done. by intros -> ->.
Qed.

Lemma value_eq_equivalence_witness :
  wf_value (VInt 1) /\ wf_value (VTree EMPTY_TREE) /\ wf_value (VForest EMPTY_FOREST)
  /\ value_eq (VInt 1) (VInt 1) = true
  /\ value_eq (VInt 1) (VTree EMPTY_TREE) = value_eq (VTree EMPTY_TREE) (VInt 1)
  /\ (value_eq (VInt 1) (VTree EMPTY_TREE) = true ->
      value_eq (VTree EMPTY_TREE) (VForest EMPTY_FOREST) = true ->
      value_eq (VInt 1) (VForest EMPTY_FOREST) = true).
Proof.
  assert (wf_value (VForest EMPTY_FOREST)) as H by (simpl; discriminate).
  split; [exact I|]. split; [exact I|]. split; [exact H|].
  exact (value_eq_equivalence (VInt 1) (VTree EMPTY_TREE) (VForest EMPTY_FOREST) I I H).
Defined.

(** ** The arithmetic on values *)

Lemma wf_sub v w ar : wf_value v -> wf_value w -> wf_value (_sub v w ar).
Proof.
  intros Hv Hw. destruct v as [a|t|f|s].
  - destruct w as [b|t|f|s]; unfold _sub; [done| | |].
    + unfold Tree_sub. by apply wf_Tree_add.
    + unfold Forest_sub. by apply wf_Forest_add.
    + unfold ForestSum_sub. by apply wf_ForestSum_add.
  - unfold _sub, Tree_sub. cbn [wf_value]. destruct w; by apply wf_Tree_add, wf_neg.
  - unfold _sub, Forest_sub. cbn [wf_value].
    destruct w; apply wf_Forest_add; by try apply wf_neg.
  - unfold _sub, ForestSum_sub. cbn [wf_value].
    destruct w; apply wf_ForestSum_add; by try apply wf_neg.
Qed.

Lemma den_sub_left v w ar :
  is_scalar v = false -> wf_value v -> wf_value w ->
  den_value (_sub v w ar) ≈ den_value v ++ pscale (-1) (den_value w).
Proof.
  intros Hs Hv Hw. pose proof (wf_neg w Hw) as Hn.
  destruct v as [a|t|f|s]; [done|..].
  - assert (_sub (VTree t) w ar = VSum (Tree_add t (neg_value w) ar)) as -> by by destruct w.
    cbn [den_value]. rewrite den_Tree_add by done. by rewrite den_neg.
  - assert (_sub (VForest f) w ar = VSum (Forest_add f (neg_value w) ar)) as ->
      by by destruct w.
    cbn [den_value]. rewrite den_Forest_add by done. by rewrite den_neg.
  - assert (_sub (VSum s) w ar = VSum (ForestSum_add s (neg_value w) true)) as ->
      by by destruct w.
    cbn [den_value]. rewrite den_ForestSum_add by (done || apply Hv). by rewrite den_neg.
Qed.

(** [_mul] returns a well-formed value whose polynomial is the product of
    the polynomials of the operands, whatever the classes of the operands
    and whether the result is reduced or not. *)
Theorem mul_polynomial v w ar :
  wf_value v -> wf_value w ->
  wf_value (_mul v w ar)
  /\ den_value (_mul v w ar) ≈ pmul (den_value v) (den_value w).
Proof. intros Hv Hw. split; [by apply wf_mul|by apply den_mul]. Qed.

Lemma mul_polynomial_witness :
  wf_value (VInt 2) /\ wf_value (VTree SINGLETON_TREE)
  /\ wf_value (_mul (VInt 2) (VTree SINGLETON_TREE) true)
  /\ den_value (_mul (VInt 2) (VTree SINGLETON_TREE) true)
     ≈ pmul (den_value (VInt 2)) (den_value (VTree SINGLETON_TREE)).
Proof.
  split; [exact I|]. split; [exact I|].
  exact (mul_polynomial (VInt 2) (VTree SINGLETON_TREE) true I I).
Defined.

(** [_add] returns a well-formed value whose polynomial is the sum of the
    polynomials of the operands; this holds for [Forest.__add__] too, which
    returns the sum not reduced. *)
Theorem add_polynomial v w ar :
  wf_value v -> wf_value w ->
  wf_value (_add v w ar)
  /\ den_value (_add v w ar) ≈ den_value v ++ den_value w.
Proof. intros Hv Hw. split; [by apply wf_add|by apply den_add]. Qed.

Lemma add_polynomial_witness :
  wf_value (VInt 2) /\ wf_value (VTree SINGLETON_TREE)
  /\ wf_value (_add (VInt 2) (VTree SINGLETON_TREE) true)
  /\ den_value (_add (VInt 2) (VTree SINGLETON_TREE) true)
     ≈ den_value (VInt 2) ++ den_value (VTree SINGLETON_TREE).
Proof.
  split; [exact I|]. split; [exact I|].
  exact (add_polynomial (VInt 2) (VTree SINGLETON_TREE) true I I).
Defined.

Lemma den_sub v w ar :
  wf_value v -> wf_value w ->
  den_value (_sub v w ar)
  ≈ if is_scalar v && negb (is_scalar w)
    then den_value w ++ pscale (-1) (den_value v)
    else den_value v ++ pscale (-1) (den_value w).
Proof.
  intros Hv Hw. destruct v as [a|t|f|s]; try (by apply den_sub_left).
  destruct w as [b|t|f|s]; cbn [is_scalar andb negb].
  - intros m. cbn [_sub den_value]. unfold pconst, pscale.
    cbn [fmap list_fmap fst snd]. rewrite coeff_app, !coeff_cons, !coeff_nil.
    cbn [fst snd]. destruct (decide _); lia.
  - by apply (den_sub_left (VTree t) (VInt a)).
  - by apply (den_sub_left (VForest f) (VInt a)).
  - by apply (den_sub_left (VSum s) (VInt a)).
Qed.

(** [_sub(obj1, obj2)] is [obj1 - obj2] when [obj1] is a tree, a forest or
    a forest sum, and when both are scalars; with a scalar on the left of a
    tree-like [obj2] it is [obj2 - obj1], the operands swapped. *)
Theorem sub_polynomial v w ar :
  wf_value v -> wf_value w ->
  den_value (_sub v w ar)
  ≈ if is_scalar v && negb (is_scalar w)
    then den_value w ++ pscale (-1) (den_value v)
    else den_value v ++ pscale (-1) (den_value w).
Proof. apply den_sub. Qed.

Lemma sub_polynomial_witness :
  wf_value (VInt 3) /\ wf_value (VTree SINGLETON_TREE)
  /\ den_value (_sub (VInt 3) (VTree SINGLETON_TREE) true)
     ≈ den_value (VTree SINGLETON_TREE) ++ pscale (-1) (den_value (VInt 3)).
Proof.
  split; [exact I|]. split; [exact I|].
  exact (sub_polynomial (VInt 3) (VTree SINGLETON_TREE) true I I).
Defined.

Lemma pconst_0 : pconst 0 ≈ [].
Proof. intros m. unfold pconst. rewrite coeff_cons, coeff_nil. cbn. by destruct (decide _). Qed.

(** Up to [==], and whatever the reduction flags, the product and the sum
    of values are commutative and associative, and the product distributes
    over the sum. *)
Theorem arithmetic_laws u v w (r1 r2 : bool) :
  wf_value u -> wf_value v -> wf_value w ->
  value_eq (_mul u v r1) (_mul v u r2) = true
  /\ value_eq (_mul (_mul u v r1) w r2) (_mul u (_mul v w r1) r2) = true
  /\ value_eq (_add u v r1) (_add v u r2) = true
  /\ value_eq (_add (_add u v r1) w r2) (_add u (_add v w r1) r2) = true
  /\ value_eq (_mul (_add u v r1) w r2) (_add (_mul u w r1) (_mul v w r1) r2) = true.
Proof.
  intros Hu Hv Hw.
  repeat split; apply value_eq_den;
    repeat first [done | apply wf_mul | apply wf_add];
    rewrite ?den_mul, ?den_add by repeat first [done | apply wf_mul | apply wf_add];
    rewrite ?den_mul, ?den_add by repeat first [done | apply wf_mul | apply wf_add].
  - apply pmul_comm.
  - by rewrite pmul_assoc.
  - apply peq_perm, Permutation_app_comm.
  - by rewrite app_assoc.
  - by rewrite pmul_app_l.
Qed.

Lemma arithmetic_laws_witness :
  wf_value (VInt 2) /\ wf_value (VTree SINGLETON_TREE) /\ wf_value (VTree EMPTY_TREE)
  /\ value_eq (_mul (VInt 2) (VTree SINGLETON_TREE) true)
              (_mul (VTree SINGLETON_TREE) (VInt 2) false) = true.
Proof.
  split; [exact I|]. split; [exact I|]. split; [exact I|].
  exact (proj1 (arithmetic_laws (VInt 2) (VTree SINGLETON_TREE) (VTree EMPTY_TREE)
                  true false I I I)).
Defined.

(** [_mul] and [_add] never return a tree, so that the [out.reduce()] of
    [Tree.apply_product], which is guarded for numbers only, is never called
    on a tree. *)
Lemma _mul_add_not_tree a b r :
  is_scalar_or_tree (_mul a b r) = is_scalar (_mul a b r)
  /\ is_scalar_or_tree (_add a b r) = is_scalar (_add a b r).
Proof.
  split.
  - destruct a as [x|t|f|s], b as [y|u|g|s']; try done;
      cbn; unfold reduce_if; by destruct r.
  - by destruct a as [x|t|f|s], b as [y|u|g|s'].
Qed.

(** Up to [==]: 1 is the unit of the product and 0 of the sum, the product
    with 0 is 0, a value minus itself is 0, and [reduce()], which forests and
    forest sums have, does not change them. *)
Theorem arithmetic_units v (r : bool) :
  wf_value v ->
  value_eq (_mul v (VInt 1) r) v = true
  /\ value_eq (_add v (VInt 0) r) v = true
  /\ value_eq (_mul v (VInt 0) r) (VInt 0) = true
  /\ value_eq (_sub v v r) (VInt 0) = true
  /\ (is_scalar_or_tree v = false -> value_eq (reduce_value v) v = true).
Proof.
  intros Hv. repeat split; try intros _; apply value_eq_den;
    repeat first [done | apply wf_mul | apply wf_add | apply wf_sub | apply wf_reduce_value].
  - rewrite den_mul by done. apply pmul_1_r.
  - rewrite den_add by done. cbn [den_value]. by rewrite pconst_0, app_nil_r.
  - rewrite den_mul by done. cbn [den_value].
    by rewrite pmul_const_r, pscale_0, pconst_0.
  - rewrite den_sub by done. cbn [den_value]. rewrite pconst_0.
    destruct (is_scalar v && negb (is_scalar v)); apply padd_neg.
  - apply den_value_reduce.
Qed.

Lemma arithmetic_units_witness :
  wf_value (VForest (mkForest [SINGLETON_TREE; EMPTY_TREE]))
  /\ value_eq (reduce_value (VForest (mkForest [SINGLETON_TREE; EMPTY_TREE])))
              (VForest (mkForest [SINGLETON_TREE; EMPTY_TREE])) = true.
Proof.
  assert (wf_value (VForest (mkForest [SINGLETON_TREE; EMPTY_TREE]))) as H.
  { simpl. discriminate. }
  split; [exact H|].
  exact (proj2 (proj2 (proj2 (proj2
           (arithmetic_units (VForest (mkForest [SINGLETON_TREE; EMPTY_TREE])) true H))))
           eq_refl).
Defined.

(** ** Applying tree functions to forests and forest sums *)

Lemma res_fold_Ok_in {A B} (step : B -> A -> res B) (g : B -> A -> B) l acc :
  (forall b x, x ∈ l -> step b x = Ok (g b x)) ->
  res_fold step l acc = Ok (fold_left g l acc).
Proof.
  revert acc. induction l as [|x l IH]; intros acc H; [done|].
  cbn [res_fold fold_left]. rewrite H by left. cbn. apply IH.
  intros b y Hy. apply H. by right.
Qed.

Lemma fold_left_mul_scalar (h : Tree -> Z) ts z :
  fold_left (fun out t => _mul out (VInt (h t)) false) ts (VInt z)
  = VInt (z * Zprod (h <$> ts)).
Proof.
  revert z. induction ts as [|t ts IH]; intros z.
  - cbn. f_equal. lia.
  - cbn [fold_left fmap list_fmap Zprod foldr]. cbn [_mul]. rewrite IH.
    fold (Zprod (h <$> ts)). f_equal. lia.
Qed.

Lemma Forest_apply_scalar f (h : Tree -> Z) ar :
  Forest_apply f (fun x => Ok (VInt (h x))) ar = Ok (VInt (Zprod (h <$> tree_list f))).
Proof.
  unfold Forest_apply, Tree_apply.
  rewrite (res_fold_Ok_in _ (fun out t => _mul out (VInt (h t)) false)) by done.
  rewrite fold_left_mul_scalar. cbn [res_bind is_scalar_or_tree negb].
  rewrite andb_false_r. do 2 f_equal. lia.
Qed.

(** The value of a term [c * t1 ... tk] under a scalar function. *)
Definition term_value (h : Tree -> Z) (fc : Forest * Z) : Z :=
  Zprod (h <$> tree_list fc.1) * fc.2.

Lemma fold_left_add_scalar (h : Tree -> Z) l z :
  fold_left (fun out fc =>
               _add out (_mul (VInt (Zprod (h <$> tree_list fc.1))) (VInt fc.2) false) false)
            l (VInt z)
  = VInt (z + Zsum (term_value h) l).
Proof.
  revert z. induction l as [|fc l IH]; intros z.
  - cbn. f_equal. lia.
  - cbn [fold_left]. cbn [_mul _add]. rewrite IH, Zsum_cons. unfold term_value.
    f_equal. lia.
Qed.

Lemma ForestSum_apply_scalar s (h : Tree -> Z) ar :
  ForestSum_apply s (fun x => Ok (VInt (h x))) ar
  = Ok (VInt (Zsum (term_value h) (terms s))).
Proof.
  unfold ForestSum_apply.
  rewrite (res_fold_Ok_in _
    (fun out fc =>
       _add out (_mul (VInt (Zprod (h <$> tree_list fc.1))) (VInt fc.2) false) false)).
  - rewrite fold_left_add_scalar. cbn [res_bind is_scalar_or_tree negb].
    by rewrite andb_false_r.
  - intros b fc _.
    rewrite (res_fold_Ok_in _ (fun out t => _mul out (VInt (h t)) false)) by done.
    rewrite fold_left_mul_scalar. cbn [res_bind]. do 4 f_equal. lia.
Qed.

(** [Forest.apply] with a function that returns scalars returns the product
    of its values on the trees of the forest (1 on the forest without
    trees), whatever [apply_reduction]; [Forest.factorial] is the product
    of the factorials of the trees. *)
Theorem Forest_apply_scalar_product f (h : Tree -> Z) ar :
  Forest_apply f (fun x => Ok (VInt (h x))) ar = Ok (VInt (Zprod (h <$> tree_list f)))
  /\ Forest_factorial f = Ok (VInt (Zprod (Tree_factorial <$> tree_list f))).
Proof. split; apply Forest_apply_scalar. Qed.

(** [ForestSum.apply] with a function that returns scalars returns the sum
    over the terms of the coefficient times the product of the values on the
    trees of the forest (0 on the sum without terms);
    [ForestSum.factorial] is this sum for the tree factorial. *)
Theorem ForestSum_apply_scalar_sum s (h : Tree -> Z) ar :
  ForestSum_apply s (fun x => Ok (VInt (h x))) ar
  = Ok (VInt (Zsum (term_value h) (terms s)))
  /\ ForestSum_factorial s = Ok (VInt (Zsum (term_value Tree_factorial) (terms s))).
Proof. split; apply ForestSum_apply_scalar. Qed.

(** The product of a list of polynomials. *)
Definition pprod (ps : list poly) : poly := foldr pmul (pconst 1) ps.

(** The linear and multiplicative extension of [phi] to a list of terms. *)
Definition apply_poly (phi : Tree -> poly) (l : list (Forest * Z)) : poly :=
  mjoin ((fun fc => pscale fc.2 (pprod (phi <$> tree_list fc.1))) <$> l).

Lemma fold_left_mul_den (g : Tree -> value) ts acc :
  wf_value acc -> (forall x, x ∈ ts -> wf_value (g x)) ->
  wf_value (fold_left (fun out t => _mul out (g t) false) ts acc)
  /\ den_value (fold_left (fun out t => _mul out (g t) false) ts acc)
     ≈ pmul (den_value acc) (pprod ((fun x => den_value (g x)) <$> ts)).
Proof.
  revert acc. induction ts as [|t ts IH]; intros acc Hacc Hg.
  - split; [done|]. cbn. by rewrite pmul_1_r.
  - cbn [fold_left]. assert (wf_value (g t)) as Ht by (apply Hg; left).
    destruct (IH (_mul acc (g t) false)) as [IH1 IH2].
    { by apply wf_mul. }
    { intros x Hx. apply Hg. by right. }
    split; [done|]. rewrite IH2, den_mul by done.
    cbn [fmap list_fmap pprod foldr]. by rewrite pmul_assoc.
Qed.

Lemma Forest_apply_den f (func : tree_fun) (g : Tree -> value) ar :
  (forall x, x ∈ tree_list f -> func x = Ok (g x) /\ wf_value (g x)) ->
  exists v, Forest_apply f func ar = Ok v /\ wf_value v
            /\ den_value v ≈ pprod ((fun x => den_value (g x)) <$> tree_list f).
Proof.
  intros H. unfold Forest_apply, Tree_apply.
  rewrite (res_fold_Ok_in _ (fun out t => _mul out (g t) false)).
  2:{ intros b x Hx. by rewrite (proj1 (H x Hx)). }
  destruct (fold_left_mul_den g (tree_list f) (VInt 1)) as [Hwf Hden]; [done| |].
  { intros x Hx. by apply H. }
  cbn [res_bind]. eexists. split; [done|].
  rewrite pmul_1_l in Hden.
  destruct (ar && negb _); [|done].
  split; [by apply wf_reduce_value|]. by rewrite den_value_reduce.
Qed.

Lemma fold_left_add_den (tv : Forest * Z -> value) (phi : Forest * Z -> poly) l acc :
  wf_value acc ->
  (forall fc, fc ∈ l -> wf_value (tv fc) /\ den_value (tv fc) ≈ phi fc) ->
  wf_value (fold_left (fun out fc => _add out (tv fc) false) l acc)
  /\ den_value (fold_left (fun out fc => _add out (tv fc) false) l acc)
     ≈ den_value acc ++ mjoin (phi <$> l).
Proof.
  revert acc. induction l as [|fc l IH]; intros acc Hacc Hg.
  - split; [done|]. cbn. by rewrite app_nil_r.
  - cbn [fold_left]. destruct (Hg fc ltac:(left)) as [Ht Hd].
    destruct (IH (_add acc (tv fc) false)) as [IH1 IH2].
    { by apply wf_add. }
    { intros x Hx. apply Hg. by right. }
    split; [done|]. rewrite IH2, den_add by done.
    rewrite fmap_cons, mjoin_cons, Hd. by rewrite app_assoc.
Qed.

Lemma ForestSum_apply_den s (func : tree_fun) (g : Tree -> value) ar :
  (forall fc x, fc ∈ terms s -> x ∈ tree_list fc.1 ->
                func x = Ok (g x) /\ wf_value (g x)) ->
  exists v, ForestSum_apply s func ar = Ok v /\ wf_value v
            /\ den_value v ≈ apply_poly (fun x => den_value (g x)) (terms s).
Proof.
  intros H. unfold ForestSum_apply.
  set (tv := fun fc : Forest * Z =>
               _mul (fold_left (fun out t => _mul out (g t) false) (tree_list fc.1) (VInt 1))
                    (VInt fc.2) false).
  rewrite (res_fold_Ok_in _ (fun out fc => _add out (tv fc) false)).
  2:{ intros b fc Hfc.
      rewrite (res_fold_Ok_in _ (fun out t => _mul out (g t) false)); [done|].
      intros b' x Hx. by rewrite (proj1 (H fc x Hfc Hx)). }
  destruct (fold_left_add_den tv
              (fun fc => pscale fc.2 (pprod ((fun x => den_value (g x)) <$> tree_list fc.1)))
              (terms s) (VInt 0)) as [Hwf Hden]; [done| |].
  { intros fc Hfc. unfold tv.
    destruct (fold_left_mul_den g (tree_list fc.1) (VInt 1)) as [Hwf Hden]; [done| |].
    { intros x Hx. by apply (H fc). }
    split; [by apply wf_mul|]. rewrite den_mul by done.
    cbn [den_value] in *. by rewrite pmul_const_r, Hden, pmul_1_l. }
  cbn [res_bind]. eexists. split; [done|].
  cbn [den_value] in Hden. rewrite pconst_0 in Hden. cbn [app] in Hden.
  fold (apply_poly (fun x => den_value (g x)) (terms s)) in Hden.
  destruct (ar && negb _); [|done].
  split; [by apply wf_reduce_value|]. by rewrite den_value_reduce.
Qed.

Lemma pprod_singles ts :
  pprod ((fun x => den_value (VTree x)) <$> ts) ≈ [(fmono (mkForest ts), 1)].
Proof.
  induction ts as [|t ts IH]; [done|].
  cbn [fmap list_fmap pprod foldr]. fold (pprod ((fun x => den_value (VTree x)) <$> ts)).
  rewrite IH. cbn [den_value]. rewrite pmul_mono_l. cbn [fmap list_fmap fst snd].
  by rewrite <- fmono_cons.
Qed.

Lemma apply_poly_identity l : apply_poly (fun x => den_value (VTree x)) l ≈ dterms l.
Proof.
  induction l as [|[f c] l IH]; [done|]. unfold apply_poly in *.
  rewrite fmap_cons, mjoin_cons, IH, dterms_cons. cbn [fst snd].
  rewrite pprod_singles. unfold pscale. cbn [fmap list_fmap fst snd app].
  destruct f as [ts]. cbn [tree_list]. by rewrite Z.mul_1_l.
Qed.

(** [Forest.apply] extends a tree function multiplicatively: when the
    function returns well-formed values on the trees of the forest, the
    result is well formed and its polynomial is the product of the
    polynomials of the values on the trees. *)
Theorem Forest_apply_polynomial f (func : tree_fun) (g : Tree -> value) ar :
  (forall x, x ∈ tree_list f -> func x = Ok (g x) /\ wf_value (g x)) ->
  exists v, Forest_apply f func ar = Ok v /\ wf_value v
            /\ den_value v ≈ pprod ((fun x => den_value (g x)) <$> tree_list f).
Proof. apply Forest_apply_den. Qed.

Lemma Forest_apply_polynomial_witness :
  (forall x, x ∈ tree_list SINGLETON_FOREST ->
             (fun t => Ok (VTree t)) x = Ok (VTree x) /\ wf_value (VTree x))
  /\ exists v, Forest_apply SINGLETON_FOREST (fun t => Ok (VTree t)) true = Ok v
               /\ wf_value v
               /\ den_value v
                  ≈ pprod ((fun x => den_value (VTree x)) <$> tree_list SINGLETON_FOREST).
Proof.
  assert (forall x, x ∈ tree_list SINGLETON_FOREST ->
            (fun t => Ok (VTree t)) x = Ok (VTree x) /\ wf_value (VTree x)) as H.
  { intros x _. split; [reflexivity|exact I]. }
  split; [exact H|].
  exact (Forest_apply_polynomial SINGLETON_FOREST (fun t => Ok (VTree t)) VTree true H).
Defined.

(** [ForestSum.apply] extends a tree function linearly and
    multiplicatively: when the function returns well-formed values on the
    trees of the sum, the result is well formed and its polynomial is the sum
    over the terms of the coefficient times the product of the polynomials of
    the values on the trees of the forest. *)
Theorem ForestSum_apply_polynomial s (func : tree_fun) (g : Tree -> value) ar :
  (forall fc x, fc ∈ terms s -> x ∈ tree_list fc.1 ->
                func x = Ok (g x) /\ wf_value (g x)) ->
  exists v, ForestSum_apply s func ar = Ok v /\ wf_value v
            /\ den_value v ≈ apply_poly (fun x => den_value (g x)) (terms s).
Proof. apply ForestSum_apply_den. Qed.

Lemma ForestSum_apply_polynomial_witness :
  (forall fc x, fc ∈ terms SINGLETON_FOREST_SUM -> x ∈ tree_list fc.1 ->
                (fun t => Ok (VTree t)) x = Ok (VTree x) /\ wf_value (VTree x))
  /\ exists v, ForestSum_apply SINGLETON_FOREST_SUM (fun t => Ok (VTree t)) true = Ok v
               /\ wf_value v
               /\ den_value v
                  ≈ apply_poly (fun x => den_value (VTree x)) (terms SINGLETON_FOREST_SUM).
Proof.
  assert (forall fc x, fc ∈ terms SINGLETON_FOREST_SUM -> x ∈ tree_list fc.1 ->
            (fun t => Ok (VTree t)) x = Ok (VTree x) /\ wf_value (VTree x)) as H.
  { intros fc x _ _. split; [reflexivity|exact I]. }
  split; [exact H|].
  exact (ForestSum_apply_polynomial SINGLETON_FOREST_SUM (fun t => Ok (VTree t)) VTree
           true H).
Defined.

(** Applying the identity function [lambda x: x] to a well-formed forest
    sum returns a value that is [==] to the sum. *)
Theorem ForestSum_apply_identity s ar :
  wf_ForestSum s ->
  exists v, ForestSum_apply s (fun x => Ok (VTree x)) ar = Ok v
            /\ value_eq v (VSum s) = true.
Proof.
  intros Hs.
  destruct (ForestSum_apply_den s (fun x => Ok (VTree x)) VTree ar)
    as (v & Hv & Hwf & Hden); [done|].
  exists v. split; [done|]. apply value_eq_den; [done..|].
  by rewrite Hden, apply_poly_identity.
Qed.

Lemma ForestSum_apply_identity_witness :
  wf_ForestSum SINGLETON_FOREST_SUM
  /\ exists v, ForestSum_apply SINGLETON_FOREST_SUM (fun x => Ok (VTree x)) true = Ok v
               /\ value_eq v (VSum SINGLETON_FOREST_SUM) = true.
Proof.
  assert (wf_ForestSum SINGLETON_FOREST_SUM) as H.
  { split; [reflexivity|]. repeat constructor. simpl. discriminate. }
  split; [exact H|]. exact (ForestSum_apply_identity SINGLETON_FOREST_SUM true H).
Defined.

(** [Forest.apply] calls the function on the trees from left to right and
    passes on the exception of the first call that raises. *)
Theorem Forest_apply_raises f (func : tree_fun) ar ts1 x ts2 e :
  tree_list f = ts1 ++ x :: ts2 ->
  Forall (fun y => exists v, func y = Ok v) ts1 ->
  func x = Raise e ->
  Forest_apply f func ar = Raise e.
Proof.
  intros Hf Hts Hx. unfold Forest_apply, Tree_apply. rewrite Hf. clear Hf.
  generalize (VInt 1) as acc. induction Hts as [|y ts [v Hy] _ IH]; intros acc.
  - cbn. by rewrite Hx.
  - cbn [app res_fold]. rewrite Hy. cbn [res_bind]. apply IH.
Qed.

Lemma Forest_apply_raises_witness :
  tree_list (mkForest [SINGLETON_TREE; EMPTY_TREE]) = [SINGLETON_TREE] ++ EMPTY_TREE :: []
  /\ Forall (fun y => exists v,
               (fun t => match list_repr t with
                         | Some _ => Ok (VTree t)
                         | None => Raise ZeroDivisionError
                         end) y = Ok v) [SINGLETON_TREE]
  /\ Forest_apply (mkForest [SINGLETON_TREE; EMPTY_TREE])
       (fun t => match list_repr t with
                 | Some _ => Ok (VTree t)
                 | None => Raise ZeroDivisionError
                 end) true
     = Raise ZeroDivisionError.
Proof.
  assert (Forall (fun y => exists v,
               (fun t => match list_repr t with
                         | Some _ => Ok (VTree t)
                         | None => Raise ZeroDivisionError
                         end) y = Ok v) [SINGLETON_TREE]) as H.
  { constructor; [|constructor]. exists (VTree SINGLETON_TREE). reflexivity. }
  split; [reflexivity|]. split; [exact H|].
  exact (Forest_apply_raises (mkForest [SINGLETON_TREE; EMPTY_TREE]) _ true
           [SINGLETON_TREE] EMPTY_TREE [] ZeroDivisionError eq_refl H eq_refl).
Defined.

(** ** The antipode: well-formedness and polynomial *)

Lemma antipode_value_void t ar :
  list_repr t = None -> antipode_value t ar = EMPTY_FOREST_SUM.
Proof.
  intros H. unfold antipode_value. rewrite Tree_antipode_unfold.
  unfold Tree_antipode_with. by rewrite H.
Qed.

Lemma antipode_value_leaf t ar :
  list_repr t = Some (Node []) ->
  antipode_value t ar = ForestSum_mul SINGLETON_FOREST_SUM (VInt (-1)) false.
Proof.
  intros H. unfold antipode_value. rewrite Tree_antipode_unfold.
  unfold Tree_antipode_with. by rewrite H.
Qed.

Lemma antipode_value_general t c cs ar :
  list_repr t = Some (Node (c :: cs)) ->
  antipode_value t ar
  = let out := fold_left antipode_term (reduced_cuts t)
                         (ForestSum_neg (Tree_as_forest_sum t)) in
    if ar then ForestSum_reduce out else out.
Proof.
  intros H. unfold antipode_value. by rewrite (Tree_antipode_general t c cs ar H).
Qed.

(** The polynomial of the antipode of a forest: the product of the
    polynomials of the antipodes of its trees. *)
Definition antipode_poly (B : Forest) : poly :=
  pprod ((fun b => den (antipode_value b false)) <$> tree_list B).

Lemma antipode_product_den t0 rest :
  (forall x, x ∈ t0 :: rest -> wf_ForestSum (antipode_value x false)) ->
  wf_ForestSum (antipode_product t0 rest)
  /\ den (antipode_product t0 rest) ≈ antipode_poly (mkForest (t0 :: rest)).
Proof.
  intros H. unfold antipode_product, antipode_poly. cbn [tree_list fmap list_fmap pprod foldr].
  assert (wf_ForestSum (antipode_value t0 false)) as H0 by (apply H; left).
  assert (forall x, x ∈ rest -> wf_ForestSum (antipode_value x false)) as Hr.
  { intros x Hx. apply H. by right. }
  clear H. revert H0. generalize (antipode_value t0 false) as acc.
  induction rest as [|t rest IH]; intros acc Hacc.
  - split; [done|]. cbn. by rewrite pmul_1_r.
  - cbn [fold_left]. assert (wf_ForestSum (antipode_value t false)) as Ht by (apply Hr; left).
    destruct (IH (fun x Hx => Hr x (list_elem_of_further _ _ _ Hx))
                 (ForestSum_mul acc (VSum (antipode_value t false)) false)) as [IH1 IH2].
    { by apply wf_ForestSum_mul. }
    split; [done|]. rewrite IH2, den_ForestSum_mul by done.
    cbn [fmap list_fmap foldr den_value]. by rewrite pmul_assoc.
Qed.

Lemma Forest_antipode_value_den B :
  wf_forest B ->
  (forall x, x ∈ tree_list B -> wf_ForestSum (antipode_value x false)) ->
  wf_ForestSum (Forest_antipode_value B)
  /\ den (Forest_antipode_value B) ≈ antipode_poly B.
Proof.
  intros HB H. destruct B as [[|t0 rest]]; [done|].
  unfold Forest_antipode_value. rewrite Forest_antipode_cons.
  by apply antipode_product_den.
Qed.

(** The polynomial that one cut contributes to the antipode. *)
Definition cut_poly (sb : Tree * Forest) : poly :=
  pmul (antipode_poly sb.2) (den_value (VTree sb.1)).

Lemma antipode_term_den out sb :
  wf_ForestSum out -> wf_forest sb.2 ->
  (forall x, x ∈ tree_list sb.2 -> wf_ForestSum (antipode_value x false)) ->
  wf_ForestSum (antipode_term out sb)
  /\ den (antipode_term out sb) ≈ den out ++ pscale (-1) (cut_poly sb).
Proof.
  intros Hout HB H. destruct (Forest_antipode_value_den sb.2 HB H) as [Hwf Hden].
  unfold antipode_term, ForestSum_sub.
  assert (wf_ForestSum (ForestSum_mul (Forest_antipode_value sb.2) (VTree sb.1) false))
    as Hm by by apply wf_ForestSum_mul.
  split.
  - apply wf_ForestSum_add; [done|]. by apply (wf_neg (VSum _)).
  - rewrite den_ForestSum_add; [|apply Hout|by apply (wf_neg (VSum _))].
    rewrite (den_neg (VSum _)) by done. cbn [den_value].
    rewrite den_ForestSum_mul by done. unfold cut_poly. by rewrite Hden.
Qed.

Lemma fold_antipode_term_den l out :
  wf_ForestSum out ->
  Forall (fun sb => wf_forest sb.2
                    /\ forall x, x ∈ tree_list sb.2 ->
                                 wf_ForestSum (antipode_value x false)) l ->
  wf_ForestSum (fold_left antipode_term l out)
  /\ den (fold_left antipode_term l out)
     ≈ den out ++ pscale (-1) (mjoin (cut_poly <$> l)).
Proof.
  intros Hout Hl. revert out Hout.
  induction Hl as [|sb l [HB Hsb] _ IH]; intros out Hout.
  - split; [done|]. cbn. by rewrite app_nil_r.
  - cbn [fold_left]. destruct (antipode_term_den out sb Hout HB Hsb) as [Hwf Hden].
    destruct (IH _ Hwf) as [IH1 IH2]. split; [done|].
    rewrite IH2, Hden, fmap_cons, mjoin_cons, pscale_app. by rewrite app_assoc.
Qed.

Lemma reduced_cuts_smaller t :
  Forall (fun sb => wf_forest sb.2
                    /\ forall x, x ∈ tree_list sb.2 -> (Tree_nodes x < Tree_nodes t)%nat)
         (reduced_cuts t).
Proof.
  apply Forall_forall. intros [T B] [Hp Hin]%list_elem_of_filter. split.
  - pose proof (cuts_nonempty t) as Hne. rewrite Forall_forall in Hne.
    apply (Hne _ Hin).
  - intros x Hx. eapply cuts_removed_smaller; [done| |done].
    unfold proper_cut in Hp. cbn [fst] in Hp.
    apply negb_true_iff, orb_false_iff in Hp. apply Hp.
Qed.

Lemma wf_antipode_value t ar : wf_ForestSum (antipode_value t ar).
Proof.
  remember (Tree_nodes t) as n eqn:Hn. revert t ar Hn.
  induction n as [n IH] using lt_wf_ind. intros t ar ->.
  destruct (list_repr t) as [[[|c cs]]|] eqn:Hr.
  - rewrite antipode_value_leaf by done. by repeat constructor.
  - rewrite (antipode_value_general t c cs) by done. cbn zeta.
    apply wf_ForestSum_reduce_if.
    apply fold_antipode_term_den; [by repeat constructor|].
    eapply Forall_impl; [apply reduced_cuts_smaller|].
    intros sb [HB Hsb]. split; [done|]. intros x Hx. by eapply IH; [apply Hsb|].
  - rewrite antipode_value_void by done. by repeat constructor.
Qed.

Lemma den_antipode_general t c cs ar :
  list_repr t = Some (Node (c :: cs)) ->
  den (antipode_value t ar)
  ≈ pscale (-1) (den_value (VTree t)) ++ pscale (-1) (mjoin (cut_poly <$> reduced_cuts t)).
Proof.
  intros Hr. rewrite (antipode_value_general t c cs) by done. cbn zeta.
  match goal with |- den (if ar then ForestSum_reduce ?x else ?x) ≈ _ =>
    trans (den x); [destruct ar; [apply den_reduce|done]|] end.
  destruct (fold_antipode_term_den (reduced_cuts t) (ForestSum_neg (Tree_as_forest_sum t)))
    as [_ Hden]; [by repeat constructor| |].
  { eapply Forall_impl; [apply reduced_cuts_smaller|].
    intros sb [HB _]. split; [done|]. intros x _. apply wf_antipode_value. }
  rewrite Hden. apply app_peq; [|done].
  apply (den_neg (VSum (Tree_as_forest_sum t))). by repeat constructor.
Qed.

Lemma den_antipode_flag t ar ar' :
  den (antipode_value t ar) ≈ den (antipode_value t ar').
Proof.
  destruct (list_repr t) as [[[|c cs]]|] eqn:Hr.
  - by rewrite !antipode_value_leaf.
  - by rewrite !(den_antipode_general t c cs).
  - by rewrite !antipode_value_void.
Qed.

Lemma antipode_value_reduce t :
  antipode_value t true = ForestSum_reduce (antipode_value t false).
Proof.
  destruct (list_repr t) as [[[|c cs]]|] eqn:Hr.
  - rewrite !antipode_value_leaf by done. by vm_compute.
  - by rewrite !(antipode_value_general t c cs).
  - rewrite !antipode_value_void by done. by vm_compute.
Qed.

(** ** The convolution product of tree functions *)

(** The polynomial of the convolution product at a tree: the sum over the
    cuts of the product of [phi1] over the removed trees, times [phi2] of
    the kept tree. *)
Definition convolution_poly (phi1 phi2 : Tree -> poly) (t : Tree) : poly :=
  mjoin ((fun sb => pmul (pprod (phi1 <$> tree_list sb.2)) (phi2 sb.1)) <$> cuts t).

Definition is_VSum (v : value) : Prop :=
  match v with VSum _ => True | _ => False end.

Lemma fold_left_add_VSum (tv : Tree * Forest -> value) l acc :
  is_VSum acc -> is_VSum (fold_left (fun out sb => _add out (tv sb) false) l acc).
Proof.
  revert acc. induction l as [|sb l IH]; intros acc Hacc; [done|].
  cbn [fold_left]. apply IH. by destruct acc, (tv sb).
Qed.

Lemma fold_left_add_den' (tv : Tree * Forest -> value) (phi : Tree * Forest -> poly) l acc :
  wf_value acc ->
  (forall sb, sb ∈ l -> wf_value (tv sb) /\ den_value (tv sb) ≈ phi sb) ->
  wf_value (fold_left (fun out sb => _add out (tv sb) false) l acc)
  /\ den_value (fold_left (fun out sb => _add out (tv sb) false) l acc)
     ≈ den_value acc ++ mjoin (phi <$> l).
Proof.
  revert acc. induction l as [|sb l IH]; intros acc Hacc Hg.
  - split; [done|]. cbn. by rewrite app_nil_r.
  - cbn [fold_left]. destruct (Hg sb ltac:(left)) as [Ht Hd].
    destruct (IH (_add acc (tv sb) false)) as [IH1 IH2].
    { by apply wf_add. }
    { intros x Hx. apply Hg. by right. }
    split; [done|]. rewrite IH2, den_add by done.
    rewrite fmap_cons, mjoin_cons, Hd. by rewrite app_assoc.
Qed.

(** The value of [branches[i].apply(func1)]. *)
Definition branch_value (func1 : tree_fun) (B : Forest) : value :=
  match Forest_apply B func1 true with
  | Ok v => v
  | _ => VInt 0
  end.

Lemma Tree_apply_product_den t (func1 func2 : tree_fun) (g1 g2 : Tree -> value) ar :
  (forall x, func1 x = Ok (g1 x) /\ wf_value (g1 x)) ->
  (forall x, func2 x = Ok (g2 x) /\ wf_value (g2 x)) ->
  exists v, Tree_apply_product t func1 func2 ar = Ok v /\ wf_value v
    /\ den_value v
       ≈ convolution_poly (fun x => den_value (g1 x)) (fun x => den_value (g2 x)) t
    /\ ((forall sb, sb ∈ cuts t ->
           is_VSum (_mul (branch_value func1 sb.2) (g2 sb.1) false)) ->
        is_VSum v /\ (ar = true -> reduce_value v = v)).
Proof.
  intros H1 H2.
  assert (HB : forall B, Forest_apply B func1 true = Ok (branch_value func1 B)
             /\ wf_value (branch_value func1 B)
             /\ den_value (branch_value func1 B)
                ≈ pprod ((fun x => den_value (g1 x)) <$> tree_list B)).
  { intros B. destruct (Forest_apply_den B func1 g1 true) as (v & Hv & Hwf & Hden).
    { intros x _. apply H1. }
    unfold branch_value. by rewrite Hv. }
  set (tv := fun sb : Tree * Forest => _mul (branch_value func1 sb.2) (g2 sb.1) false).
  assert (Htv : forall sb, wf_value (tv sb)
             /\ den_value (tv sb)
                ≈ pmul (pprod ((fun x => den_value (g1 x)) <$> tree_list sb.2))
                       (den_value (g2 sb.1))).
  { intros sb. destruct (HB sb.2) as (_ & Hwf & Hden). destruct (H2 sb.1) as [_ Hg].
    unfold tv. split; [by apply wf_mul|]. by rewrite den_mul, Hden. }
  unfold Tree_apply_product, convolution_poly.
  pose proof (eq_refl : cuts t = zip (Tree_split t).1 (Tree_split t).2) as Hc.
  destruct (Tree_split t) as [subtrees branches]. cbn [fst snd] in Hc. rewrite <- Hc.
  pose proof (cuts_nonempty t) as Hne.
  destruct (cuts t) as [|[s0 b0] rest] eqn:Hcuts.
  { pose proof (cuts_nodes t) as Hn. destruct t as [[r|]]; [|done].
    unfold cuts, Tree_split in Hcuts. cbn [list_repr] in Hcuts.
    destruct r as [[|c cs]]; [done|]. fold (rep_cuts (Node (c :: cs))) in Hcuts.
    by rewrite rep_cuts_cons in Hcuts. }
  rewrite (proj1 (HB b0)). cbn [res_bind]. unfold Tree_apply.
  rewrite (proj1 (H2 s0)). cbn [res_bind].
  rewrite (res_fold_Ok_in _ (fun out sb => _add out (tv sb) false)).
  2:{ intros b sb _. rewrite (proj1 (HB sb.2)). cbn [res_bind].
      by rewrite (proj1 (H2 sb.1)). }
  cbn [res_bind].
  destruct (fold_left_add_den' tv
              (fun sb => pmul (pprod ((fun x => den_value (g1 x)) <$> tree_list sb.2))
                              (den_value (g2 sb.1)))
              rest (tv (s0, b0))) as [Hwf Hden].
  { apply Htv. }
  { intros sb _. apply Htv. }
  rewrite (proj2 (Htv (s0, b0))) in Hden.
  change (_mul (branch_value func1 b0) (g2 s0) false) with (tv (s0, b0)).
  assert (Hshape : (forall sb, sb ∈ (s0, b0) :: rest -> is_VSum (tv sb)) ->
            is_VSum (fold_left (fun out sb => _add out (tv sb) false) rest (tv (s0, b0)))).
  { intros Hs. apply fold_left_add_VSum. apply Hs. left. }
  revert Hwf Hden Hshape.
  generalize (fold_left (fun out sb => _add out (tv sb) false) rest (tv (s0, b0))).
  intros out Hwf Hden Hshape. eexists. split; [done|].
  destruct ar; cbn [andb].
  - assert (wf_value (if negb (is_scalar out) then reduce_value out else out)
            /\ den_value (if negb (is_scalar out) then reduce_value out else out)
               ≈ den_value out) as [Hwf' Hden'].
    { destruct (negb _); [|done].
      split; [by apply wf_reduce_value|apply den_value_reduce]. }
    split; [done|]. split; [by rewrite Hden'|].
    intros Hs. specialize (Hshape Hs). destruct out; try done.
    cbn [is_scalar negb reduce_value]. split; [done|]. intros _.
    by rewrite ForestSum_reduce_reduce.
  - split; [done|]. split; [done|]. intros Hs. split; [by apply Hshape|done].
Qed.

(** ** The antipode is a left inverse of the identity *)

(** [lambda x: x.antipode()] and [lambda x: x] *)
Definition antipode_fun : tree_fun :=
  fun x => do s <~ Tree_antipode x true; Ok (VSum s).

Definition identity_fun : tree_fun := fun x => Ok (VTree x).

Lemma mjoin_partition {A} (psi : A -> poly) (p : A -> bool) (l : list A) :
  mjoin (psi <$> l)
  ≈ mjoin (psi <$> filter (fun x => p x = true) l)
    ++ mjoin (psi <$> filter (fun x => p x = false) l).
Proof.
  induction l as [|x l IH]; [done|]. rewrite fmap_cons, mjoin_cons, IH.
  destruct (p x) eqn:Hp.
  - rewrite filter_cons_True by done. rewrite (filter_cons_False _ x) by (by rewrite Hp).
    rewrite fmap_cons, mjoin_cons. by rewrite app_assoc.
  - rewrite filter_cons_False by (by rewrite Hp). rewrite (filter_cons_True _ x) by done.
    rewrite fmap_cons, mjoin_cons. intros m. rewrite !coeff_app. lia.
Qed.

Lemma pprod_ones (k : nat) : pprod (replicate k (pconst 1)) ≈ pconst 1.
Proof.
  induction k as [|k IH]; [done|]. cbn [replicate pprod foldr].
  fold (pprod (replicate k (pconst 1))). by rewrite IH, pmul_1_l.
Qed.

Lemma pprod_ext {A} (phi psi : A -> poly) (l : list A) :
  (forall x, x ∈ l -> phi x ≈ psi x) -> pprod (phi <$> l) ≈ pprod (psi <$> l).
Proof.
  induction l as [|x l IH]; intros H; [done|]. cbn [fmap list_fmap pprod foldr].
  fold (pprod (phi <$> l)). fold (pprod (psi <$> l)).
  rewrite IH, (H x) by (left || (intros; apply H; by right)). done.
Qed.

Lemma mjoin_ext {A} (phi psi : A -> poly) (l : list A) :
  (forall x, x ∈ l -> phi x ≈ psi x) -> mjoin (phi <$> l) ≈ mjoin (psi <$> l).
Proof.
  induction l as [|x l IH]; intros H; [done|]. rewrite !fmap_cons, !mjoin_cons.
  rewrite IH, (H x) by (left || (intros; apply H; by right)). done.
Qed.

Lemma antipode_fun_Ok x :
  antipode_fun x = Ok (VSum (antipode_value x true))
  /\ wf_value (VSum (antipode_value x true)).
Proof.
  unfold antipode_fun. rewrite Tree_antipode_value. split; [done|].
  apply wf_antipode_value.
Qed.

Definition int_or_sum (v : value) : Prop :=
  match v with VInt _ | VSum _ => True | _ => False end.

Lemma Forest_apply_fold f (func : tree_fun) (g : Tree -> value) ar :
  (forall x, func x = Ok (g x)) ->
  Forest_apply f func ar
  = Ok (let out := fold_left (fun out t => _mul out (g t) false) (tree_list f) (VInt 1) in
        if ar && negb (is_scalar_or_tree out) then reduce_value out else out).
Proof.
  intros H. unfold Forest_apply, Tree_apply.
  rewrite (res_fold_Ok_in _ (fun out t => _mul out (g t) false)); [done|].
  intros b x _. by rewrite H.
Qed.

Lemma fold_left_mul_int_or_sum (s : Tree -> ForestSum) ts acc :
  int_or_sum acc ->
  int_or_sum (fold_left (fun out t => _mul out (VSum (s t)) false) ts acc).
Proof.
  revert acc. induction ts as [|t ts IH]; intros acc Hacc; [done|].
  cbn [fold_left]. apply IH. by destruct acc.
Qed.

Lemma branch_value_antipode B : int_or_sum (branch_value antipode_fun B).
Proof.
  unfold branch_value.
  rewrite (Forest_apply_fold B antipode_fun (fun x => VSum (antipode_value x true)))
    by apply antipode_fun_Ok.
  cbn zeta.
  pose proof (fold_left_mul_int_or_sum (fun x => antipode_value x true)
                (tree_list B) (VInt 1) I) as H.
  destruct (fold_left _ (tree_list B) (VInt 1)); done.
Qed.

Lemma convolution_antipode_identity c cs :
  let t := mkTree (Some (Node (c :: cs))) in
  convolution_poly (fun x => den_value (VSum (antipode_value x true)))
                   (fun x => den_value (VTree x)) t
  ≈ [].
Proof.
  intros t. unfold convolution_poly.
  rewrite (mjoin_partition _ (proper_cut t)). fold (reduced_cuts t).
  pose proof (trivial_cuts c cs) as Htriv. cbn zeta in Htriv. fold t in Htriv.
  rewrite Htriv. clear Htriv.
  rewrite (mjoin_ext _ cut_poly (reduced_cuts t)).
  2:{ intros sb _. unfold cut_poly, antipode_poly. apply pmul_peq; [|done].
      apply pprod_ext. intros x _. apply den_antipode_flag. }
  assert (Hfull : pmul (pprod ((fun x => den_value (VSum (antipode_value x true)))
                                 <$> tree_list (full_cut t).2))
                       (den_value (VTree (full_cut t).1))
                  ≈ den (antipode_value t false)).
  { cbn [full_cut fst snd tree_list fmap list_fmap pprod foldr den_value].
    change (fmono (mkForest [EMPTY_TREE])) with (∅ : mono).
    change [(∅ : mono, 1)] with (pconst 1). rewrite !pmul_1_r. apply den_antipode_flag. }
  assert (Hno : pmul (pprod ((fun x => den_value (VSum (antipode_value x true)))
                               <$> tree_list (no_cut (Node (c :: cs))).2))
                     (den_value (VTree (no_cut (Node (c :: cs))).1))
                ≈ den_value (VTree t)).
  { unfold no_cut. cbn [fst snd tree_list]. rewrite fmap_replicate.
    cbn [den_value]. rewrite (antipode_value_void EMPTY_TREE) by done.
    change (den EMPTY_FOREST_SUM) with (pconst 1). by rewrite pprod_ones, pmul_1_l. }
  cbn [fmap list_fmap mjoin list_join]. rewrite Hfull, Hno.
  rewrite (den_antipode_general t c cs) by done.
  intros m. rewrite !coeff_app, !coeff_pscale, coeff_nil. lia.
Qed.

(** The antipode is a left inverse of the identity for the convolution
    product: [t.apply_product(lambda x: x.antipode(), lambda x: x)] returns
    the counit of [t], the constant [EMPTY_FOREST_SUM] on the void tree and
    the constant [ZERO_FOREST_SUM] on every other tree. *)
Theorem antipode_left_inverse t :
  Tree_apply_product t antipode_fun identity_fun true = _counit t.
Proof.
  destruct t as [[[[|c cs]]|]]; [by vm_compute| |by vm_compute].
  set (t := mkTree (Some (Node (c :: cs)))).
  destruct (Tree_apply_product_den t antipode_fun identity_fun
              (fun x => VSum (antipode_value x true)) VTree true)
    as (v & Hv & Hwf & Hden & Hshape).
  { apply antipode_fun_Ok. }
  { done. }
  rewrite Hv. destruct Hshape as [Hs Hred].
  { intros sb _. pose proof (branch_value_antipode sb.2) as H.
    destruct (branch_value antipode_fun sb.2); done. }
  destruct v as [| | |o]; try done. specialize (Hred eq_refl).
  cbn [reduce_value] in Hred. injection Hred as Hred.
  unfold _counit. cbn [list_repr t]. do 2 f_equal. rewrite <- Hred.
  apply reduce_zero; [apply Hwf|]. cbn [den_value] in Hden. rewrite Hden.
  apply convolution_antipode_identity.
Qed.

(** ** Joining and unjoining *)

Lemma omap_list_repr_Some (cs : list rep) :
  omap list_repr ((fun c => mkTree (Some c)) <$> cs) = cs.
Proof. induction cs as [|c cs IH]; [done|]. cbn. by rewrite IH. Qed.

Lemma fmap_Some_omap_list_repr (ts : list Tree) :
  (fun c => mkTree (Some c)) <$> omap list_repr ts
  = filter (fun t => list_repr t <> None) ts.
Proof.
  induction ts as [|[[r|]] ts IH]; [done| |].
  - rewrite filter_cons_True by done. cbn. by rewrite <- IH.
  - rewrite filter_cons_False by (cbn; tauto). cbn. exact IH.
Qed.

(** [join] undoes [unjoin] on every tree that is not void, and turns the
    unjoined void tree into the single-node tree; [unjoin] after [join]
    gives the forest of the trees that are not void; and the joined tree
    has one node more than the forest. *)
Theorem join_unjoin :
  (forall t, list_repr t <> None -> Forest_join (Tree_unjoin t) = t)
  /\ Forest_join (Tree_unjoin EMPTY_TREE) = SINGLETON_TREE
  /\ (forall f, Tree_unjoin (Forest_join f)
                = mkForest (filter (fun t => list_repr t <> None) (tree_list f)))
  /\ (forall f, Tree_nodes (Forest_join f) = S (Forest_nodes f)).
Proof.
  split; [|split; [done|split]].
  - intros [[[cs]|]] Ht; [|done]. unfold Tree_unjoin, Forest_join.
    cbn [list_repr children_of tree_list]. by rewrite omap_list_repr_Some.
  - intros f. unfold Tree_unjoin, Forest_join. cbn [list_repr children_of].
    by rewrite fmap_Some_omap_list_repr.
  - intros f. unfold Forest_join, Tree_nodes, Forest_nodes. cbn [list_repr _nodes].
    rewrite rep_nodes_Node. f_equal. unfold Tree_nodes.
    induction (tree_list f) as [|[[r|]] ts IH]; [done| |]; cbn; by rewrite IH.
Qed.

Lemma join_unjoin_witness :
  list_repr SINGLETON_TREE <> None
  /\ Forest_join (Tree_unjoin SINGLETON_TREE) = SINGLETON_TREE.
Proof.
  assert (list_repr SINGLETON_TREE <> None) as H by (simpl; discriminate).
  split; [exact H|]. exact (proj1 join_unjoin SINGLETON_TREE H).
Defined.

(** ** Powers *)

Lemma pprod_replicate_forest (k : nat) ts :
  pprod (replicate k [(fmono (mkForest ts), 1)])
  ≈ [(fmono (mkForest (mjoin (replicate k ts))), 1)].
Proof.
  induction k as [|k IH]; [done|]. cbn [replicate pprod foldr mjoin list_join].
  fold (pprod (replicate k [(fmono (mkForest ts), 1)])). rewrite IH, pmul_mono_l.
  cbn [fmap list_fmap fst snd]. by rewrite fmono_app.
Qed.

Lemma Tree_pow_den t n ar :
  0 <= n ->
  exists v, Tree_pow t n ar = Ok v
            /\ den_value v ≈ pprod (replicate (Z.to_nat n) (den_value (VTree t))).
Proof.
  intros Hn. unfold Tree_pow. destruct (Z.ltb_spec n 0); [lia|].
  destruct (Z.eqb_spec n 0) as [->|Hn0]; [by eexists|].
  eexists. split; [done|]. cbn [den_value].
  assert (fmono (if ar then Forest_reduce (mkForest (replicate (Z.to_nat n) t))
                 else mkForest (replicate (Z.to_nat n) t))
          = fmono (mkForest (replicate (Z.to_nat n) t))) as ->.
  { destruct ar; [apply fmono_reduce|done]. }
  rewrite <- pprod_singles, fmap_replicate. done.
Qed.

Lemma Forest_pow_den f n ar :
  0 <= n ->
  exists f', Forest_pow f n ar = Ok f'
             /\ den_value (VForest f')
                ≈ pprod (replicate (Z.to_nat n) (den_value (VForest f))).
Proof.
  intros Hn. unfold Forest_pow. destruct (Z.ltb_spec n 0); [lia|].
  destruct (Z.eqb_spec n 0) as [->|Hn0]; [by eexists|].
  eexists. split; [done|]. cbn [den_value].
  assert (fmono (if ar then Forest_reduce (mkForest (mjoin (replicate (Z.to_nat n) (tree_list f))))
                 else mkForest (mjoin (replicate (Z.to_nat n) (tree_list f))))
          = fmono (mkForest (mjoin (replicate (Z.to_nat n) (tree_list f))))) as ->.
  { destruct ar; [apply fmono_reduce|done]. }
  destruct f as [ts]. cbn [tree_list]. by rewrite pprod_replicate_forest.
Qed.

Lemma ForestSum_iter_mul_den s (k : nat) :
  wf_ForestSum s ->
  wf_ForestSum (Nat.iter k (fun temp => ForestSum_mul temp (VSum s) false) s)
  /\ den (Nat.iter k (fun temp => ForestSum_mul temp (VSum s) false) s)
     ≈ pprod (replicate (S k) (den s)).
Proof.
  intros Hs. induction k as [|k [IH1 IH2]].
  - split; [done|]. cbn. by rewrite pmul_1_r.
  - rewrite Nat.iter_succ. split; [by apply wf_ForestSum_mul|].
    rewrite den_ForestSum_mul by done. cbn [den_value]. rewrite IH2.
    cbn [replicate pprod foldr]. apply pmul_comm.
Qed.

Lemma ForestSum_pow_den s n ar :
  wf_ForestSum s -> 0 <= n ->
  exists s', ForestSum_pow s n ar = Ok s' /\ wf_ForestSum s'
             /\ den s' ≈ pprod (replicate (Z.to_nat n) (den s)).
Proof.
  intros Hs Hn. unfold ForestSum_pow. destruct (Z.ltb_spec n 0); [lia|].
  destruct (Z.eqb_spec n 0) as [->|Hn0].
  { eexists. split; [done|]. split; [by repeat constructor|done]. }
  destruct (ForestSum_iter_mul_den s (Z.to_nat (n - 1)) Hs) as [Hwf Hden].
  replace (S (Z.to_nat (n - 1))) with (Z.to_nat n) in Hden by lia.
  eexists. split; [done|]. split; [by apply wf_ForestSum_reduce_if|].
  destruct ar; [by rewrite den_reduce|done].
Qed.

(** The powers [t ** n], [f ** n] and [s ** n]: a negative exponent raises
    [ValueError]; the exponent 0 gives the void tree (a tree, for a tree),
    the forest of the void tree and the forest sum of the void tree; and for
    every exponent that is not negative the polynomial of the result is the
    [n]-fold product of the polynomial of the base. *)
Theorem powers_spec t f s n ar :
  wf_ForestSum s ->
  (n < 0 -> Tree_pow t n ar = Raise ValueError /\ Forest_pow f n ar = Raise ValueError
            /\ ForestSum_pow s n ar = Raise ValueError)
  /\ (Tree_pow t 0 ar = Ok (VTree EMPTY_TREE) /\ Forest_pow f 0 ar = Ok EMPTY_FOREST
      /\ ForestSum_pow s 0 ar = Ok EMPTY_FOREST_SUM)
  /\ (0 <= n ->
      exists v f' s',
        Tree_pow t n ar = Ok v /\ Forest_pow f n ar = Ok f' /\ ForestSum_pow s n ar = Ok s'
        /\ den_value v ≈ pprod (replicate (Z.to_nat n) (den_value (VTree t)))
        /\ den_value (VForest f') ≈ pprod (replicate (Z.to_nat n) (den_value (VForest f)))
        /\ den s' ≈ pprod (replicate (Z.to_nat n) (den s))).
Proof.
  intros Hs. split; [|split; [done|]].
  - intros Hn. unfold Tree_pow, Forest_pow, ForestSum_pow.
    by destruct (Z.ltb_spec n 0); [|lia].
  - intros Hn. destruct (Tree_pow_den t n ar Hn) as (v & Hv & Hvd).
    destruct (Forest_pow_den f n ar Hn) as (f' & Hf & Hfd).
    destruct (ForestSum_pow_den s n ar Hs Hn) as (s' & Hs' & _ & Hsd).
    by exists v, f', s'.
Qed.

Lemma powers_spec_witness :
  wf_ForestSum SINGLETON_FOREST_SUM
  /\ Tree_pow SINGLETON_TREE 0 true = Ok (VTree EMPTY_TREE).
Proof.
  assert (wf_ForestSum SINGLETON_FOREST_SUM) as H.
  { split; [reflexivity|]. repeat constructor. simpl. discriminate. }
  split; [exact H|].
  exact (proj1 (proj1 (proj2 (powers_spec SINGLETON_TREE SINGLETON_FOREST
                                 SINGLETON_FOREST_SUM 0 true H)))).
Defined.

(** ** Signs *)

(** [(-1) ** n] *)
Definition sgn (n : nat) : Z := if Nat.even n then 1 else -1.

Lemma zip_with_sign_sign (fl : list Forest) (cl : list Z) :
  length fl = length cl ->
  zip_with (fun f c => if Nat.even (Forest_nodes f) then c else - c) fl
    (zip_with (fun f c => if Nat.even (Forest_nodes f) then c else - c) fl cl)
  = cl.
Proof.
  revert cl. induction fl as [|f fl IH]; intros [|c cl] Hl; try done.
  cbn [zip_with]. rewrite IH by (cbn in Hl; lia).
  f_equal. destruct (Nat.even _); lia.
Qed.

Lemma den_ForestSum_sign s :
  den (ForestSum_sign s)
  = (fun fc => (fmono fc.1, sgn (Forest_nodes fc.1) * fc.2)) <$> terms s.
Proof.
  unfold ForestSum_sign, den, terms, dterms. cbn [forest_list coeff_list].
  generalize (coeff_list s). induction (forest_list s) as [|f fl IH]; intros [|c cl];
    try done.
  cbn [zip_with fmap list_fmap fst snd]. rewrite IH. f_equal. f_equal.
  unfold sgn. destruct (Nat.even _); lia.
Qed.

(** The signs: [Tree.sign] and [Forest.sign] give the object times
    [(-1)] to its number of nodes; [ForestSum.sign] multiplies each
    coefficient by [(-1)] to the number of nodes of its forest, keeps the
    forests, and is an involution. *)
Theorem sign_spec t f s :
  wf_sum s ->
  den_value (Tree_sign t) ≈ pscale (sgn (Tree_nodes t)) (den_value (VTree t))
  /\ den_value (Forest_sign f) ≈ pscale (sgn (Forest_nodes f)) (den_value (VForest f))
  /\ den (ForestSum_sign s)
     = (fun fc => (fmono fc.1, sgn (Forest_nodes fc.1) * fc.2)) <$> terms s
  /\ forest_list (ForestSum_sign s) = forest_list s
  /\ wf_sum (ForestSum_sign s)
  /\ ForestSum_sign (ForestSum_sign s) = s.
Proof.
  intros Hs. split; [|split; [|split; [|split; [|split]]]].
  - unfold Tree_sign, sgn. destruct (Nat.even _); [by rewrite pscale_1|].
    apply (den_neg (VTree t)). done.
  - unfold Forest_sign, sgn. destruct (Nat.even _); [by rewrite pscale_1|].
    unfold Forest_neg. rewrite den_Forest_mul by done. apply pmul_const_r.
  - apply den_ForestSum_sign.
  - done.
  - unfold wf_sum, ForestSum_sign in *. cbn [forest_list coeff_list].
    rewrite length_zip_with. lia.
  - unfold ForestSum_sign. cbn [forest_list coeff_list].
    rewrite zip_with_sign_sign by exact Hs. by destruct s.
Qed.

Lemma sign_spec_witness :
  wf_sum SINGLETON_FOREST_SUM
  /\ ForestSum_sign (ForestSum_sign SINGLETON_FOREST_SUM) = SINGLETON_FOREST_SUM.
Proof.
  split; [reflexivity|].
  exact (proj2 (proj2 (proj2 (proj2 (proj2
           (sign_spec SINGLETON_TREE SINGLETON_FOREST SINGLETON_FOREST_SUM eq_refl)))))).
Defined.

(** ** Dropping single-node trees *)

Lemma Forest_reduce_short f :
  (length (tree_list f) <= 1)%nat -> Forest_reduce f = f.
Proof. intros H. unfold Forest_reduce. by rewrite decide_True. Qed.

Lemma Forest_reduce_nonvoid f :
  Forall (fun t => list_repr t <> None) (tree_list f) -> Forest_reduce f = f.
Proof.
  intros H. rewrite Forest_reduce_cases. cbn zeta.
  destruct (decide _); [done|]. rewrite filter_nonvoid_id by done.
  destruct (decide (tree_list f = [])) as [He|]; [|by rewrite decide_True].
  rewrite He in *. cbn in *. lia.
Qed.

Lemma Forest_singleton_reduced_cases f :
  let g := Forest_singleton_reduced f in
  (length (tree_list g) <= 1)%nat
  \/ Forall (fun x => list_repr x <> None /\ list_repr x <> Some (Node [])) (tree_list g).
Proof.
  cbn zeta. unfold Forest_singleton_reduced. cbn zeta.
  destruct (decide (1 < length (tree_list (Forest_reduce f)))%nat) as [Hlen|Hlen];
    [|left; lia].
  destruct (Forest_reduce_shape f) as (_ & Hnv & _). specialize (Hnv Hlen).
  destruct (filter _ (tree_list (Forest_reduce f))) as [|x l] eqn:Hf; [by left|].
  right. rewrite <- Hf. cbn [tree_list]. apply Forall_forall.
  intros y [Hy Hin]%list_elem_of_filter. rewrite Forall_forall in Hnv. split; [|done].
  by apply Hnv.
Qed.

Lemma Forest_singleton_reduced_idem f :
  Forest_singleton_reduced (Forest_singleton_reduced f) = Forest_singleton_reduced f.
Proof.
  pose proof (Forest_singleton_reduced_cases f) as Hc. cbn zeta in Hc.
  set (g := Forest_singleton_reduced f) in *. unfold Forest_singleton_reduced at 1.
  cbn zeta. destruct Hc as [Hlen|Hall].
  - rewrite Forest_reduce_short by done. by rewrite decide_False by lia.
  - rewrite Forest_reduce_nonvoid.
    2:{ eapply Forall_impl; [exact Hall|]. by intros ? [? _]. }
    destruct (decide _); [|done]. rewrite filter_all.
    2:{ eapply Forall_impl; [exact Hall|]. by intros ? [_ ?]. }
    destruct g as [[|y k]]; [cbn in *; lia|done].
Qed.

(** [Forest.singleton_reduced] is idempotent; its result has a tree when
    the forest has one, and when it has several trees, none of them is void
    or the single-node tree. [ForestSum.singleton_reduced] keeps the
    coefficients and is idempotent too. *)
Theorem Forest_singleton_reduced_spec f s :
  Forest_singleton_reduced (Forest_singleton_reduced f) = Forest_singleton_reduced f
  /\ (tree_list f <> [] -> tree_list (Forest_singleton_reduced f) <> [])
  /\ ((1 < length (tree_list (Forest_singleton_reduced f)))%nat ->
      Forall (fun x => list_repr x <> None /\ list_repr x <> Some (Node []))
             (tree_list (Forest_singleton_reduced f)))
  /\ coeff_list (ForestSum_singleton_reduced s) = coeff_list s
  /\ ForestSum_singleton_reduced (ForestSum_singleton_reduced s)
     = ForestSum_singleton_reduced s.
Proof.
  pose proof (Forest_singleton_reduced_cases f) as Hc. cbn zeta in Hc.
  split; [apply Forest_singleton_reduced_idem|]. split; [|split; [|split; [done|]]].
  3:{ unfold ForestSum_singleton_reduced. cbn [forest_list coeff_list]. f_equal.
      rewrite <- list_fmap_compose. apply list_fmap_ext. intros _ x _.
      apply Forest_singleton_reduced_idem. }
  - intros Hf. unfold Forest_singleton_reduced. cbn zeta.
    destruct (decide _) as [Hlen|Hlen].
    + by destruct (filter _ (tree_list (Forest_reduce f))).
    + intros He. by apply (proj2 (proj2 (Forest_reduce_shape f))) in He.
  - intros Hlen. destruct Hc as [Hc|Hc]; [lia|done].
Qed.

Lemma Forest_singleton_reduced_spec_witness :
  tree_list (mkForest [SINGLETON_TREE; SINGLETON_TREE]) <> []
  /\ tree_list (Forest_singleton_reduced (mkForest [SINGLETON_TREE; SINGLETON_TREE])) <> [].
Proof.
  assert (tree_list (mkForest [SINGLETON_TREE; SINGLETON_TREE]) <> []) as H
    by (simpl; discriminate).
  split; [exact H|].
  exact (proj1 (proj2 (Forest_singleton_reduced_spec
                         (mkForest [SINGLETON_TREE; SINGLETON_TREE])
                         SINGLETON_FOREST_SUM)) H).
Defined.

(** ** Numbers of nodes *)

Lemma nodes_filter_nonvoid ts :
  sum_list_with Tree_nodes (filter (fun t => list_repr t <> None) ts)
  = sum_list_with Tree_nodes ts.
Proof.
  induction ts as [|[[r|]] ts IH]; [done| |].
  - rewrite filter_cons_True by done. cbn. by rewrite IH.
  - rewrite filter_cons_False by (cbn; tauto). cbn. exact IH.
Qed.

Lemma Forest_nodes_reduce f : Forest_nodes (Forest_reduce f) = Forest_nodes f.
Proof.
  rewrite Forest_reduce_cases. cbn zeta. destruct (decide _); [done|].
  unfold Forest_nodes. destruct (decide _) as [He|]; [|destruct (decide _); [done|]].
  - by rewrite <- (nodes_filter_nonvoid (tree_list f)), He.
  - cbn [tree_list]. apply nodes_filter_nonvoid.
Qed.

(** Reduction does not change the number of nodes of a forest and does not
    add trees; the product of two forests has the nodes of both, reduced or
    not; and every pair that [split] returns has together the nodes of the
    tree. *)
Theorem nodes_spec :
  (forall f, Forest_nodes (Forest_reduce f) = Forest_nodes f
             /\ (Forest_num_trees (Forest_reduce f) <= Forest_num_trees f)%nat)
  /\ (forall f g ar,
        Forest_nodes (Forest_mul_Forest f g ar) = (Forest_nodes f + Forest_nodes g)%nat)
  /\ (forall t (i : nat) T B,
        (Tree_split t).1 !! i = Some T -> (Tree_split t).2 !! i = Some B ->
        (Tree_nodes T + Forest_nodes B)%nat = Tree_nodes t).
Proof.
  split; [|split].
  - intros f. split; [apply Forest_nodes_reduce|].
    rewrite Forest_reduce_cases. cbn zeta. unfold Forest_num_trees.
    repeat destruct (decide _); try lia; cbn [tree_list EMPTY_FOREST length]; [lia|].
    apply length_filter.
  - intros f g ar. unfold Forest_mul_Forest.
    assert (Forest_nodes (mkForest (tree_list f ++ tree_list g))
            = (Forest_nodes f + Forest_nodes g)%nat) as H.
    { unfold Forest_nodes. cbn [tree_list]. apply sum_list_with_app. }
    destruct ar; [by rewrite Forest_nodes_reduce|done].
  - intros t i T B HT HB. pose proof (cuts_nodes t) as H.
    rewrite Forall_forall in H. apply (H (T, B)).
    apply (list_elem_of_lookup_2 _ i). unfold cuts. by rewrite lookup_zip_with, HT, HB.
Qed.

(** ** The convolution powers *)

(** The polynomial of the convolution power [k + 1] of [phi]. *)
Fixpoint cpow (phi : Tree -> poly) (k : nat) (t : Tree) : poly :=
  match k with
  | O => phi t
  | S k' => convolution_poly phi (cpow phi k') t
  end.

Lemma convolution_poly_ext (phi1 phi2 psi2 : Tree -> poly) t :
  (forall x, phi2 x ≈ psi2 x) ->
  convolution_poly phi1 phi2 t ≈ convolution_poly phi1 psi2 t.
Proof.
  intros H. unfold convolution_poly. apply mjoin_ext. intros sb _.
  by rewrite (H sb.1).
Qed.

Lemma apply_poly_ext (phi psi : Tree -> poly) l :
  (forall x, phi x ≈ psi x) -> apply_poly phi l ≈ apply_poly psi l.
Proof.
  intros H. unfold apply_poly. apply mjoin_ext. intros fc _.
  apply pscale_peq. apply pprod_ext. intros x _. apply H.
Qed.

(** The value of [x.apply_power(func, n, apply_reduction)]. *)
Definition power_value (fuel : nat) (func : tree_fun) (n : Z) (ar : bool) (x : Tree)
  : value :=
  match Tree_apply_power_fuel fuel x func n ar with
  | Ok v => v
  | _ => VInt 0
  end.

Lemma reduce_unless (c : bool) v :
  wf_value v ->
  wf_value (if c then reduce_value v else v)
  /\ den_value (if c then reduce_value v else v) ≈ den_value v.
Proof.
  intros Hv. destruct c; [|done].
  split; [by apply wf_reduce_value|apply den_value_reduce].
Qed.

Lemma Tree_apply_power_pos (func : tree_fun) (g : Tree -> value) (k fuel : nat) x ar :
  (forall y, func y = Ok (g y) /\ wf_value (g y)) ->
  (k < fuel)%nat ->
  Tree_apply_power_fuel fuel x func (Z.of_nat (S k)) ar
  = Ok (power_value fuel func (Z.of_nat (S k)) ar x)
  /\ wf_value (power_value fuel func (Z.of_nat (S k)) ar x)
  /\ den_value (power_value fuel func (Z.of_nat (S k)) ar x)
     ≈ cpow (fun y => den_value (g y)) k x.
Proof.
  intros Hg. revert fuel x ar. induction k as [|k IH]; intros fuel x ar Hk.
  - destruct fuel as [|fuel]; [lia|]. unfold power_value. cbn [Tree_apply_power_fuel].
    change (Z.of_nat 1) with 1. cbn [Z.eqb Pos.eqb]. unfold Tree_apply.
    destruct (Hg x) as [-> Hwf]. done.
  - destruct fuel as [|fuel]; [lia|]. unfold power_value. cbn [Tree_apply_power_fuel].
    destruct (Z.eqb_spec (Z.of_nat (S (S k))) 0); [lia|].
    destruct (Z.eqb_spec (Z.of_nat (S (S k))) 1); [lia|].
    destruct (Z.ltb_spec (Z.of_nat (S (S k))) 0); [lia|].
    replace (Z.of_nat (S (S k)) - 1) with (Z.of_nat (S k)) by lia.
    destruct (Tree_apply_product_den x func
                (fun y => Tree_apply_power_fuel fuel y func (Z.of_nat (S k)) false)
                g (power_value fuel func (Z.of_nat (S k)) false) false Hg)
      as (v & -> & Hwf & Hden & _).
    { intros y. destruct (IH fuel y false) as (? & ? & _); [lia|done]. }
    cbn [res_bind].
    destruct (reduce_unless (ar && negb (is_scalar_or_tree v)) v Hwf) as [Hwf' Hden'].
    split; [done|]. split; [done|]. rewrite Hden', Hden. cbn [cpow].
    apply convolution_poly_ext. intros y. destruct (IH fuel y false) as (_ & _ & ?); [lia|done].
Qed.

Lemma Tree_apply_power_ge1 (func : tree_fun) (g : Tree -> value) (n : Z) x ar :
  (forall y, func y = Ok (g y) /\ wf_value (g y)) ->
  1 <= n ->
  Tree_apply_power x func n ar
  = Ok (power_value (S (Z.abs_nat n)) func n ar x)
  /\ wf_value (power_value (S (Z.abs_nat n)) func n ar x)
  /\ den_value (power_value (S (Z.abs_nat n)) func n ar x)
     ≈ cpow (fun y => den_value (g y)) (Z.to_nat n - 1) x.
Proof.
  intros Hg Hn. unfold Tree_apply_power.
  pose proof (Tree_apply_power_pos func g (Z.to_nat n - 1) (S (Z.abs_nat n)) x ar Hg) as H.
  replace (Z.of_nat (S (Z.to_nat n - 1))) with n in H by lia.
  apply H. lia.
Qed.


(** ** Sums of polynomials over lists *)

Definition psum {A} (F : A -> poly) (l : list A) : poly := mjoin (F <$> l).

Lemma psum_nil {A} (F : A -> poly) : psum F [] = [].
Proof. done. Qed.

Lemma psum_cons {A} (F : A -> poly) x l : psum F (x :: l) = F x ++ psum F l.
Proof. done. Qed.

Lemma psum_app {A} (F : A -> poly) l l' : psum F (l ++ l') = psum F l ++ psum F l'.
Proof.
  induction l as [|x l IH]; [done|]. cbn [app]. rewrite !psum_cons, IH.
  by rewrite app_assoc.
Qed.

Lemma psum_fmap {A B} (F : B -> poly) (g : A -> B) l :
  psum F (g <$> l) = psum (fun x => F (g x)) l.
Proof. unfold psum. by rewrite <- list_fmap_compose. Qed.

Lemma coeff_psum {A} m (F : A -> poly) l :
  coeff m (psum F l) = Zsum (fun x => coeff m (F x)) l.
Proof.
  induction l as [|x l IH]; [done|]. by rewrite psum_cons, coeff_app, Zsum_cons, IH.
Qed.

Lemma psum_ext {A} (F G : A -> poly) l :
  (forall x, x ∈ l -> F x ≈ G x) -> psum F l ≈ psum G l.
Proof. apply mjoin_ext. Qed.

Lemma psum_perm {A} (F : A -> poly) l l' : l ≡ₚ l' -> psum F l ≈ psum F l'.
Proof. intros H m. rewrite !coeff_psum. by apply Zsum_perm. Qed.

Lemma psum_for_for {A B C} (F : C -> poly) (g : A -> B -> C) xs ys :
  psum F (for_for g xs ys) = psum (fun x => psum (fun y => F (g x y)) ys) xs.
Proof.
  induction xs as [|x xs IH]; [done|].
  by rewrite for_for_cons, psum_app, psum_cons, psum_fmap, IH.
Qed.

Lemma psum_swap {A B} (F : A -> B -> poly) xs ys :
  psum (fun x => psum (fun y => F x y) ys) xs
  ≈ psum (fun y => psum (fun x => F x y) xs) ys.
Proof.
  intros m. rewrite !coeff_psum.
  rewrite (Zsum_ext _ (fun x => Zsum (fun y => coeff m (F x y)) ys))
    by (intros; apply coeff_psum).
  rewrite Zsum_swap. apply Zsum_ext. intros y _. by rewrite coeff_psum.
Qed.

Lemma psum_plus {A} (F G : A -> poly) l :
  psum (fun x => F x ++ G x) l ≈ psum F l ++ psum G l.
Proof.
  intros m. rewrite coeff_app, !coeff_psum, <- Zsum_plus.
  apply Zsum_ext. intros x _. apply coeff_app.
Qed.

Lemma psum_pmul_r {A} (F : A -> poly) q l :
  psum (fun x => pmul (F x) q) l = pmul (psum F l) q.
Proof.
  induction l as [|x l IH]; [done|]. by rewrite !psum_cons, pmul_app_l, IH.
Qed.

Lemma psum_pmul_l {A} (F : A -> poly) q l :
  psum (fun x => pmul q (F x)) l ≈ pmul q (psum F l).
Proof.
  rewrite pmul_comm, <- psum_pmul_r. apply psum_ext. intros x _. apply pmul_comm.
Qed.

Lemma pprod_app ps qs : pprod (ps ++ qs) ≈ pmul (pprod ps) (pprod qs).
Proof.
  induction ps as [|p ps IH].
  { cbn [app]. change (pprod []) with (pconst 1). by rewrite pmul_1_l. }
  cbn [app pprod foldr]. fold (pprod (ps ++ qs)) (pprod ps). by rewrite IH, pmul_assoc.
Qed.

Lemma convolution_poly_psum phi psi t :
  convolution_poly phi psi t
  = psum (fun sb => pmul (pprod (phi <$> tree_list sb.2)) (psi sb.1)) (cuts t).
Proof. done. Qed.

(** ** Sums over the joint cuts of several trees *)

(** The sum over one cut of each tree: the product of [phi] over the
    removed trees, times [H] of the kept trees. *)
Definition jsum (phi : Tree -> poly) (H : list Tree -> poly)
    (ls : list (list (Tree * Forest))) : poly :=
  psum (fun p => pmul (pprod (phi <$> mjoin (tree_list <$> p.*2))) (H p.*1)) (product ls).

Lemma pmul_swap_l p q r : pmul p (pmul q r) ≈ pmul q (pmul p r).
Proof. by rewrite <- !pmul_assoc, (pmul_comm p q). Qed.

Lemma jsum_nil phi H : jsum phi H [] ≈ H [].
Proof.
  unfold jsum. cbn [product]. rewrite psum_cons, psum_nil, app_nil_r.
  cbn [fmap list_fmap mjoin list_join]. change (pprod []) with (pconst 1).
  apply pmul_1_l.
Qed.

Lemma jsum_cons phi H l ls :
  jsum phi H (l :: ls)
  ≈ psum (fun x => pmul (pprod (phi <$> tree_list x.2))
                        (jsum phi (fun ks => H (x.1 :: ks)) ls)) l.
Proof.
  unfold jsum. cbn [product]. rewrite psum_for_for. apply psum_ext. intros x _.
  rewrite <- psum_pmul_l. apply psum_ext. intros p _.
  rewrite !fmap_cons, mjoin_cons, fmap_app, pprod_app. by rewrite pmul_assoc.
Qed.

Lemma jsum_ext phi H H' ls :
  (forall ks, H ks ≈ H' ks) -> jsum phi H ls ≈ jsum phi H' ls.
Proof. intros He. unfold jsum. apply psum_ext. intros p _. by rewrite He. Qed.

Lemma jsum_plus phi H1 H2 ls :
  jsum phi (fun ks => H1 ks ++ H2 ks) ls ≈ jsum phi H1 ls ++ jsum phi H2 ls.
Proof.
  unfold jsum. rewrite <- psum_plus. apply psum_ext. intros p _. apply pmul_app_r.
Qed.

Lemma jsum_pmul_r phi H q ls :
  jsum phi (fun ks => pmul (H ks) q) ls ≈ pmul (jsum phi H ls) q.
Proof.
  unfold jsum. rewrite <- psum_pmul_r. apply psum_ext. intros p _.
  by rewrite pmul_assoc.
Qed.

Lemma jsum_convolution phi psi (H : Tree -> list Tree -> poly) T ls :
  jsum phi (fun ks => convolution_poly psi (fun T' => H T' ks) T) ls
  ≈ convolution_poly psi (fun T' => jsum phi (fun ks => H T' ks) ls) T.
Proof.
  unfold jsum. rewrite !convolution_poly_psum.
  trans (psum (fun p => psum (fun sb =>
           pmul (pprod (phi <$> mjoin (tree_list <$> p.*2)))
                (pmul (pprod (psi <$> tree_list sb.2)) (H sb.1 p.*1))) (cuts T))
              (product ls)).
  { apply psum_ext. intros p _. rewrite convolution_poly_psum. symmetry.
    apply psum_pmul_l. }
  rewrite psum_swap. apply psum_ext. intros sb _.
  rewrite <- psum_pmul_l. apply psum_ext. intros p _. apply pmul_swap_l.
Qed.

Lemma jsum_cuts phi H t ls :
  jsum phi H (cuts t :: ls)
  ≈ convolution_poly phi (fun T => jsum phi (fun ks => H (T :: ks)) ls) t.
Proof. apply jsum_cons. Qed.

(** The tree with the children that are kept. *)
Definition kept_node (ks : list Tree) : Tree := mkTree (Some (Node (omap list_repr ks))).

(** The convolution at a tree with the children [cs]: the cut that removes
    the whole tree, and the joint cuts of the children. *)
Lemma convolution_poly_Node phi psi cs :
  phi EMPTY_TREE ≈ pconst 1 ->
  convolution_poly phi psi (mkTree (Some (Node cs)))
  ≈ pmul (phi (mkTree (Some (Node cs)))) (psi EMPTY_TREE)
    ++ jsum phi (fun ks => psi (kept_node ks)) (rep_cuts <$> cs).
Proof.
  intros Hphi. rewrite convolution_poly_psum, cuts_Some.
  destruct cs as [|c cs].
  - rewrite rep_cuts_nil, !psum_cons, psum_nil, app_nil_r.
    cbn [fst snd tree_list EMPTY_FOREST SINGLETON_FOREST fmap list_fmap pprod foldr].
    rewrite Hphi, jsum_nil, !pmul_1_r, pmul_1_l.
    apply peq_perm, Permutation_app_comm.
  - rewrite rep_cuts_cons, psum_cons, psum_fmap.
    cbn [fst snd tree_list fmap list_fmap pprod foldr]. by rewrite pmul_1_r.
Qed.

Lemma jsum_void_elim phi (G : list rep -> poly) ks :
  phi EMPTY_TREE ≈ pconst 1 ->
  jsum phi (fun qs => G (omap list_repr qs)) (cuts <$> ks)
  ≈ jsum phi (fun qs => G (omap list_repr qs)) (rep_cuts <$> omap list_repr ks).
Proof.
  intros Hphi. revert G. induction ks as [|[[r|]] ks IH]; intros G; [done| |].
  - cbn [fmap list_fmap omap list_omap list_repr]. rewrite cuts_Some, !jsum_cons.
    apply psum_ext. intros x _. apply pmul_peq; [done|].
    destruct x as [[[r'|]] B]; cbn [fst omap list_omap list_repr].
    + apply (IH (fun l => G (r' :: l))).
    + apply (IH G).
  - cbn [fmap list_fmap omap list_omap list_repr]. rewrite jsum_cons.
    change (cuts (mkTree None)) with [(EMPTY_TREE, EMPTY_FOREST)].
    rewrite psum_cons, psum_nil, app_nil_r.
    cbn [fst snd tree_list EMPTY_FOREST fmap list_fmap pprod foldr omap list_omap].
    rewrite Hphi, !pmul_1_l. apply (IH G).
Qed.

(** ** The convolution product is associative *)

Lemma convolution_poly_void phi psi :
  convolution_poly phi psi EMPTY_TREE ≈ pmul (phi EMPTY_TREE) (psi EMPTY_TREE).
Proof.
  rewrite convolution_poly_psum, cuts_void, psum_cons, psum_nil, app_nil_r.
  cbn [fst snd tree_list EMPTY_FOREST fmap list_fmap pprod foldr]. by rewrite pmul_1_r.
Qed.

Lemma convolution_poly_unit a b :
  a EMPTY_TREE ≈ pconst 1 -> b EMPTY_TREE ≈ pconst 1 ->
  convolution_poly a b EMPTY_TREE ≈ pconst 1.
Proof. intros Ha Hb. by rewrite convolution_poly_void, Ha, Hb, pmul_1_l. Qed.

(** Associativity at one tree, for every third function. *)
Definition conv_assoc_at (a b : Tree -> poly) (t : Tree) : Prop :=
  forall c, convolution_poly a (convolution_poly b c) t
            ≈ convolution_poly (convolution_poly a b) c t.

Lemma omap_list_repr_cons T qs :
  omap list_repr (T :: qs) = omap list_repr [T] ++ omap list_repr qs.
Proof. apply (omap_app list_repr [T] qs). Qed.

Lemma jsum_assoc a b cs :
  Forall (fun c => conv_assoc_at a b (mkTree (Some c))) cs ->
  forall G : list rep -> poly,
    jsum a (fun Ts => jsum b (fun qs => G (omap list_repr qs)) (cuts <$> Ts))
         (rep_cuts <$> cs)
    ≈ jsum (convolution_poly a b) (fun ks => G (omap list_repr ks)) (rep_cuts <$> cs).
Proof.
  induction 1 as [|c cs Hc _ IH]; intros G.
  { by rewrite fmap_nil, !jsum_nil. }
  rewrite fmap_cons, <- (cuts_Some c), !jsum_cuts.
  set (Gam := fun T' : Tree =>
                jsum (convolution_poly a b)
                     (fun ks => G (omap list_repr (T' :: ks))) (rep_cuts <$> cs)).
  trans (convolution_poly a (convolution_poly b Gam) (mkTree (Some c))); [|apply Hc].
  apply convolution_poly_ext. intros T.
  trans (jsum a (fun ks => convolution_poly b
                   (fun T' => jsum b (fun qs => G (omap list_repr (T' :: qs))) (cuts <$> ks))
                   T) (rep_cuts <$> cs)).
  { apply jsum_ext. intros ks. rewrite fmap_cons. apply jsum_cuts. }
  rewrite jsum_convolution. apply convolution_poly_ext. intros T'. unfold Gam.
  trans (jsum a (fun ks => jsum b (fun qs => G (omap list_repr [T'] ++ omap list_repr qs))
                                (cuts <$> ks)) (rep_cuts <$> cs)).
  { apply jsum_ext. intros ks. apply jsum_ext. intros qs.
    by rewrite omap_list_repr_cons. }
  rewrite (IH (fun l => G (omap list_repr [T'] ++ l))).
  apply jsum_ext. intros ks. by rewrite (omap_list_repr_cons T' ks).
Qed.

Lemma conv_assoc_rep a b r :
  a EMPTY_TREE ≈ pconst 1 -> b EMPTY_TREE ≈ pconst 1 ->
  conv_assoc_at a b (mkTree (Some r)).
Proof.
  intros Ha Hb. induction r as [cs IH] using rep_ind'. intros c.
  pose proof (convolution_poly_unit a b Ha Hb) as Hab.
  set (G := fun l : list rep => c (mkTree (Some (Node l)))).
  rewrite (convolution_poly_Node a (convolution_poly b c) cs Ha).
  rewrite (convolution_poly_Node (convolution_poly a b) c cs Hab).
  rewrite (convolution_poly_Node a b cs Ha).
  set (t := mkTree (Some (Node cs))).
  rewrite convolution_poly_void, Hb, pmul_1_l, pmul_1_r, pmul_app_l.
  rewrite <- app_assoc. apply app_peq; [done|].
  trans (jsum a (fun ks => pmul (b (kept_node ks)) (c EMPTY_TREE)
                           ++ jsum b (fun qs => G (omap list_repr qs)) (cuts <$> ks))
              (rep_cuts <$> cs)).
  { apply jsum_ext. intros ks. unfold kept_node at 1.
    rewrite (convolution_poly_Node b c (omap list_repr ks) Hb).
    apply app_peq; [done|]. symmetry. by apply (jsum_void_elim b G ks). }
  rewrite jsum_plus, jsum_pmul_r. apply app_peq; [done|].
  by apply jsum_assoc.
Qed.

(** The convolution product of functions with value 1 on the void tree is
    associative, at every tree. *)
Lemma convolution_poly_assoc a b c t :
  a EMPTY_TREE ≈ pconst 1 -> b EMPTY_TREE ≈ pconst 1 ->
  convolution_poly a (convolution_poly b c) t
  ≈ convolution_poly (convolution_poly a b) c t.
Proof.
  intros Ha Hb. destruct t as [[r|]]; [by apply conv_assoc_rep|].
  rewrite !convolution_poly_void. by rewrite pmul_assoc.
Qed.

(** ** The antipode is a right inverse of the identity *)

(** The polynomials of the antipode, of the identity and of the counit. *)
Definition S_poly (x : Tree) : poly := den_value (VSum (antipode_value x true)).
Definition I_poly (x : Tree) : poly := den_value (VTree x).
Definition counit_poly (x : Tree) : poly :=
  match list_repr x with None => pconst 1 | Some _ => [] end.

Lemma S_poly_void : S_poly EMPTY_TREE ≈ pconst 1.
Proof. unfold S_poly. by rewrite (antipode_value_void EMPTY_TREE). Qed.

Lemma I_poly_void : I_poly EMPTY_TREE ≈ pconst 1.
Proof. done. Qed.

Lemma convolution_poly_ext_l (phi phi' psi : Tree -> poly) t :
  (forall x, phi x ≈ phi' x) ->
  convolution_poly phi psi t ≈ convolution_poly phi' psi t.
Proof.
  intros H. unfold convolution_poly. apply mjoin_ext. intros sb _.
  apply pmul_peq; [|done]. apply pprod_ext. intros x _. apply H.
Qed.

Lemma psum_if {A} (P : A -> Prop) `{!forall x, Decision (P x)} (F : A -> poly) l :
  psum (fun x => if decide (P x) then F x else []) l = psum F (filter P l).
Proof.
  induction l as [|x l IH]; [done|]. rewrite psum_cons, IH.
  destruct (decide (P x)).
  - by rewrite filter_cons_True.
  - by rewrite filter_cons_False.
Qed.

Lemma filter_none {A} (P : A -> Prop) `{!forall x, Decision (P x)} (l : list A) :
  Forall (fun x => ~ P x) l -> filter P l = [].
Proof.
  induction 1 as [|x l Hx _ IH]; [done|]. by rewrite filter_cons_False.
Qed.

(** Exactly one cut keeps nothing: the cut [full_cut]. *)
Lemma rep_cuts_full_cut r :
  filter (fun sb => list_repr sb.1 = None) (rep_cuts r) = [full_cut (mkTree (Some r))].
Proof.
  destruct r as [[|c cs]]; [by vm_compute|].
  rewrite rep_cuts_cons, filter_cons_True by done. unfold full_cut. f_equal.
  apply filter_none, Forall_fmap, Forall_forall. by intros p _.
Qed.

Lemma pprod_counit ts :
  pprod (counit_poly <$> ts)
  ≈ if decide (Forest_nodes (mkForest ts) = 0%nat) then pconst 1 else [].
Proof.
  induction ts as [|[[r|]] ts IH]; [done| |].
  - cbn [fmap list_fmap pprod foldr]. unfold counit_poly at 1. cbn [list_repr].
    rewrite decide_False; [done|]. unfold Forest_nodes. cbn [tree_list sum_list_with].
    pose proof (Tree_nodes_pos (mkTree (Some r))) as Hp. cbn [list_repr] in Hp.
    specialize (Hp ltac:(done)). lia.
  - cbn [fmap list_fmap pprod foldr]. fold (pprod (counit_poly <$> ts)).
    rewrite IH. unfold counit_poly. cbn [list_repr]. rewrite pmul_1_l.
    unfold Forest_nodes. cbn [tree_list sum_list_with]. done.
Qed.

Lemma psum_empty {A} (l : list A) : psum (fun _ => ([] : poly)) l = [].
Proof. induction l as [|x l IH]; [done|]. by rewrite psum_cons, IH. Qed.

Lemma psum_partition {A} (P : A -> Prop) `{!forall x, Decision (P x)} (F : A -> poly) l :
  psum F l ≈ psum F (filter P l) ++ psum F (filter (fun x => ~ P x) l).
Proof.
  induction l as [|x l IH]; [done|]. rewrite psum_cons, IH.
  destruct (decide (P x)).
  - rewrite filter_cons_True by done. rewrite (filter_cons_False (fun x => ~ P x)) by tauto.
    by rewrite psum_cons, app_assoc.
  - rewrite filter_cons_False by done. rewrite (filter_cons_True (fun x => ~ P x)) by done.
    rewrite psum_cons. intros m. rewrite !coeff_app. lia.
Qed.

Lemma pprod_S_voids (k : nat) : pprod (S_poly <$> replicate k EMPTY_TREE) ≈ pconst 1.
Proof.
  rewrite fmap_replicate. unfold S_poly. cbn [den_value].
  rewrite (antipode_value_void EMPTY_TREE) by done.
  change (den EMPTY_FOREST_SUM) with (pconst 1). apply pprod_ones.
Qed.

Lemma S_poly_leaf : S_poly SINGLETON_TREE ≈ pscale (-1) (I_poly SINGLETON_TREE).
Proof.
  unfold S_poly. cbn [den_value]. rewrite (antipode_value_leaf SINGLETON_TREE) by done.
  rewrite den_ForestSum_mul by done. apply pmul_const_r.
Qed.

(** The antipode is a left inverse of the identity, on polynomials. *)
Lemma conv_S_I t : convolution_poly S_poly I_poly t ≈ counit_poly t.
Proof.
  destruct t as [[[[|c cs]]|]].
  - rewrite convolution_poly_psum, cuts_Some, rep_cuts_nil, !psum_cons, psum_nil.
    cbn [fst snd tree_list EMPTY_FOREST SINGLETON_FOREST fmap list_fmap pprod foldr].
    rewrite S_poly_void, !pmul_1_r, pmul_1_l, app_nil_r.
    fold SINGLETON_TREE. rewrite S_poly_leaf. apply padd_neg.
  - apply (convolution_antipode_identity c cs).
  - change (mkTree None) with EMPTY_TREE.
    by rewrite convolution_poly_void, S_poly_void, pmul_1_l.
Qed.

Lemma conv_counit_S r :
  convolution_poly counit_poly S_poly (mkTree (Some r)) ≈ S_poly (mkTree (Some r)).
Proof.
  rewrite convolution_poly_psum, cuts_Some.
  trans (psum (fun sb => if decide (Forest_nodes sb.2 = 0%nat) then S_poly sb.1 else [])
              (rep_cuts r)).
  { apply psum_ext. intros [T [ts]] _. cbn [fst snd tree_list]. rewrite pprod_counit.
    destruct (decide _); [apply pmul_1_l|done]. }
  rewrite psum_if, rep_cuts_no_cut, psum_cons, psum_nil, app_nil_r. done.
Qed.

Lemma void_cut_removes_all r sb :
  sb ∈ rep_cuts r -> list_repr sb.1 = None -> Forest_nodes sb.2 <> 0%nat.
Proof.
  intros Hin Hv. pose proof (cuts_nodes (mkTree (Some r))) as H.
  rewrite Forall_forall in H. specialize (H sb Hin).
  pose proof (Tree_nodes_pos (mkTree (Some r)) ltac:(done)) as Hp.
  unfold Tree_nodes in H at 1. rewrite Hv in H. cbn [_nodes] in H. lia.
Qed.

(** The antipode is a right inverse of the identity, on polynomials. *)
Lemma conv_I_S t : convolution_poly I_poly S_poly t ≈ counit_poly t.
Proof.
  remember (Tree_nodes t) as n eqn:Hn. revert t Hn.
  induction n as [n IH] using lt_wf_ind. intros t ->.
  destruct t as [[r|]].
  2:{ change (mkTree None) with EMPTY_TREE.
      by rewrite convolution_poly_void, S_poly_void, pmul_1_r. }
  set (t := mkTree (Some r)). set (X := convolution_poly I_poly S_poly).
  assert (Hassoc : convolution_poly S_poly X t ≈ S_poly t).
  { unfold X. rewrite (convolution_poly_assoc S_poly I_poly S_poly t S_poly_void I_poly_void).
    rewrite (convolution_poly_ext_l _ counit_poly) by apply conv_S_I.
    apply conv_counit_S. }
  assert (Hleft : convolution_poly S_poly X t ≈ X t ++ S_poly t).
  { rewrite convolution_poly_psum. change (cuts t) with (rep_cuts r).
    rewrite (psum_partition (fun sb => Forest_nodes sb.2 = 0%nat)).
    rewrite rep_cuts_no_cut, psum_cons, psum_nil, app_nil_r.
    apply app_peq.
    { unfold no_cut. cbn [fst snd tree_list]. by rewrite pprod_S_voids, pmul_1_l. }
    trans (psum (fun sb => if decide (list_repr sb.1 = None)
                           then pprod (S_poly <$> tree_list sb.2) else [])
                (filter (fun sb => Forest_nodes sb.2 <> 0%nat) (rep_cuts r))).
    { apply psum_ext. intros sb [Hnz Hin]%list_elem_of_filter.
      assert (X sb.1 ≈ counit_poly sb.1) as ->.
      { apply (IH (Tree_nodes sb.1)); [|done].
        pose proof (cuts_nodes t) as H. rewrite Forall_forall in H.
        specialize (H sb Hin). unfold t in H. lia. }
      unfold counit_poly. destruct (decide _) as [->|Hne]; [apply pmul_1_r|].
      destruct (list_repr sb.1); [by rewrite pmul_nil_r|done]. }
    rewrite psum_if, list_filter_filter.
    rewrite (filter_ext_in _ (fun sb => list_repr sb.1 = None)).
    2:{ intros sb Hin. split; [tauto|]. intros Hv. split; [done|].
        by apply (void_cut_removes_all r). }
    rewrite rep_cuts_full_cut, psum_cons, psum_nil, app_nil_r.
    cbn [full_cut snd tree_list fmap list_fmap pprod foldr]. apply pmul_1_r. }
  rewrite Hleft in Hassoc. intros m. specialize (Hassoc m).
  rewrite coeff_app in Hassoc. unfold counit_poly. cbn [list_repr t]. rewrite coeff_nil. lia.
Qed.

(** The antipode is a right inverse of the identity for the convolution
    product: [t.apply_product(lambda x: x, lambda x: x.antipode())] returns
    the counit of [t], the constant [EMPTY_FOREST_SUM] on the void tree and
    the constant [ZERO_FOREST_SUM] on every other tree. *)
Theorem antipode_right_inverse t :
  Tree_apply_product t identity_fun antipode_fun true = _counit t.
Proof.
  destruct t as [[r|]]; [|by vm_compute].
  set (t := mkTree (Some r)).
  destruct (Tree_apply_product_den t identity_fun antipode_fun VTree
              (fun x => VSum (antipode_value x true)) true)
    as (v & Hv & Hwf & Hden & Hshape).
  { done. }
  { apply antipode_fun_Ok. }
  rewrite Hv. destruct Hshape as [Hs Hred].
  { intros sb _. by destruct (branch_value identity_fun sb.2). }
  destruct v as [| | |o]; try done. specialize (Hred eq_refl).
  cbn [reduce_value] in Hred. injection Hred as Hred.
  unfold _counit. cbn [list_repr t]. do 2 f_equal. rewrite <- Hred.
  apply reduce_zero; [apply Hwf|]. cbn [den_value] in Hden. rewrite Hden.
  apply (conv_I_S t).
Qed.

(** ** Isomorphic trees *)

Lemma rep_iso_refl a : rep_iso a a.
Proof. destruct a as [cs]. by apply iso_perm. Qed.

Lemma rep_iso_sym a b : rep_iso a b -> rep_iso b a.
Proof.
  induction 1 as [cs cs' HP|l1 c c' l2 _ IH|a b c _ IH1 _ IH2].
  - by apply iso_perm.
  - by apply iso_child.
  - by apply (iso_trans _ b).
Qed.

Lemma rep_iso_children_pre pre l l' :
  Forall2 rep_iso l l' -> rep_iso (Node (pre ++ l)) (Node (pre ++ l')).
Proof.
  intros H. revert pre. induction H as [|x y l l' Hxy _ IH]; intros pre.
  - apply rep_iso_refl.
  - apply (iso_trans _ (Node (pre ++ y :: l))); [by apply iso_child|].
    specialize (IH (pre ++ [y])). by rewrite <- !app_assoc in IH.
Qed.

Lemma rep_iso_children l l' : Forall2 rep_iso l l' -> rep_iso (Node l) (Node l').
Proof. apply (rep_iso_children_pre []). Qed.

(** Sorting a tree gives an isomorphic tree. *)
Lemma rep_iso_sorted r : rep_iso r (sorted_rep r).
Proof.
  induction r as [cs IH] using rep_ind'. rewrite sorted_rep_Node.
  apply (iso_trans _ (Node (sorted_rep <$> cs))).
  - apply rep_iso_children. by apply Forall2_fmap_r, Forall_Forall2_diag.
  - apply iso_perm. symmetry. apply merge_sort_Permutation.
Qed.

Lemma Tree_iso_refl t : Tree_iso t t.
Proof. unfold Tree_iso. destruct (list_repr t); [apply rep_iso_refl|done]. Qed.

Lemma Tree_iso_equals t u : Tree_iso t u <-> Tree_equals t u = true.
Proof.
  unfold Tree_iso, Tree_equals, Tree_sorted_list_repr. rewrite bool_decide_eq_true.
  destruct (list_repr t) as [a|], (list_repr u) as [b|]; cbn; try done.
  split.
  - intros H. f_equal. by apply sorted_rep_iso.
  - intros [= H]. apply (iso_trans _ (sorted_rep a)); [apply rep_iso_sorted|].
    rewrite H. apply rep_iso_sym, rep_iso_sorted.
Qed.

Lemma Tree_iso_nodes t u : Tree_iso t u -> Tree_nodes t = Tree_nodes u.
Proof. intros H. by apply Tree_equals_nodes, Tree_iso_equals. Qed.

Lemma kept_node_iso ks ks' :
  Forall2 Tree_iso ks ks' -> Tree_iso (kept_node ks) (kept_node ks').
Proof.
  intros H. unfold Tree_iso, kept_node. cbn [list_repr]. apply rep_iso_children.
  induction H as [|x y l l' Hxy _ IH]; [constructor|].
  unfold Tree_iso in Hxy. cbn [omap list_omap].
  destruct (list_repr x), (list_repr y); try done. by constructor.
Qed.

Lemma kept_node_perm ks ks' : ks ≡ₚ ks' -> Tree_iso (kept_node ks) (kept_node ks').
Proof.
  intros H. unfold Tree_iso, kept_node. cbn [list_repr]. apply iso_perm.
  by rewrite H.
Qed.

(** A function on trees that does not tell isomorphic trees apart. *)
Definition iso_inv (phi : Tree -> poly) : Prop :=
  forall t u, Tree_iso t u -> phi t ≈ phi u.

Lemma jsum_perm phi H ls ls' :
  ls ≡ₚ ls' ->
  (forall ks ks', ks ≡ₚ ks' -> H ks ≈ H ks') ->
  jsum phi H ls ≈ jsum phi H ls'.
Proof.
  intros HP. revert H. induction HP as [|l ls ls' _ IH|l l' ls|ls ls' ls'' _ IH1 _ IH2];
    intros H HH.
  - done.
  - rewrite !jsum_cons. apply psum_ext. intros x _. apply pmul_peq; [done|].
    apply IH. intros ks ks' Hks. apply HH. by constructor.
  - rewrite !jsum_cons.
    trans (psum (fun y => psum (fun x =>
             pmul (pprod (phi <$> tree_list y.2))
                  (pmul (pprod (phi <$> tree_list x.2))
                        (jsum phi (fun ks => H (y.1 :: x.1 :: ks)) ls))) l) l').
    { apply psum_ext. intros y _. rewrite psum_pmul_l. apply pmul_peq; [done|].
      apply jsum_cons. }
    rewrite psum_swap. apply psum_ext. intros x _.
    rewrite jsum_cons, <- psum_pmul_l. apply psum_ext. intros y _.
    rewrite pmul_swap_l. apply pmul_peq; [done|]. apply pmul_peq; [done|].
    apply jsum_ext. intros ks. apply HH. apply perm_swap.
  - rewrite (IH1 H HH). by apply IH2.
Qed.

Lemma jsum_child phi H l1 c c' l2 :
  (forall psi, iso_inv psi ->
               convolution_poly phi psi (mkTree (Some c))
               ≈ convolution_poly phi psi (mkTree (Some c'))) ->
  (forall ks ks', Forall2 Tree_iso ks ks' -> H ks ≈ H ks') ->
  jsum phi H (rep_cuts <$> l1 ++ c :: l2) ≈ jsum phi H (rep_cuts <$> l1 ++ c' :: l2).
Proof.
  intros Hc. revert H. induction l1 as [|x l1 IH]; intros H HH.
  - cbn [app]. rewrite !fmap_cons, <- !cuts_Some, !jsum_cuts. apply Hc.
    intros T T' HT. apply jsum_ext. intros ks. apply HH. constructor; [done|].
    apply Forall_Forall2_diag, Forall_forall. intros ? _. apply Tree_iso_refl.
  - cbn [app]. rewrite !fmap_cons, !jsum_cons. apply psum_ext. intros y _.
    apply pmul_peq; [done|]. apply IH. intros ks ks' Hks. apply HH.
    constructor; [apply Tree_iso_refl|done].
Qed.

(** The convolution of functions that do not tell isomorphic trees apart
    does not either. *)
Lemma convolution_poly_iso a b :
  rep_iso a b ->
  forall phi psi, phi EMPTY_TREE ≈ pconst 1 -> iso_inv phi -> iso_inv psi ->
    convolution_poly phi psi (mkTree (Some a)) ≈ convolution_poly phi psi (mkTree (Some b)).
Proof.
  induction 1 as [cs cs' HP|l1 c c' l2 Hc IH|a b c _ IH1 _ IH2]; intros phi psi H1 Hphi Hpsi.
  - rewrite !convolution_poly_Node by done. apply app_peq.
    + apply pmul_peq; [|done]. apply Hphi. by apply iso_perm.
    + apply jsum_perm; [by apply fmap_Permutation|].
      intros ks ks' Hks. by apply Hpsi, kept_node_perm.
  - rewrite !convolution_poly_Node by done. apply app_peq.
    + apply pmul_peq; [|done]. apply Hphi. by apply iso_child.
    + apply jsum_child.
      * intros psi' Hpsi'. by apply IH.
      * intros ks ks' Hks. by apply Hpsi, kept_node_iso.
  - rewrite (IH1 phi psi) by done. by apply IH2.
Qed.

Lemma I_poly_iso : iso_inv I_poly.
Proof.
  intros t u H. apply peq_eq. unfold I_poly. cbn [den_value]. do 2 f_equal.
  by apply Tree_equals_fmono, Tree_iso_equals.
Qed.

(** The antipode on the trees with fewer than [n] nodes. *)
Definition S_below (n : nat) (x : Tree) : poly :=
  if decide (Tree_nodes x < n)%nat then S_poly x else [].

(** In the convolution of the identity with the antipode at [t], the cut
    that removes nothing contributes the antipode of [t]; every other cut
    keeps a smaller tree. *)
Lemma conv_I_S_below r :
  convolution_poly I_poly S_poly (mkTree (Some r))
  ≈ S_poly (mkTree (Some r))
    ++ convolution_poly I_poly (S_below (Tree_nodes (mkTree (Some r)))) (mkTree (Some r)).
Proof.
  set (t := mkTree (Some r)). rewrite !convolution_poly_psum.
  change (cuts t) with (rep_cuts r).
  set (F := fun sb : Tree * Forest =>
              pmul (pprod (I_poly <$> tree_list sb.2)) (S_poly sb.1)).
  set (G := fun sb : Tree * Forest =>
              pmul (pprod (I_poly <$> tree_list sb.2)) (S_below (Tree_nodes t) sb.1)).
  rewrite (psum_partition (fun sb => Forest_nodes sb.2 = 0%nat) F).
  rewrite (psum_partition (fun sb => Forest_nodes sb.2 = 0%nat) G).
  rewrite rep_cuts_no_cut, !psum_cons, !psum_nil, !app_nil_r.
  assert (F (no_cut r) ≈ S_poly t) as ->.
  { unfold F, no_cut. cbn [fst snd tree_list]. rewrite fmap_replicate.
    change (I_poly EMPTY_TREE) with (pconst 1). by rewrite pprod_ones, pmul_1_l. }
  assert (G (no_cut r) = []) as ->.
  { unfold G, S_below, no_cut. cbn [fst snd]. fold t.
    rewrite decide_False by lia. apply pmul_nil_r. }
  cbn [app]. apply app_peq; [done|]. apply psum_ext.
  intros sb [Hnz Hin]%list_elem_of_filter. unfold F, G, S_below.
  rewrite decide_True; [done|].
  pose proof (cuts_nodes t) as H. rewrite Forall_forall in H.
  specialize (H sb Hin). lia.
Qed.

(** The antipode does not tell isomorphic trees apart. *)
Lemma S_poly_iso : iso_inv S_poly.
Proof.
  intros t. remember (Tree_nodes t) as n eqn:Hn. revert t Hn.
  induction n as [n IH] using lt_wf_ind. intros t -> u Htu.
  assert (Hinv : iso_inv (S_below (Tree_nodes t))).
  { intros x y Hxy. unfold S_below. rewrite <- (Tree_iso_nodes x y Hxy).
    destruct (decide _) as [Hlt|]; [|done]. by apply (IH (Tree_nodes x)). }
  pose proof (Tree_iso_nodes t u Htu) as Hnodes.
  destruct t as [[a|]], u as [[b|]]; try done.
  pose proof (conv_I_S_below a) as Ht. pose proof (conv_I_S_below b) as Hu.
  rewrite <- Hnodes in Hu. rewrite conv_I_S in Ht, Hu.
  assert (Hc : convolution_poly I_poly (S_below (Tree_nodes (mkTree (Some a))))
                 (mkTree (Some a))
               ≈ convolution_poly I_poly (S_below (Tree_nodes (mkTree (Some a))))
                   (mkTree (Some b))).
  { apply convolution_poly_iso; [done|apply I_poly_void|apply I_poly_iso|done]. }
  intros m. specialize (Ht m). specialize (Hu m). specialize (Hc m).
  rewrite coeff_app in Ht, Hu. unfold counit_poly in Ht, Hu.
  cbn [list_repr] in Ht, Hu. rewrite coeff_nil in Ht, Hu. lia.
Qed.

(** Isomorphic trees, that is nested tuples that differ by permutations of
    the children of nodes at any level, compare equal and have equal
    antipodes: [t.antipode()] and [u.antipode()] both return, for any values
    of [apply_reduction], and the two forest sums compare equal. *)
Theorem antipode_isomorphic t u ar ar' :
  Tree_iso t u ->
  Tree_equals t u = true
  /\ exists s s', Tree_antipode t ar = Ok s /\ Tree_antipode u ar' = Ok s'
                  /\ ForestSum_equals s s' = true.
Proof.
  intros H. split; [by apply Tree_iso_equals|].
  exists (antipode_value t ar), (antipode_value u ar').
  rewrite !Tree_antipode_value. split; [done|]. split; [done|].
  apply ForestSum_equals_den; [apply wf_antipode_value..|].
  rewrite (den_antipode_flag t ar true), (den_antipode_flag u ar' true).
  by apply S_poly_iso.
Qed.

Lemma antipode_isomorphic_witness :
  Tree_iso (mkTree (Some (Node [Node [Node []]; Node []])))
           (mkTree (Some (Node [Node []; Node [Node []]])))
  /\ Tree_equals (mkTree (Some (Node [Node [Node []]; Node []])))
                 (mkTree (Some (Node [Node []; Node [Node []]]))) = true.
Proof.
  assert (Tree_iso (mkTree (Some (Node [Node [Node []]; Node []])))
                   (mkTree (Some (Node [Node []; Node [Node []]])))) as H.
  { simpl. apply iso_perm. apply perm_swap. }
  split; [exact H|].
  exact (proj1 (antipode_isomorphic _ _ true true H)).
Defined.

(** * The memoised methods *)

(** ** Code that keeps an invariant of the dictionaries *)

(** [st_ok P m Q]: run on dictionaries that satisfy [P], [m] returns a
    result that satisfies [Q] and leaves dictionaries that satisfy [P]. *)
Definition st_ok {A} (P : caches -> Prop) (m : st A) (Q : A -> Prop) : Prop :=
  forall c, P c -> exists a c', m c = (Ok a, c') /\ P c' /\ Q a.

Lemma st_ok_ret {A} (P : caches -> Prop) (a : A) (Q : A -> Prop) :
  Q a -> st_ok P (st_ret a) Q.
Proof. intros H c Hc. by exists a, c. Qed.

Lemma st_ok_bind {A B} (P : caches -> Prop) (m : st A) (k : A -> st B)
    (Q : A -> Prop) (R : B -> Prop) :
  st_ok P m Q -> (forall a, Q a -> st_ok P (k a) R) -> st_ok P (st_bind m k) R.
Proof.
  intros Hm Hk c Hc. destruct (Hm c Hc) as (a & c' & Hrun & Hc' & Ha).
  destruct (Hk a Ha c' Hc') as (b & c'' & Hrun' & Hc'' & Hb).
  exists b, c''. unfold st_bind. by rewrite Hrun.
Qed.

Lemma st_ok_conseq {A} (P : caches -> Prop) (m : st A) (Q Q' : A -> Prop) :
  st_ok P m Q -> (forall a, Q a -> Q' a) -> st_ok P m Q'.
Proof.
  intros Hm HQ c Hc. destruct (Hm c Hc) as (a & c' & ? & ? & ?).
  exists a, c'. auto.
Qed.

Lemma st_ok_fold {A B} (P : caches -> Prop) (step : B -> A -> st B)
    (J : list A -> B -> Prop) l pre acc :
  (forall p x b, x ∈ l -> J p b -> st_ok P (step b x) (J (p ++ [x]))) ->
  J pre acc -> st_ok P (st_fold step l acc) (J (pre ++ l)).
Proof.
  revert pre acc. induction l as [|x l IH]; intros pre acc Hstep Hacc.
  - rewrite app_nil_r. by apply st_ok_ret.
  - cbn [st_fold]. eapply st_ok_bind.
    + apply (Hstep pre x acc); [left|done].
    + intros b Hb. replace (pre ++ x :: l) with ((pre ++ [x]) ++ l)
        by by rewrite <- app_assoc.
      apply IH; [|done]. intros p y b' Hy. apply Hstep. by right.
Qed.

(** ** The memoised antipode *)

(** What the dictionary of [Tree.antipode] holds for a tree: a well-formed
    sum with the polynomial of the antipode of the tree, reduced when
    [apply_reduction] is set, and the constants of the method on the void
    tree and on the single-node tree. *)
Definition antipode_result_ok (t : Tree) (b : bool) (s : ForestSum) : Prop :=
  wf_ForestSum s /\ den s ≈ S_poly t
  /\ (b = true -> ForestSum_reduce s = s)
  /\ (list_repr t = None -> s = EMPTY_FOREST_SUM)
  /\ (list_repr t = Some (Node []) -> s = mkForestSum [SINGLETON_FOREST] [-1]).

Definition antipode_cache_ok (d : list ((Tree * flag_arg) * ForestSum)) : Prop :=
  Forall (fun e => antipode_result_ok e.1.1 (flag_of e.1.2) e.2) d.

(** The invariant of the dictionary of the antipode, the other dictionaries
    being [pw] and [pd] and the number of lambda objects [n]. *)
Definition antipode_inv (pw : list ((Tree * fobj * Z * flag_arg) * value))
    (pd : list ((Tree * fobj * fobj * flag_arg) * value)) (n : nat) (c : caches) : Prop :=
  antipode_cache_ok (antipode_cache c)
  /\ apply_power_cache c = pw /\ apply_product_cache c = pd /\ lambdas c = n.

Lemma Tree_equals_sym t u : Tree_equals t u = Tree_equals u t.
Proof. unfold Tree_equals. apply bool_decide_ext. naive_solver. Qed.

Lemma antipode_result_ok_equals t u b s :
  Tree_equals t u = true -> antipode_result_ok t b s -> antipode_result_ok u b s.
Proof.
  intros He (Hwf & Hden & Hred & Hvoid & Hleaf).
  split; [done|]. split; [|split; [done|split]].
  - rewrite Hden. by apply S_poly_iso, Tree_iso_equals.
  - intros Hu. apply Hvoid. apply Tree_equals_void_iff.
    rewrite <- He. unfold Tree_equals, Tree_sorted_list_repr. by rewrite Hu.
  - intros Hu. apply Hleaf. destruct u as [lu]. cbn [list_repr] in Hu. subst lu.
    by rewrite (Tree_equals_singleton t He).
Qed.

Lemma cache_get_Some {K V} (key_eq : K -> K -> bool) key (d : list (K * V)) v :
  cache_get key_eq key d = Some v -> exists k, (k, v) ∈ d /\ key_eq k key = true.
Proof.
  unfold cache_get. destruct (find _ d) as [[k v']|] eqn:Hf; [|done].
  intros [= <-]. apply find_some in Hf as [Hin Hk]. exists k.
  split; [by apply list_elem_of_In|done].
Qed.

(** One term of the loop of [Tree.antipode], on any sum [a] that has the
    polynomial of the antipode of the removed forest. *)
Lemma antipode_sub_den out a sb :
  wf_ForestSum out -> wf_ForestSum a -> den a ≈ antipode_poly sb.2 ->
  wf_ForestSum (ForestSum_sub out (VSum (ForestSum_mul a (VTree sb.1) false)) false)
  /\ den (ForestSum_sub out (VSum (ForestSum_mul a (VTree sb.1) false)) false)
     ≈ den out ++ pscale (-1) (cut_poly sb).
Proof.
  intros Hout Hwf Hden. unfold ForestSum_sub.
  assert (wf_ForestSum (ForestSum_mul a (VTree sb.1) false))
    as Hm by by apply wf_ForestSum_mul.
  split.
  - apply wf_ForestSum_add; [done|]. by apply (wf_neg (VSum _)).
  - rewrite den_ForestSum_add; [|apply Hout|by apply (wf_neg (VSum _))].
    rewrite (den_neg (VSum _)) by done. cbn [den_value].
    rewrite den_ForestSum_mul by done. unfold cut_poly. by rewrite Hden.
Qed.

Section antipode_body.

Variable P : caches -> Prop.
Variable antipode : Tree -> flag_arg -> st ForestSum.

Lemma Forest_antipode_st_ok f b :
  tree_list f <> [] ->
  (forall x a, x ∈ tree_list f ->
               st_ok P (antipode x a) (antipode_result_ok x (flag_of a))) ->
  st_ok P (Forest_antipode_st antipode f b)
        (fun s => wf_ForestSum s /\ den s ≈ antipode_poly f).
Proof.
  intros Hne HA. unfold Forest_antipode_st.
  destruct f as [[|t0 rest]]; [done|]. cbn [tree_list] in *.
  destruct (bool_decide _ && Tree_equals t0 SINGLETON_TREE) eqn:Hc.
  - apply andb_true_iff in Hc as [Hl Ht]. apply bool_decide_eq_true in Hl.
    apply Tree_equals_singleton in Ht as ->. destruct rest; [|done].
    apply st_ok_ret. split; [by repeat constructor|].
    unfold antipode_poly. cbn [tree_list fmap list_fmap pprod foldr].
    rewrite (antipode_value_leaf SINGLETON_TREE) by done. by rewrite pmul_1_r.
  - assert (Hres : forall x s, antipode_result_ok x false s ->
                     wf_ForestSum s /\ den s ≈ den (antipode_value x false)).
    { intros x s (Hwf & Hden & _). split; [done|]. rewrite Hden. unfold S_poly.
      cbn [den_value]. apply den_antipode_flag. }
    eapply st_ok_bind; [apply (HA t0 (Positional false)); left|].
    intros out0 [Hwf0 Hden0]%Hres.
    eapply st_ok_bind.
    + apply (st_ok_fold P _
               (fun p out => wf_ForestSum out
                             /\ den out ≈ antipode_poly (mkForest (t0 :: p))) rest []).
      * intros p x out Hx [Hwf Hden].
        eapply st_ok_bind; [apply (HA x (Positional false)); by right|].
        intros a [Hwfa Hdena]%Hres. apply st_ok_ret.
        split; [by apply wf_ForestSum_mul|].
        rewrite den_ForestSum_mul by done. cbn [den_value]. rewrite Hden, Hdena.
        unfold antipode_poly. cbn [tree_list].
        rewrite !fmap_cons, fmap_app, fmap_cons, fmap_nil.
        cbn [pprod foldr].
        fold (pprod ((fun b0 => den (antipode_value b0 false)) <$> p)).
        fold (pprod (((fun b0 => den (antipode_value b0 false)) <$> p)
                      ++ [den (antipode_value x false)])).
        rewrite pprod_app. cbn [pprod foldr]. by rewrite pmul_1_r, pmul_assoc.
      * split; [done|]. unfold antipode_poly. cbn [tree_list fmap list_fmap pprod foldr].
        by rewrite Hden0, pmul_1_r.
    + cbn [app]. intros out [Hwf Hden]. apply st_ok_ret.
      split; [by apply wf_ForestSum_reduce_if|].
      destruct b; [by rewrite den_reduce|done].
Qed.

Lemma Tree_antipode_body_ok t b :
  (forall x a, (Tree_nodes x < Tree_nodes t)%nat ->
               st_ok P (antipode x a) (antipode_result_ok x (flag_of a))) ->
  st_ok P (Tree_antipode_body antipode t b) (antipode_result_ok t b).
Proof.
  intros HA. unfold Tree_antipode_body.
  destruct (list_repr t) as [[[|c cs]]|] eqn:Hr.
  - apply st_ok_ret. split; [by repeat constructor|].
    split; [|split; [intros _; by vm_compute|split; [by rewrite Hr|done]]].
    unfold S_poly. cbn [den_value]. by rewrite (antipode_value_leaf t).
  - pose proof (eq_refl : cuts t = zip (Tree_split t).1 (Tree_split t).2) as Hc.
    destruct (Tree_split t) as [subtrees branches]. cbn [fst snd] in Hc. rewrite <- Hc.
    set (out0 := ForestSum_neg (Tree_as_forest_sum t)).
    assert (Hout0 : wf_ForestSum out0) by by repeat constructor.
    eapply st_ok_bind.
    + apply (st_ok_fold P _
               (fun p out =>
                  wf_ForestSum out
                  /\ den out
                     ≈ den out0
                       ++ pscale (-1)
                            (mjoin (cut_poly
                                      <$> filter (fun sb => proper_cut t sb = true) p)))
               (cuts t) []).
      * intros p sb out Hsb [Hwf Hden]. unfold antipode_step_st.
        destruct (Tree_equals sb.1 t || Tree_equals sb.1 EMPTY_TREE) eqn:Hskip.
        { apply st_ok_ret. split; [done|]. rewrite filter_app, filter_cons_False.
          - by rewrite filter_nil, app_nil_r.
          - unfold proper_cut. by rewrite Hskip. }
        assert (Hin : sb ∈ reduced_cuts t).
        { apply list_elem_of_filter. split; [|done]. unfold proper_cut. by rewrite Hskip. }
        pose proof (reduced_cuts_smaller t) as Hsm. rewrite Forall_forall in Hsm.
        destruct (Hsm sb Hin) as [HB Hlt].
        eapply st_ok_bind.
        { apply Forest_antipode_st_ok; [done|]. intros x a Hx. apply HA. by apply Hlt. }
        intros a [Hwfa Hdena]. apply st_ok_ret.
        destruct (antipode_sub_den out a sb Hwf Hwfa Hdena) as [Hwf' Hden'].
        split; [done|]. rewrite Hden', Hden, filter_app, filter_cons_True.
        2:{ unfold proper_cut. by rewrite Hskip. }
        rewrite filter_nil, fmap_app, fmap_cons, fmap_nil, join_app.
        cbn [mjoin list_join]. by rewrite app_nil_r, pscale_app, app_assoc.
      * split; [done|]. by rewrite filter_nil, app_nil_r.
    + cbn [app]. intros out [Hwf Hden]. apply st_ok_ret.
      split; [by apply wf_ForestSum_reduce_if|].
      split; [|split; [|split; intros H; by rewrite Hr in H]].
      * trans (den out); [destruct b; [apply den_reduce|done]|].
        rewrite Hden. fold (reduced_cuts t). unfold S_poly. cbn [den_value].
        rewrite (den_antipode_general t c cs) by done. apply app_peq; [|done].
        apply (den_neg (VSum (Tree_as_forest_sum t))). by repeat constructor.
      * intros ->. apply ForestSum_reduce_reduce.
  - apply st_ok_ret. split; [by repeat constructor|].
    split; [|split; [intros _; by vm_compute|split; [done|by rewrite Hr]]].
    unfold S_poly. cbn [den_value]. by rewrite (antipode_value_void t).
Qed.

End antipode_body.

(** The wrapper keeps an invariant of the dictionaries that the wrapped
    function keeps, when the stored results are as good as new ones. *)
Lemma lru_cache_ok {K V} (key_eq : K -> K -> bool) get set key (user_function : st V)
    (P : caches -> Prop) (Q : V -> Prop) :
  (forall c k v, P c -> (k, v) ∈ get c -> key_eq k key = true -> Q v) ->
  st_ok P user_function Q ->
  (forall c v, P c -> Q v -> P (set ((key, v) :: get c) c)) ->
  st_ok P (lru_cache key_eq get set key user_function) Q.
Proof.
  intros Hhit Hbody Hset c Hc. unfold lru_cache.
  destruct (cache_get key_eq key (get c)) as [v|] eqn:Hget.
  - apply cache_get_Some in Hget as (k & Hin & Hk). exists v, c.
    split; [done|]. split; [done|]. by apply (Hhit c k v).
  - destruct (Hbody c Hc) as (v & c' & Hrun & Hc' & Hv). rewrite Hrun.
    exists v, (set ((key, v) :: get c') c'). split; [done|]. split; [|done].
    by apply Hset.
Qed.

Lemma Tree_antipode_cached_fuel_ok pw pd n fuel t a :
  (Tree_nodes t < fuel)%nat ->
  st_ok (antipode_inv pw pd n) (Tree_antipode_cached_fuel fuel t a)
        (antipode_result_ok t (flag_of a)).
Proof.
  revert t a. induction fuel as [|fuel IH]; intros t a Hlt; [lia|].
  cbn [Tree_antipode_cached_fuel]. apply lru_cache_ok.
  - intros c [t' a'] v (Hok & _) Hin Hk. unfold antipode_key_eq in Hk.
    cbn [fst snd] in Hk. apply andb_true_iff in Hk as [Ht Ha].
    apply bool_decide_eq_true in Ha as ->.
    unfold antipode_cache_ok in Hok. rewrite Forall_forall in Hok.
    apply (antipode_result_ok_equals t'); [done|]. apply (Hok _ Hin).
  - apply Tree_antipode_body_ok. intros x a' Hx. apply IH. lia.
  - intros c v (Hok & Hpw & Hpd & Hn) Hv. split; [|done].
    cbn [set_antipode_cache antipode_cache]. by constructor.
Qed.

(** The invariant of the dictionary of [Tree.antipode]: it holds of the
    empty dictionary, every call of the method keeps it, and no call changes
    the other two dictionaries. *)
Lemma Tree_antipode_cached_ok pw pd n t a :
  st_ok (antipode_inv pw pd n) (Tree_antipode_cached t a)
        (antipode_result_ok t (flag_of a)).
Proof. apply Tree_antipode_cached_fuel_ok. lia. Qed.

Lemma antipode_cache_ok_nil : antipode_cache_ok [].
Proof. constructor. Qed.

Lemma antipode_inv_intro c :
  antipode_cache_ok (antipode_cache c) ->
  antipode_inv (apply_power_cache c) (apply_product_cache c) (lambdas c) c.
Proof. done. Qed.

Lemma Tree_equals_trans t u v :
  Tree_equals t u = true -> Tree_equals u v = true -> Tree_equals t v = true.
Proof. unfold Tree_equals. rewrite !bool_decide_eq_true. congruence. Qed.

Lemma cache_get_cons {K V} (key_eq : K -> K -> bool) key k (v : V) d :
  key_eq k key = true -> cache_get key_eq key ((k, v) :: d) = Some v.
Proof. intros H. unfold cache_get. cbn [find fst]. by rewrite H. Qed.

Lemma cache_get_ext {K V} (key_eq : K -> K -> bool) key key' (d : list (K * V)) :
  (forall k, key_eq k key = key_eq k key') ->
  cache_get key_eq key d = cache_get key_eq key' d.
Proof.
  intros H. unfold cache_get. f_equal. induction d as [|e d IH]; [done|].
  cbn [find]. by rewrite H, IH.
Qed.

(** A call that returns has its result in the dictionary, under its key. *)
Lemma lru_cache_stored {K V} (key_eq : K -> K -> bool) get set key
    (user_function : st V) c v c' :
  (forall d c0, get (set d c0) = d) ->
  key_eq key key = true ->
  lru_cache key_eq get set key user_function c = (Ok v, c') ->
  cache_get key_eq key (get c') = Some v.
Proof.
  intros Hgs Hrefl. unfold lru_cache.
  destruct (cache_get key_eq key (get c)) as [w|] eqn:Hget.
  - by intros [= -> ->].
  - destruct (user_function c) as [[w| |] c0]; [|done..].
    intros [= -> <-]. rewrite Hgs. by apply cache_get_cons.
Qed.

Lemma antipode_key_eq_equals k t u a :
  Tree_equals u t = true ->
  antipode_key_eq k (t, a) = antipode_key_eq k (u, a).
Proof.
  intros H. unfold antipode_key_eq. cbn [fst snd]. f_equal.
  destruct (Tree_equals k.1 t) eqn:Ht, (Tree_equals k.1 u) eqn:Hu; try done.
  - rewrite Tree_equals_sym in H. by rewrite (Tree_equals_trans _ _ _ Ht H) in Hu.
  - by rewrite (Tree_equals_trans _ _ _ Hu H) in Ht.
Qed.

(** A later call on a tree that is [_equals] to the tree of a call that
    returned, with [apply_reduction] passed the same way, returns the stored
    sum and leaves the dictionary as it is. *)
Lemma Tree_antipode_cached_again t u a c s c' :
  Tree_antipode_cached t a c = (Ok s, c') ->
  Tree_equals u t = true ->
  Tree_antipode_cached u a c' = (Ok s, c').
Proof.
  intros Hrun He. unfold Tree_antipode_cached in *.
  cbn [Tree_antipode_cached_fuel] in *.
  apply lru_cache_stored in Hrun; [|done|].
  2:{ unfold antipode_key_eq. cbn [fst snd].
      by rewrite Tree_equals_refl, bool_decide_true. }
  unfold lru_cache.
  rewrite <- (cache_get_ext antipode_key_eq (t, a) (u, a)), Hrun; [done|].
  intros k. by apply antipode_key_eq_equals.
Qed.

(** C2, as the code has it. Whatever the dictionary of the memoised method
    holds from earlier calls: the antipode of the void tree is the identity;
    the antipode of the single-node tree is minus the single-node tree; the
    antipode of a tree [t] with children is equal, by [==], to [-t] with
    [antipode(removed) * kept] subtracted for every cut of the reduced
    coproduct, its polynomial being minus the one of [t] minus the sum over
    these cuts of the product of the antipodes of the removed trees times
    the kept tree; and the cuts of [split] that the reduced coproduct leaves
    out are exactly the cut that removes all of [t] and the cut that removes
    nothing. The dictionary stays as the method needs it. *)
Theorem antipode_recursion c t a :
  antipode_cache_ok (antipode_cache c) ->
  exists s c',
    Tree_antipode_cached t a c = (Ok s, c')
    /\ antipode_cache_ok (antipode_cache c')
    /\ match list_repr t with
       | None => s = EMPTY_FOREST_SUM
       | Some (Node []) => s = mkForestSum [SINGLETON_FOREST] [-1]
       | Some (Node (c0 :: cs)) =>
           ForestSum_equals s
             (fold_left antipode_term (reduced_cuts t)
                        (ForestSum_neg (Tree_as_forest_sum t))) = true
           /\ den s ≈ pscale (-1) (den_value (VTree t))
                      ++ pscale (-1) (mjoin (cut_poly <$> reduced_cuts t))
           /\ filter (fun sb => proper_cut t sb = false) (cuts t)
              = [full_cut t; no_cut (Node (c0 :: cs))]
       end.
Proof.
  intros Hc.
  destruct (Tree_antipode_cached_ok _ _ _ t a c (antipode_inv_intro c Hc))
    as (s & c' & Hrun & (Hc' & _) & Hwf & Hden & _ & Hvoid & Hleaf).
  exists s, c'. split; [done|]. split; [done|].
  destruct (list_repr t) as [[[|c0 cs]]|] eqn:Hr; [by apply Hleaf| |by apply Hvoid].
  split.
  - pose proof (antipode_value_general t c0 cs false Hr) as HF. cbn zeta in HF.
    rewrite <- HF. apply ForestSum_equals_den; [apply Hwf|apply wf_antipode_value|].
    rewrite Hden. apply den_antipode_flag.
  - split; [rewrite Hden; by apply (den_antipode_general t c0 cs)|].
    destruct t as [lr]. cbn [list_repr] in Hr. subst lr. apply trivial_cuts.
Qed.

Lemma antipode_recursion_witness :
  antipode_cache_ok (antipode_cache no_caches)
  /\ exists s c',
       Tree_antipode_cached (mkTree (Some (Node [Node []; Node [Node []]])))
                            Omitted no_caches = (Ok s, c')
       /\ antipode_cache_ok (antipode_cache c').
Proof.
  split; [exact antipode_cache_ok_nil|].
  destruct (antipode_recursion no_caches
              (mkTree (Some (Node [Node []; Node [Node []]]))) Omitted
              antipode_cache_ok_nil) as (s & c' & H1 & H2 & _).
  exists s, c'. split; [exact H1|exact H2].
Defined.

(** [Tree.antipode] returns on every tree, whatever the dictionary holds
    from earlier calls, without raising: the recursion never meets a forest
    without trees. The result is a well-formed forest sum, reduced when
    [apply_reduction] is set, and equal, by [==], to the sum that the method
    computes without a dictionary. The call leaves the other two
    dictionaries as they are, and a later call on a tree that is [_equals]
    to this one, with [apply_reduction] passed the same way, returns the
    same sum from the dictionary. *)
Theorem Tree_antipode_returns c t a :
  antipode_cache_ok (antipode_cache c) ->
  exists s c' s0,
    Tree_antipode_cached t a c = (Ok s, c')
    /\ antipode_cache_ok (antipode_cache c')
    /\ apply_power_cache c' = apply_power_cache c
    /\ apply_product_cache c' = apply_product_cache c
    /\ wf_ForestSum s
    /\ (flag_of a = true -> ForestSum_reduce s = s)
    /\ Tree_antipode t (flag_of a) = Ok s0 /\ ForestSum_equals s s0 = true
    /\ forall u, Tree_equals u t = true -> Tree_antipode_cached u a c' = (Ok s, c').
Proof.
  intros Hc.
  destruct (Tree_antipode_cached_ok _ _ _ t a c (antipode_inv_intro c Hc))
    as (s & c' & Hrun & (Hc' & Hpw & Hpd & _) & Hwf & Hden & Hred & _).
  exists s, c', (antipode_value t (flag_of a)).
  rewrite Tree_antipode_value. repeat split; try done; try apply Hwf.
  - apply ForestSum_equals_den; [apply Hwf|apply wf_antipode_value|].
    rewrite Hden. apply den_antipode_flag.
  - intros u Hu. by apply (Tree_antipode_cached_again t u a c).
Qed.

Lemma Tree_antipode_returns_witness :
  antipode_cache_ok (antipode_cache no_caches)
  /\ exists s c',
       Tree_antipode_cached (mkTree (Some (Node [Node [Node []]; Node []])))
                            (Positional false) no_caches = (Ok s, c')
       /\ wf_ForestSum s.
Proof.
  split; [exact antipode_cache_ok_nil|].
  destruct (Tree_antipode_returns no_caches
              (mkTree (Some (Node [Node [Node []]; Node []]))) (Positional false)
              antipode_cache_ok_nil) as (s & c' & s0 & H1 & _ & _ & _ & H2 & _).
  exists s, c'. split; [exact H1|exact H2].
Defined.

(** The dictionary at work: after [tA.antipode()] on the tree [[[]],[]], the
    call [tB.antipode()] on the tree [[],[[]]] returns the sum of the first
    call, which is not the sum that it computes on a new dictionary. *)
Lemma antipode_cache_hit :
  let tA := mkTree (Some (Node [Node [Node []]; Node []])) in
  let tB := mkTree (Some (Node [Node []; Node [Node []]])) in
  let first := Tree_antipode_cached tA Omitted no_caches in
  (Tree_antipode_cached tB Omitted first.2).1 = first.1
  /\ (Tree_antipode_cached tB Omitted no_caches).1 <> first.1.
Proof. split; by vm_compute. Qed.

(** ** Functions that do not tell isomorphic trees apart *)

Lemma pprod_perm ps qs : ps ≡ₚ qs -> pprod ps ≈ pprod qs.
Proof.
  induction 1 as [|p ps qs _ IH|p q ps|ps qs rs _ IH1 _ IH2].
  - done.
  - cbn [pprod foldr]. fold (pprod ps). fold (pprod qs). by rewrite IH.
  - cbn [pprod foldr]. fold (pprod ps). apply pmul_swap_l.
  - by rewrite IH1.
Qed.

(** The convolution of functions that do not tell isomorphic trees apart
    does not either, whatever the first function is on the void tree. *)
Lemma convolution_poly_rep_iso a b :
  rep_iso a b ->
  forall phi psi, iso_inv phi -> iso_inv psi ->
    convolution_poly phi psi (mkTree (Some a)) ≈ convolution_poly phi psi (mkTree (Some b)).
Proof.
  induction 1 as [cs cs' HP|l1 c c' l2 Hc IH|a b c _ IH1 _ IH2]; intros phi psi Hphi Hpsi.
  - destruct cs as [|c cs].
    { apply Permutation_nil_l in HP. by subst cs'. }
    destruct cs' as [|c' cs'].
    { by apply Permutation_nil_r in HP. }
    rewrite !convolution_poly_psum, !cuts_Some, !rep_cuts_cons, !psum_cons, !psum_fmap.
    apply app_peq.
    + cbn [fst snd full_cut tree_list fmap list_fmap pprod foldr].
      apply pmul_peq; [|done]. apply pmul_peq; [|done]. apply Hphi. by apply iso_perm.
    + apply (jsum_perm phi (fun ks => psi (kept_node ks))); [by apply fmap_Permutation|].
      intros ks ks' Hks. by apply Hpsi, kept_node_perm.
  - destruct (l1 ++ c :: l2) as [|d ds] eqn:Hd.
    { by destruct l1. }
    destruct (l1 ++ c' :: l2) as [|d' ds'] eqn:Hd'.
    { by destruct l1. }
    rewrite !convolution_poly_psum, !cuts_Some, !rep_cuts_cons, !psum_cons, !psum_fmap.
    apply app_peq.
    + cbn [fst snd full_cut tree_list fmap list_fmap pprod foldr].
      apply pmul_peq; [|done]. apply pmul_peq; [|done]. apply Hphi.
      unfold Tree_iso. cbn [list_repr]. rewrite <- Hd, <- Hd'. by apply iso_child.
    + rewrite <- Hd, <- Hd'.
      apply (jsum_child phi (fun ks => psi (kept_node ks))).
      * intros psi' Hpsi'. by apply IH.
      * intros ks ks' Hks. by apply Hpsi, kept_node_iso.
  - rewrite (IH1 phi psi) by done. by apply IH2.
Qed.

Lemma convolution_poly_iso_inv phi psi :
  iso_inv phi -> iso_inv psi -> iso_inv (convolution_poly phi psi).
Proof.
  intros Hphi Hpsi [[a|]] [[b|]] H; try done. by apply convolution_poly_rep_iso.
Qed.

Lemma cpow_iso_inv phi k : iso_inv phi -> iso_inv (cpow phi k).
Proof.
  intros Hphi. induction k as [|k IH]; [done|]. cbn [cpow].
  by apply convolution_poly_iso_inv.
Qed.

Lemma counit_poly_iso_inv : iso_inv counit_poly.
Proof. intros [[a|]] [[b|]] H; done. Qed.

Lemma pscale_plus z w p : pscale (z + w) p ≈ pscale z p ++ pscale w p.
Proof. intros m. rewrite coeff_app, !coeff_pscale. lia. Qed.

Lemma coeff_dterms_filter_ne (mf m : mono) (l : list (Forest * Z)) :
  coeff m (dterms (filter (fun x => fmono x.1 <> mf) l))
  = if decide (m = mf) then 0 else coeff m (dterms l).
Proof.
  induction l as [|[g d] l IH].
  { by destruct (decide _). }
  rewrite dterms_cons, coeff_cons. cbn [fst snd].
  destruct (decide (fmono g = mf)) as [Hg|Hg].
  - rewrite filter_cons_False by (cbn; tauto). rewrite IH.
    destruct (decide (m = mf)) as [->|Hm]; [done|].
    rewrite decide_False by congruence. lia.
  - rewrite filter_cons_True by done. rewrite dterms_cons, coeff_cons, IH. cbn [fst snd].
    destruct (decide (m = mf)) as [->|Hm]; [|done].
    by rewrite decide_False.
Qed.

(** A weighted sum over terms whose polynomial is zero is zero, when the
    weight of a forest depends on its monomial only. *)
Lemma weighted_sum_zero (Psi : Forest -> poly) (G : Forest -> Prop) r :
  (forall f f', G f -> G f' -> fmono f = fmono f' -> Psi f ≈ Psi f') ->
  Forall (fun fc => G fc.1) r ->
  dterms r ≈ [] ->
  psum (fun fc => pscale fc.2 (Psi fc.1)) r ≈ [].
Proof.
  intros HPsi. remember (length r) as n eqn:Hn. revert r Hn.
  induction n as [n IH] using lt_wf_ind. intros r -> HG Hz.
  destruct r as [|[f c] r0]; [done|].
  set (r := (f, c) :: r0) in *.
  assert (Gf : G f) by by apply Forall_cons in HG as [? _].
  rewrite (psum_partition (fun x => fmono x.1 = fmono f)).
  assert (H1 : psum (fun fc => pscale fc.2 (Psi fc.1))
                    (filter (fun x => fmono x.1 = fmono f) r)
               ≈ pscale (coeff (fmono f) (dterms r)) (Psi f)).
  { clear Hz IH. generalize r HG. clear r HG. intros l Hl.
    induction Hl as [|[g d] l Hg _ IHl].
    { cbn. by rewrite pscale_0. }
    rewrite dterms_cons, coeff_cons. cbn [fst snd] in *.
    destruct (decide (fmono g = fmono f)) as [He|He].
    - rewrite filter_cons_True by done. rewrite psum_cons, IHl, pscale_plus.
      cbn [fst snd]. apply app_peq; [|done]. apply pscale_peq. by apply HPsi.
    - rewrite filter_cons_False by done. rewrite IHl.
      by replace (0 + coeff (fmono f) (dterms l)) with (coeff (fmono f) (dterms l)) by lia. }
  rewrite H1, (Hz (fmono f)), coeff_nil, pscale_0. cbn [app].
  apply (IH (length (filter (fun x => ~ fmono x.1 = fmono f) r))); [|done| |].
  - unfold r. rewrite filter_cons_False by (cbn; tauto).
    pose proof (length_filter (fun x : Forest * Z => ~ fmono x.1 = fmono f) r0).
    cbn [length]. lia.
  - apply Forall_forall. intros x [_ Hx]%list_elem_of_filter.
    rewrite Forall_forall in HG. by apply HG.
  - intros m. rewrite (coeff_dterms_filter_ne (fmono f) m r), coeff_nil.
    destruct (decide _); [done|]. apply (Hz m).
Qed.

(** The forests of reduced sums: one void tree, or no void tree. *)
Definition reduced_forest (f : Forest) : Prop :=
  wf_forest f /\ Forest_reduce f = f.

Lemma reduced_forest_shape f :
  reduced_forest f ->
  tree_list f = [EMPTY_TREE] \/ Forall (fun t => list_repr t <> None) (tree_list f).
Proof.
  intros [Hwf Hred]. destruct (Forest_reduce_shape f) as (_ & Hlong & _).
  rewrite Hred in Hlong. destruct f as [[|t [|u ts]]]; cbn [tree_list] in *.
  - done.
  - destruct t as [[r|]]; [right|by left]. by repeat constructor.
  - right. apply Hlong. cbn. lia.
Qed.

Section iso_inv_products.

Variable psi : Tree -> poly.
Hypothesis psi_iso : iso_inv psi.

Lemma pprod_nonvoid ts :
  Forall (fun t => list_repr t <> None) ts ->
  pprod (psi <$> ts) ≈ pprod ((fun r => psi (mkTree (Some r))) <$> creps ts).
Proof.
  induction 1 as [|[[r|]] ts Ht _ IH]; [done| |done].
  unfold creps in *. cbn [omap list_omap list_repr]. rewrite !fmap_cons.
  cbn [pprod foldr]. fold (pprod (psi <$> ts)).
  fold (pprod ((fun r => psi (mkTree (Some r))) <$> (sorted_rep <$> omap list_repr ts))).
  rewrite IH. apply pmul_peq; [|done]. apply psi_iso. apply rep_iso_sorted.
Qed.

Lemma pprod_elements (g : rep -> poly) (l : list rep) :
  pprod (g <$> elements (list_to_set_disj l : mono)) ≈ pprod (g <$> l).
Proof.
  induction l as [|x l IH].
  { by rewrite list_to_set_disj_nil, gmultiset_elements_empty. }
  rewrite list_to_set_disj_cons.
  rewrite (pprod_perm _ (g <$> x :: elements (list_to_set_disj l : mono))).
  2:{ apply fmap_Permutation. rewrite gmultiset_elements_disj_union.
      by rewrite gmultiset_elements_singleton. }
  rewrite !fmap_cons. cbn [pprod foldr]. fold (pprod (g <$> l)).
  fold (pprod (g <$> elements (list_to_set_disj l : mono))). by rewrite IH.
Qed.

(** On reduced forests, the product of the function over the trees depends
    on the monomial of the forest only. *)
Lemma pprod_fmono f f' :
  reduced_forest f -> reduced_forest f' -> fmono f = fmono f' ->
  pprod (psi <$> tree_list f) ≈ pprod (psi <$> tree_list f').
Proof.
  intros Hf Hf' He.
  assert (Hvoid : forall g g', reduced_forest g' -> tree_list g = [EMPTY_TREE] ->
                    fmono g = fmono g' -> tree_list g' = [EMPTY_TREE]).
  { intros g g' Hg' Hg Heq. destruct (reduced_forest_shape g' Hg') as [|Hnv]; [done|].
    assert (fmono g' = ∅) as Hm.
    { rewrite <- Heq. unfold fmono. by rewrite Hg. }
    apply fmono_empty_iff in Hm. destruct Hg' as [Hwf _].
    destruct g' as [[|t ts]]; [done|]. cbn [tree_list] in *.
    apply Forall_cons in Hnv as [Ht _]. by destruct (creps_nonvoid_cons t ts Ht). }
  destruct (reduced_forest_shape f Hf) as [Hv|Hnv].
  { by rewrite Hv, (Hvoid f f' Hf' Hv He). }
  destruct (reduced_forest_shape f' Hf') as [Hv'|Hnv'].
  { by rewrite Hv', (Hvoid f' f Hf Hv' (eq_sym He)). }
  rewrite (pprod_nonvoid _ Hnv), (pprod_nonvoid _ Hnv').
  rewrite <- (pprod_elements _ (creps (tree_list f))).
  rewrite <- (pprod_elements _ (creps (tree_list f'))).
  fold (fmono f). fold (fmono f'). by rewrite He.
Qed.

(** The linear and multiplicative extension of the function to a reduced
    forest sum depends on the polynomial of the sum only. *)
Lemma apply_poly_den s s' :
  wf_ForestSum s -> wf_ForestSum s' ->
  Forall (fun f => Forest_reduce f = f) (forest_list s) ->
  Forall (fun f => Forest_reduce f = f) (forest_list s') ->
  den s ≈ den s' ->
  apply_poly psi (terms s) ≈ apply_poly psi (terms s').
Proof.
  intros [_ Hwf] [_ Hwf'] Hred Hred' Hden.
  set (F := fun fc : Forest * Z => pscale fc.2 (pprod (psi <$> tree_list fc.1))).
  set (neg := fun fc : Forest * Z => (fc.1, - fc.2)).
  assert (Hterms : forall x, Forall wf_forest (forest_list x) ->
                     Forall (fun f => Forest_reduce f = f) (forest_list x) ->
                     Forall (fun fc => reduced_forest fc.1) (terms x)).
  { intros x H1 H2. apply Forall_forall. intros [f c] Hin.
    apply elem_of_zip_l in Hin. cbn [fst]. rewrite Forall_forall in H1, H2.
    split; [by apply H1|by apply H2]. }
  assert (Hneg : forall l, psum F (neg <$> l) ≈ pscale (-1) (psum F l)).
  { intros l. induction l as [|[f c] l IH]; [done|].
    rewrite fmap_cons, !psum_cons, IH, pscale_app. apply app_peq; [|done].
    unfold F, neg. cbn [fst snd]. rewrite pscale_pscale.
    by replace (c * -1) with (- c) by lia. }
  assert (Hdneg : forall l, dterms (neg <$> l) ≈ pscale (-1) (dterms l)).
  { intros l. induction l as [|[f c] l IH]; [done|].
    rewrite fmap_cons, !dterms_cons. unfold pscale in *. rewrite fmap_cons.
    cbn [fst snd neg]. intros m. rewrite !coeff_cons. cbn [fst snd]. rewrite (IH m).
    destruct (decide _); lia. }
  assert (Hz : psum F (terms s ++ (neg <$> terms s')) ≈ []).
  { apply (weighted_sum_zero (fun f => pprod (psi <$> tree_list f)) reduced_forest).
    - apply pprod_fmono.
    - apply Forall_app. split; [by apply Hterms|].
      apply Forall_fmap. eapply Forall_impl; [by apply (Hterms s')|]. by intros [f c].
    - rewrite dterms_app, Hdneg. fold (den s). fold (den s'). rewrite Hden.
      apply padd_neg. }
  rewrite psum_app, Hneg in Hz.
  change (psum F (terms s) ≈ psum F (terms s')).
  intros m. specialize (Hz m). rewrite coeff_app, coeff_pscale, coeff_nil in Hz. lia.
Qed.

End iso_inv_products.

(** ** The memoised [apply_product] and [apply_power] *)

Lemma ForestSum_reduce_forests s :
  Forall (fun f => Forest_reduce f = f) (forest_list (ForestSum_reduce s)).
Proof.
  destruct (kept_terms_distinct s) as [_ Hr].
  assert (Hs : ForestSum_reduce s
               = match kept_terms s with
                 | [] => ZERO_FOREST_SUM
                 | _ :: _ => of_terms (kept_terms s)
                 end) by done.
  rewrite Hs. destruct (kept_terms s) as [|x l]; [by repeat constructor|].
  unfold of_terms. cbn [forest_list]. apply Forall_fmap.
  eapply Forall_impl; [exact Hr|]. by intros ? [? _].
Qed.

(** The polynomial of the convolution power [n] of [phi] at a tree: the
    counit for 0, the iterated convolution for [n > 0], and for [n < 0] the
    power [-n] on the antipode of the tree. *)
Definition power_poly (phi : Tree -> poly) (n : Z) (t : Tree) : poly :=
  if n =? 0 then counit_poly t
  else if 0 <? n then cpow phi (Z.to_nat n - 1) t
  else apply_poly (cpow phi (Z.to_nat (- n) - 1)) (terms (antipode_value t true)).

Lemma power_poly_iso_inv phi n : iso_inv phi -> iso_inv (power_poly phi n).
Proof.
  intros Hphi t u Htu. unfold power_poly.
  destruct (n =? 0); [by apply counit_poly_iso_inv|].
  destruct (0 <? n); [by apply cpow_iso_inv|].
  apply apply_poly_den.
  - by apply cpow_iso_inv.
  - apply wf_antipode_value.
  - apply wf_antipode_value.
  - rewrite antipode_value_reduce. apply ForestSum_reduce_forests.
  - rewrite antipode_value_reduce. apply ForestSum_reduce_forests.
  - by apply (S_poly_iso t u).
Qed.

(** A well-formed value with the polynomial [p]. *)
Definition value_ok (p : poly) (v : value) : Prop :=
  wf_value v /\ den_value v ≈ p.

Lemma value_ok_peq p q v : p ≈ q -> value_ok p v -> value_ok q v.
Proof. intros H [? Hd]. split; [done|]. by rewrite Hd. Qed.

Lemma value_ok_reduce (b : bool) p v :
  value_ok p v -> value_ok p (if b then reduce_value v else v).
Proof.
  intros [Hwf Hd]. destruct (reduce_unless b v Hwf) as [? Hd'].
  split; [done|]. by rewrite Hd'.
Qed.

Section apply_st.

Variable P : caches -> Prop.
Variable func : Tree -> st value.
Variable psi : Tree -> poly.

Lemma st_fold_mul_ok ts :
  (forall x, x ∈ ts -> st_ok P (func x) (value_ok (psi x))) ->
  st_ok P (st_fold (fun out t => run v <~ func t; st_ret (_mul out v false)) ts (VInt 1))
        (value_ok (pprod (psi <$> ts))).
Proof.
  intros Hf.
  apply (st_ok_fold P _ (fun p out => value_ok (pprod (psi <$> p)) out) ts []).
  - intros p x out Hx [Hwf Hd]. eapply st_ok_bind; [by apply Hf|].
    intros v [Hwfv Hdv]. apply st_ok_ret. split; [by apply wf_mul|].
    rewrite den_mul, Hd, Hdv, fmap_app, pprod_app by done.
    cbn [fmap list_fmap pprod foldr]. by rewrite pmul_1_r.
  - done.
Qed.

Lemma Forest_apply_st_ok f ar :
  (forall x, x ∈ tree_list f -> st_ok P (func x) (value_ok (psi x))) ->
  st_ok P (Forest_apply_st f func ar) (value_ok (pprod (psi <$> tree_list f))).
Proof.
  intros Hf. unfold Forest_apply_st, Tree_apply_st.
  eapply st_ok_bind; [by apply st_fold_mul_ok|].
  intros out Hout. apply st_ok_ret. by apply value_ok_reduce.
Qed.

Lemma ForestSum_apply_st_ok s ar :
  (forall fc x, fc ∈ terms s -> x ∈ tree_list fc.1 ->
                st_ok P (func x) (value_ok (psi x))) ->
  st_ok P (ForestSum_apply_st s func ar) (value_ok (apply_poly psi (terms s))).
Proof.
  intros Hf. unfold ForestSum_apply_st. eapply st_ok_bind.
  - apply (st_ok_fold P _ (fun p out => value_ok (apply_poly psi p) out) (terms s) []).
    + intros p fc out Hfc [Hwf Hd]. eapply st_ok_bind.
      { apply st_fold_mul_ok. intros x Hx. by apply (Hf fc). }
      intros term [Hwft Hdt]. apply st_ok_ret.
      split; [apply wf_add; [done|by apply wf_mul]|].
      rewrite den_add; [|done|by apply wf_mul]. rewrite den_mul, Hd, Hdt by done.
      cbn [den_value]. rewrite pmul_const_r. unfold apply_poly.
      rewrite fmap_app, join_app. cbn [fmap list_fmap mjoin list_join].
      by rewrite app_nil_r.
    + split; [done|]. cbn [den_value]. by rewrite pconst_0.
  - cbn [app]. intros out Hout. apply st_ok_ret. by apply value_ok_reduce.
Qed.

End apply_st.

Lemma Tree_apply_product_body_ok (P : caches -> Prop) (call : fobj -> Tree -> st value)
    t func1 func2 b (phi1 phi2 : Tree -> poly) :
  (forall x, st_ok P (call func1 x) (value_ok (phi1 x))) ->
  (forall x, st_ok P (call func2 x) (value_ok (phi2 x))) ->
  st_ok P (Tree_apply_product_body call t func1 func2 b)
        (value_ok (convolution_poly phi1 phi2 t)).
Proof.
  intros H1 H2. unfold Tree_apply_product_body, Tree_apply_st.
  rewrite convolution_poly_psum.
  pose proof (eq_refl : cuts t = zip (Tree_split t).1 (Tree_split t).2) as Hc.
  destruct (Tree_split t) as [subtrees branches]. cbn [fst snd] in Hc. rewrite <- Hc.
  set (F := fun sb : Tree * Forest =>
              pmul (pprod (phi1 <$> tree_list sb.2)) (phi2 sb.1)).
  destruct (cuts t) as [|[s0 b0] rest].
  { apply st_ok_ret. split; [done|]. cbn [den_value]. by rewrite pconst_0. }
  eapply st_ok_bind.
  { apply (Forest_apply_st_ok P (call func1) phi1). intros x _. apply H1. }
  intros x0 [Hwfx Hdx]. eapply st_ok_bind; [apply H2|].
  intros y0 [Hwfy Hdy]. eapply st_ok_bind.
  - apply (st_ok_fold P _ (fun p out => value_ok (psum F ((s0, b0) :: p)) out) rest []).
    + intros p sb out _ [Hwf Hd]. eapply st_ok_bind.
      { apply (Forest_apply_st_ok P (call func1) phi1). intros x _. apply H1. }
      intros x [Hwfx' Hdx']. eapply st_ok_bind; [apply H2|].
      intros y [Hwfy' Hdy']. apply st_ok_ret.
      split; [apply wf_add; [done|by apply wf_mul]|].
      rewrite den_add; [|done|by apply wf_mul]. rewrite den_mul, Hd, Hdx', Hdy' by done.
      rewrite !psum_cons, psum_app, psum_cons, psum_nil, app_nil_r.
      by rewrite <- app_assoc.
    + split; [by apply wf_mul|]. rewrite den_mul, Hdx, Hdy by done.
      by rewrite psum_cons, psum_nil, app_nil_r.
  - cbn [app]. intros out Hout. apply st_ok_ret. by apply value_ok_reduce.
Qed.

Section memoised_apply_ok.

(** The functions of the caller, and the polynomials of their values. *)
Variable code : nat -> Tree -> st value.
Variable phi : nat -> Tree -> poly.

(** The polynomial of the values of a function object. *)
Fixpoint phi_f (f : fobj) : Tree -> poly :=
  match f with
  | Fn i => phi i
  | PowerLambda _ func m => power_poly (phi_f func) m
  end.

(** The invariant of the three dictionaries: every stored result is a
    well-formed value with the polynomial that the method has on the tree of
    the key. *)
Definition cache_ok (c : caches) : Prop :=
  antipode_cache_ok (antipode_cache c)
  /\ Forall (fun e => value_ok (power_poly (phi_f e.1.1.1.2) e.1.1.2 e.1.1.1.1) e.2)
            (apply_power_cache c)
  /\ Forall (fun e => value_ok
                        (convolution_poly (phi_f e.1.1.1.2) (phi_f e.1.1.2) e.1.1.1.1)
                        e.2)
            (apply_product_cache c).

(** The functions of the caller return well-formed values, keep the
    invariant of the dictionaries, and do not tell isomorphic trees apart. *)
Hypothesis code_ok : forall i x, st_ok cache_ok (code i x) (value_ok (phi i x)).
Hypothesis phi_iso : forall i, iso_inv (phi i).

Lemma phi_f_iso f : iso_inv (phi_f f).
Proof.
  induction f as [i|k func IH m]; [apply phi_iso|].
  cbn [phi_f]. by apply power_poly_iso_inv.
Qed.

Lemma Tree_antipode_cached_cache_ok t a :
  st_ok cache_ok (Tree_antipode_cached t a) (antipode_result_ok t (flag_of a)).
Proof.
  intros c (Ha & Hpw & Hpd).
  destruct (Tree_antipode_cached_ok _ _ _ t a c (antipode_inv_intro c Ha))
    as (s & c' & Hrun & (Ha' & Hpw' & Hpd' & _) & Hs).
  exists s, c'. split; [done|]. split; [|done].
  split; [done|]. by rewrite Hpw', Hpd'.
Qed.

Lemma new_lambda_ok func m :
  st_ok cache_ok (new_lambda func m)
        (fun lam => exists k, lam = PowerLambda k func m).
Proof. intros c Hc. eexists _, _. split; [done|]. split; [done|]. by eexists. Qed.

Lemma Tree_apply_product_with_ok (call : fobj -> Tree -> st value) t func1 func2 a :
  (forall x, st_ok cache_ok (call func1 x) (value_ok (phi_f func1 x))) ->
  (forall x, st_ok cache_ok (call func2 x) (value_ok (phi_f func2 x))) ->
  st_ok cache_ok (Tree_apply_product_with call t func1 func2 a)
        (value_ok (convolution_poly (phi_f func1) (phi_f func2) t)).
Proof.
  intros H1 H2. unfold Tree_apply_product_with. apply lru_cache_ok.
  - intros c [[[t' f1] f2] a'] v (_ & _ & Hpd) Hin Hk.
    unfold apply_product_key_eq, fobj_is in Hk.
    apply andb_true_iff in Hk as [Hk _]. apply andb_true_iff in Hk as [Hk Hf2].
    apply andb_true_iff in Hk as [Ht Hf1].
    apply bool_decide_eq_true in Hf1 as ->. apply bool_decide_eq_true in Hf2 as ->.
    rewrite Forall_forall in Hpd. specialize (Hpd _ Hin). cbn [fst snd] in Hpd.
    eapply value_ok_peq; [|exact Hpd].
    apply convolution_poly_iso_inv; [apply phi_f_iso..|]. by apply Tree_iso_equals.
  - by apply Tree_apply_product_body_ok.
  - intros c v (Ha & Hpw & Hpd) Hv. split; [done|]. split; [done|].
    cbn [set_apply_product_cache apply_product_cache]. by constructor.
Qed.

Lemma counit_value_ok t :
  st_ok cache_ok (st_lift (_counit t)) (value_ok (counit_poly t)).
Proof.
  intros c Hc. unfold st_lift, _counit, counit_poly. destruct (list_repr t).
  - exists (VSum ZERO_FOREST_SUM), c. split; [done|]. split; [done|].
    split; [by repeat constructor|]. cbn [den_value].
    change (den ZERO_FOREST_SUM) with (pconst 0). apply pconst_0.
  - exists (VSum EMPTY_FOREST_SUM), c. split; [done|]. split; [done|].
    split; [by repeat constructor|done].
Qed.

(** The fuel that the exponent [n] needs. *)
Definition power_fuel (n : Z) : nat :=
  if n <? 0 then S (Z.abs_nat n) else Nat.max 1 (Z.abs_nat n).

Lemma Tree_apply_power_cached_fuel_ok fuel t i n a :
  (power_fuel n <= fuel)%nat ->
  st_ok cache_ok (Tree_apply_power_cached_fuel code fuel t (Fn i) n a)
        (value_ok (power_poly (phi i) n t)).
Proof.
  revert t n a. induction fuel as [|fuel IH]; intros t n a Hfuel.
  { unfold power_fuel in Hfuel. destruct (n <? 0); lia. }
  cbn [Tree_apply_power_cached_fuel]. apply lru_cache_ok.
  - intros c [[[t' f] n'] a'] v (_ & Hpw & _) Hin Hk.
    unfold apply_power_key_eq, fobj_is in Hk.
    apply andb_true_iff in Hk as [Hk _]. apply andb_true_iff in Hk as [Hk Hn].
    apply andb_true_iff in Hk as [Ht Hf].
    apply bool_decide_eq_true in Hf as ->. apply Z.eqb_eq in Hn as ->.
    rewrite Forall_forall in Hpw. specialize (Hpw _ Hin). cbn [fst snd phi_f] in Hpw.
    eapply value_ok_peq; [|exact Hpw].
    apply power_poly_iso_inv; [apply phi_iso|]. by apply Tree_iso_equals.
  - unfold Tree_apply_power_body, Tree_apply_st, power_poly.
    destruct (Z.eqb_spec n 0) as [->|Hn0]; [apply counit_value_ok|].
    destruct (Z.eqb_spec n 1) as [->|Hn1]; [apply code_ok|].
    unfold power_fuel in Hfuel.
    destruct (Z.ltb_spec n 0) as [Hneg|Hpos].
    + destruct (Z.ltb_spec 0 n); [lia|].
      eapply st_ok_bind; [|intros r Hr; apply st_ok_ret; apply value_ok_reduce, Hr].
      eapply st_ok_bind; [apply (Tree_antipode_cached_cache_ok t Omitted)|].
      intros s (Hwf & Hden & Hred & _). unfold ForestSum_apply_power_st.
      eapply st_ok_conseq.
      * apply (ForestSum_apply_st_ok cache_ok _ (power_poly (phi i) (- n))).
        intros fc x _ _. apply IH. unfold power_fuel.
        destruct (Z.ltb_spec (- n) 0); lia.
      * intros v Hv. eapply value_ok_peq; [|exact Hv].
        trans (apply_poly (cpow (phi i) (Z.to_nat (- n) - 1)) (terms s)).
        { apply apply_poly_ext. intros x. unfold power_poly.
          destruct (Z.eqb_spec (- n) 0); [lia|].
          by destruct (Z.ltb_spec 0 (- n)); [|lia]. }
        apply apply_poly_den.
        -- apply cpow_iso_inv, phi_iso.
        -- done.
        -- apply wf_antipode_value.
        -- rewrite <- (Hred eq_refl). apply ForestSum_reduce_forests.
        -- rewrite antipode_value_reduce. apply ForestSum_reduce_forests.
        -- done.
    + destruct (Z.ltb_spec 0 n); [|lia].
      eapply st_ok_bind; [|intros r Hr; apply st_ok_ret; apply value_ok_reduce, Hr].
      eapply st_ok_bind; [apply new_lambda_ok|].
      intros lam [k ->]. eapply st_ok_conseq.
      * apply (Tree_apply_product_with_ok _ t (Fn i) (PowerLambda k (Fn i) (n - 1))).
        -- intros x. apply code_ok.
        -- intros x. cbn [call_fobj phi_f]. apply IH. unfold power_fuel.
           destruct (Z.ltb_spec (n - 1) 0); lia.
      * intros v Hv. eapply value_ok_peq; [|exact Hv]. cbn [phi_f].
        replace (Z.to_nat n - 1)%nat with (S (Z.to_nat (n - 1) - 1)) by lia.
        cbn [cpow]. apply convolution_poly_ext. intros x. unfold power_poly.
        destruct (Z.eqb_spec (n - 1) 0); [lia|].
        by destruct (Z.ltb_spec 0 (n - 1)); [|lia].
  - intros c v (Ha & Hpw & Hpd) Hv. split; [done|]. split; [|done].
    cbn [set_apply_power_cache apply_power_cache]. by constructor.
Qed.

Lemma Tree_apply_power_cached_ok t i n a :
  st_ok cache_ok (Tree_apply_power_cached code t (Fn i) n a)
        (value_ok (power_poly (phi i) n t)).
Proof.
  apply Tree_apply_power_cached_fuel_ok. unfold power_fuel. destruct (n <? 0); lia.
Qed.

Lemma Tree_apply_product_cached_ok t i j a :
  st_ok cache_ok (Tree_apply_product_cached code t (Fn i) (Fn j) a)
        (value_ok (convolution_poly (phi i) (phi j) t)).
Proof.
  apply (Tree_apply_product_with_ok _ t (Fn i) (Fn j)); intros x; apply code_ok.
Qed.

End memoised_apply_ok.

Lemma cache_ok_no_caches phi : cache_ok phi no_caches.
Proof. repeat split; constructor. Qed.

Lemma power_poly_antipode phi n t s :
  iso_inv phi -> n < 0 -> antipode_result_ok t true s ->
  apply_poly (power_poly phi (- n)) (terms s) ≈ power_poly phi n t.
Proof.
  intros Hphi Hn (Hwf & Hden & Hred & _).
  unfold power_poly at 2.
  destruct (Z.eqb_spec n 0); [lia|]. destruct (Z.ltb_spec 0 n); [lia|].
  trans (apply_poly (cpow phi (Z.to_nat (- n) - 1)) (terms s)).
  { apply apply_poly_ext. intros x. unfold power_poly.
    destruct (Z.eqb_spec (- n) 0); [lia|].
    by destruct (Z.ltb_spec 0 (- n)); [|lia]. }
  apply apply_poly_den.
  - by apply cpow_iso_inv.
  - done.
  - apply wf_antipode_value.
  - rewrite <- (Hred eq_refl). apply ForestSum_reduce_forests.
  - rewrite antipode_value_reduce. apply ForestSum_reduce_forests.
  - done.
Qed.

Lemma power_poly_succ phi n t :
  1 < n -> convolution_poly phi (power_poly phi (n - 1)) t ≈ power_poly phi n t.
Proof.
  intros Hn. unfold power_poly at 2.
  destruct (Z.eqb_spec n 0); [lia|]. destruct (Z.ltb_spec 0 n); [|lia].
  replace (Z.to_nat n - 1)%nat with (S (Z.to_nat (n - 1) - 1)) by lia.
  cbn [cpow]. apply convolution_poly_ext. intros x. unfold power_poly.
  destruct (Z.eqb_spec (n - 1) 0); [lia|].
  by destruct (Z.ltb_spec 0 (n - 1)); [|lia].
Qed.

Lemma value_ok_eq p v w : value_ok p v -> value_ok p w -> value_eq v w = true.
Proof. intros [? Hv] [? Hw]. apply value_eq_den; [done..|]. by rewrite Hv, Hw. Qed.

Section memoised_apply_properties.

Variable code : nat -> Tree -> st value.
Variable phi : nat -> Tree -> poly.
Hypothesis code_ok : forall k x, st_ok (cache_ok phi) (code k x) (value_ok (phi k x)).
Hypothesis phi_iso : forall k, iso_inv (phi k).

(** The convolution product [Tree.apply_product], called through its
    dictionary in any state that earlier calls can have left. When the
    functions of the caller return well-formed values and do not tell
    isomorphic trees apart, [t.apply_product(func1, func2)] returns a
    well-formed value whose polynomial is the sum, over the cuts that
    [split] enumerates, of the product of the polynomials of [func1] on the
    removed trees times the polynomial of [func2] on the kept tree; and it
    leaves the dictionaries in such a state. *)
Theorem Tree_apply_product_polynomial c t i j a :
  cache_ok phi c ->
  exists v c',
    Tree_apply_product_cached code t (Fn i) (Fn j) a c = (Ok v, c')
    /\ cache_ok phi c' /\ wf_value v
    /\ den_value v ≈ convolution_poly (phi i) (phi j) t.
Proof.
  intros Hc.
  destruct (Tree_apply_product_cached_ok code phi code_ok phi_iso t i j a c Hc)
    as (v & c' & Hrun & Hc' & Hwf & Hden).
  by exists v, c'.
Qed.

(** The convolution powers [Tree.apply_power], called through the
    dictionaries in any state that earlier calls can have left. When the
    functions of the caller return well-formed values and do not tell
    isomorphic trees apart, [t.apply_power(func, n)] returns for every
    integer [n] (the recursion always ends), and its result is a well-formed
    value whose polynomial is the one of the convolution power: the counit
    for 0, the one of [func] for 1, the convolution of [func] with the power
    [n - 1] for [n > 1], and the power [-n] extended linearly and
    multiplicatively to the antipode of the tree for [n < 0]. *)
Theorem Tree_apply_power_spec c t i n a :
  cache_ok phi c ->
  exists v c',
    Tree_apply_power_cached code t (Fn i) n a c = (Ok v, c')
    /\ cache_ok phi c' /\ wf_value v
    /\ den_value v ≈ power_poly (phi i) n t
    /\ power_poly (phi i) 0 t = counit_poly t
    /\ power_poly (phi i) 1 t = phi i t
    /\ (1 < n ->
        power_poly (phi i) n t
        ≈ convolution_poly (phi i) (power_poly (phi i) (n - 1)) t)
    /\ (n < 0 ->
        exists s, Tree_antipode t true = Ok s
                  /\ power_poly (phi i) n t
                     ≈ apply_poly (power_poly (phi i) (- n)) (terms s)).
Proof.
  intros Hc.
  destruct (Tree_apply_power_cached_ok code phi code_ok phi_iso t i n a c Hc)
    as (v & c' & Hrun & Hc' & Hwf & Hden).
  exists v, c'. repeat (split; [done|]). split.
  - intros Hn. symmetry. by apply power_poly_succ.
  - intros Hn. exists (antipode_value t true). split; [apply Tree_antipode_value|].
    symmetry. apply power_poly_antipode; [apply phi_iso|done|].
    split; [apply wf_antipode_value|]. split; [done|].
    split; [intros _; rewrite antipode_value_reduce; apply ForestSum_reduce_reduce|].
    split; intros Hr.
    + by rewrite antipode_value_void.
    + by rewrite antipode_value_leaf.
Qed.


End memoised_apply_properties.

(** [lambda x: x] as the function of every identity. *)
Definition identity_code : nat -> Tree -> st value := fun _ x => st_ret (VTree x).

Lemma identity_code_ok k x :
  st_ok (cache_ok (fun _ => I_poly)) (identity_code k x) (value_ok (I_poly x)).
Proof. by apply st_ok_ret. Qed.

Lemma Tree_apply_product_polynomial_witness :
  (forall k x, st_ok (cache_ok (fun _ => I_poly)) (identity_code k x) (value_ok (I_poly x)))
  /\ (forall k : nat, iso_inv I_poly)
  /\ cache_ok (fun _ => I_poly) no_caches
  /\ exists v c',
       Tree_apply_product_cached identity_code
         (mkTree (Some (Node [Node [Node []]; Node []]))) (Fn 0) (Fn 0) Omitted no_caches
       = (Ok v, c')
       /\ wf_value v.
Proof.
  split; [exact identity_code_ok|]. split; [exact (fun _ => I_poly_iso)|].
  split; [exact (cache_ok_no_caches _)|].
  destruct (Tree_apply_product_polynomial identity_code (fun _ => I_poly)
              identity_code_ok (fun _ => I_poly_iso) no_caches
              (mkTree (Some (Node [Node [Node []]; Node []]))) 0%nat 0%nat Omitted
              (cache_ok_no_caches _)) as (v & c' & H1 & _ & H2 & _).
  exists v, c'. split; [exact H1|exact H2].
Defined.

Lemma Tree_apply_power_spec_witness :
  (forall k x, st_ok (cache_ok (fun _ => I_poly)) (identity_code k x) (value_ok (I_poly x)))
  /\ (forall k : nat, iso_inv I_poly)
  /\ cache_ok (fun _ => I_poly) no_caches
  /\ exists v c',
       Tree_apply_power_cached identity_code
         (mkTree (Some (Node [Node []]))) (Fn 0) (-2) Omitted no_caches
       = (Ok v, c')
       /\ wf_value v.
Proof.
  split; [exact identity_code_ok|]. split; [exact (fun _ => I_poly_iso)|].
  split; [exact (cache_ok_no_caches _)|].
  destruct (Tree_apply_power_spec identity_code (fun _ => I_poly)
              identity_code_ok (fun _ => I_poly_iso) no_caches
              (mkTree (Some (Node [Node []]))) 0%nat (-2) Omitted
              (cache_ok_no_caches _)) as (v & c' & H1 & _ & H2 & _).
  exists v, c'. split; [exact H1|exact H2].
Defined.




(** ** The antipode is the inverse of the identity, on the dictionaries *)

(** C1. Called through the dictionaries in any state that earlier calls can
    have left, with a function object [func1] whose values are equal, by
    [==], to [x] and a function object [func2] whose values are equal to
    [x.antipode()], [t.apply_product(func1, func2)] returns a well-formed
    value that is equal, by [==], to the counit of [t]: to 1, the forest sum
    of the empty forest with the coefficient 1, when [t] is the void tree,
    and to 0, the zero forest sum, on every other tree. *)
Theorem apply_product_identity_antipode
    (code : nat -> Tree -> st value) (phi : nat -> Tree -> poly) i j c t a :
  (forall k x, st_ok (cache_ok phi) (code k x) (value_ok (phi k x))) ->
  (forall k, iso_inv (phi k)) ->
  (forall x, phi i x ≈ den_value (VTree x)) ->
  (forall x s, Tree_antipode x true = Ok s -> phi j x ≈ den s) ->
  cache_ok phi c ->
  exists v c',
    Tree_apply_product_cached code t (Fn i) (Fn j) a c = (Ok v, c')
    /\ cache_ok phi c' /\ wf_value v
    /\ (exists w, _counit t = Ok w /\ value_eq v w = true)
    /\ match list_repr t with
       | None => value_eq v (VSum EMPTY_FOREST_SUM) = true /\ value_eq v (VInt 1) = true
       | Some _ => value_eq v (VSum ZERO_FOREST_SUM) = true /\ value_eq v (VInt 0) = true
       end.
Proof.
  intros Hcode Hiso Hi Hj Hc.
  destruct (Tree_apply_product_cached_ok code phi Hcode Hiso t i j a c Hc)
    as (v & c' & Hrun & Hc' & Hv).
  exists v, c'. split; [done|]. split; [done|]. split; [apply Hv|].
  assert (Hv' : value_ok (counit_poly t) v).
  { eapply value_ok_peq; [|exact Hv]. rewrite <- (conv_I_S t).
    rewrite (convolution_poly_ext_l _ I_poly) by apply Hi.
    apply convolution_poly_ext. intros x. apply Hj, Tree_antipode_value. }
  destruct (counit_value_ok phi t c Hc) as (w & c0 & Hw & _ & Hwok).
  unfold st_lift in Hw. injection Hw as Hw _.
  split; [exists w; split; [done|by apply (value_ok_eq (counit_poly t))]|].
  unfold _counit in Hw. unfold counit_poly in *.
  destruct (list_repr t); injection Hw as <-;
    (split; [by apply (value_ok_eq _ _ _ Hv' Hwok)|]);
    apply (value_ok_eq _ _ _ Hv'); (split; [done|]); cbn [den_value];
    [apply pconst_0|done].
Qed.

(** [lambda x: x] as the function 0, and [lambda x: x.antipode()] as every
    other function. *)
Definition identity_antipode_code : nat -> Tree -> st value :=
  fun k x =>
    match k with
    | O => st_ret (VTree x)
    | S _ => run s <~ Tree_antipode_cached x Omitted; st_ret (VSum s)
    end.

Definition identity_antipode_poly : nat -> Tree -> poly :=
  fun k => match k with O => I_poly | S _ => S_poly end.

Lemma identity_antipode_code_ok k x :
  st_ok (cache_ok identity_antipode_poly) (identity_antipode_code k x)
        (value_ok (identity_antipode_poly k x)).
Proof.
  destruct k as [|k]; [by apply st_ok_ret|]. cbn.
  eapply st_ok_bind; [apply (Tree_antipode_cached_cache_ok _ x Omitted)|].
  intros s (Hwf & Hden & _). by apply st_ok_ret.
Qed.

Lemma identity_antipode_poly_iso k : iso_inv (identity_antipode_poly k).
Proof. destruct k; [apply I_poly_iso|apply S_poly_iso]. Qed.

Lemma apply_product_identity_antipode_witness :
  (forall k x, st_ok (cache_ok identity_antipode_poly) (identity_antipode_code k x)
                     (value_ok (identity_antipode_poly k x)))
  /\ (forall k, iso_inv (identity_antipode_poly k))
  /\ (forall x, identity_antipode_poly 0 x ≈ den_value (VTree x))
  /\ (forall x s, Tree_antipode x true = Ok s -> identity_antipode_poly 1 x ≈ den s)
  /\ cache_ok identity_antipode_poly no_caches
  /\ exists v c',
       Tree_apply_product_cached identity_antipode_code
         (mkTree (Some (Node [Node []; Node [Node []]]))) (Fn 0) (Fn 1) Omitted no_caches
       = (Ok v, c')
       /\ value_eq v (VInt 0) = true.
Proof.
  assert (H3 : forall x, identity_antipode_poly 0 x ≈ den_value (VTree x)).
  { intros x. reflexivity. }
  assert (H4 : forall x s, Tree_antipode x true = Ok s ->
                 identity_antipode_poly 1 x ≈ den s).
  { intros x s Hs. simpl. unfold S_poly, antipode_value. rewrite Hs. reflexivity. }
  split; [exact identity_antipode_code_ok|].
  split; [exact identity_antipode_poly_iso|].
  split; [exact H3|]. split; [exact H4|].
  split; [exact (cache_ok_no_caches _)|].
  destruct (apply_product_identity_antipode identity_antipode_code
              identity_antipode_poly 0%nat 1%nat no_caches
              (mkTree (Some (Node [Node []; Node [Node []]]))) Omitted
              identity_antipode_code_ok identity_antipode_poly_iso H3 H4
              (cache_ok_no_caches _)) as (v & c' & H1 & _ & _ & _ & _ & H2).
  exists v, c'. split; [exact H1|exact H2].
Defined.

(** ** Isomorphism invariance *)

(** [Tree.__hash__], over the [hash] of tuples. *)
Definition Tree_hash {H : Type} (hash : option rep -> H) (t : Tree) : H :=
  hash (Tree_sorted_list_repr t).

(** C5. Two trees that differ by permutations of the children of nodes, at
    any level, have the same sorted representation, compare equal, have the
    same hash, the same number of nodes, the same factorial and the same
    symmetry factor; their antipodes, whatever the dictionary of the method
    holds and however [apply_reduction] is passed, are equal by [==]; and
    two trees with the same sorted representation compare equal and differ
    by such permutations only. *)
Theorem isomorphism_invariance {H : Type} (hash : option rep -> H) t u :
  (Tree_iso t u ->
   Tree_sorted_list_repr t = Tree_sorted_list_repr u
   /\ Tree_equals t u = true
   /\ Tree_hash hash t = Tree_hash hash u
   /\ Tree_nodes t = Tree_nodes u
   /\ Tree_factorial t = Tree_factorial u
   /\ Tree_sigma t = Tree_sigma u
   /\ forall c c' a a',
        antipode_cache_ok (antipode_cache c) -> antipode_cache_ok (antipode_cache c') ->
        exists s s' d d',
          Tree_antipode_cached t a c = (Ok s, d)
          /\ Tree_antipode_cached u a' c' = (Ok s', d')
          /\ ForestSum_equals s s' = true)
  /\ (Tree_sorted_list_repr t = Tree_sorted_list_repr u ->
      Tree_equals t u = true /\ Tree_iso t u).
Proof.
  assert (Hconv : Tree_sorted_list_repr t = Tree_sorted_list_repr u ->
                  Tree_equals t u = true /\ Tree_iso t u).
  { intros Hs. assert (Tree_equals t u = true) as He.
    { unfold Tree_equals. by apply bool_decide_eq_true. }
    split; [done|]. by apply Tree_iso_equals. }
  split; [|done]. intros Hiso.
  assert (He : Tree_equals t u = true) by by apply Tree_iso_equals.
  assert (Hs : Tree_sorted_list_repr t = Tree_sorted_list_repr u).
  { unfold Tree_equals in He. by apply bool_decide_eq_true in He. }
  split; [done|]. split; [done|]. split; [unfold Tree_hash; by rewrite Hs|].
  split; [by apply Tree_iso_nodes|].
  split; [|split].
  - unfold Tree_factorial. destruct t as [[a|]], u as [[b|]]; try done.
    cbn. apply rep_factorial_canonical. by injection Hs.
  - unfold Tree_sigma. destruct t as [[a|]], u as [[b|]]; try done.
    cbn. apply rep_sigma_canonical. by injection Hs.
  - intros c c' a a' Hc Hc'.
    destruct (Tree_antipode_cached_ok _ _ _ t a c (antipode_inv_intro c Hc))
      as (s & d & Hrun & _ & Hwf & Hden & _).
    destruct (Tree_antipode_cached_ok _ _ _ u a' c' (antipode_inv_intro c' Hc'))
      as (s' & d' & Hrun' & _ & Hwf' & Hden' & _).
    exists s, s', d, d'. split; [done|]. split; [done|].
    apply ForestSum_equals_den; [apply Hwf|apply Hwf'|].
    rewrite Hden, Hden'. by apply S_poly_iso.
Qed.

Lemma isomorphism_invariance_witness :
  Tree_iso (mkTree (Some (Node [Node [Node []]; Node []])))
           (mkTree (Some (Node [Node []; Node [Node []]])))
  /\ Tree_hash (fun x => x) (mkTree (Some (Node [Node [Node []]; Node []])))
     = Tree_hash (fun x => x) (mkTree (Some (Node [Node []; Node [Node []]]))).
Proof.
  assert (Tree_iso (mkTree (Some (Node [Node [Node []]; Node []])))
                   (mkTree (Some (Node [Node []; Node [Node []]])))) as H.
  { simpl. apply iso_perm. apply perm_swap. }
  split; [exact H|].
  exact (proj1 (proj2 (proj2 (proj1 (isomorphism_invariance (fun x => x) _ _) H)))).
Defined.
